(** * RenderDoc POSIX process layer: tokenizer, environment engine,
      PID lists, zombie reaper and launcher

    A shallow embedding of [renderdoc/os/posix/posix_process.cpp] together
    with the properties its specification states about it. *)

From Stdlib Require Import ZArith Lia List Ascii String Bool.
From Stdlib Require OrderedTypeEx.
From stdpp Require Import base option list gmap strings.
Import ListNotations.

Local Open Scope string_scope.
Local Open Scope list_scope.

(** ** Strings as the code sees them *)

(** [rdcstr] is a counted byte string; [c_str()] hands out the bytes up to
    the first NUL, which is where every [while( *c )] scan stops. *)
Definition nul : ascii := "000"%char.
Definition dquote_char : ascii := "034"%char.
Definition squote_char : ascii := "'"%char.
Definition backslash_char : ascii := "\"%char.
Definition space_char : ascii := " "%char.
Definition tab_char : ascii := "009"%char.

Fixpoint c_str (s : string) : string :=
  match s with
  | EmptyString => EmptyString
  | String ch r => if Ascii.eqb ch nul then EmptyString else String ch (c_str r)
  end.

Definition str_empty (s : string) : bool :=
  match s with EmptyString => true | String _ _ => false end.

Definition push_back (a : string) (ch : ascii) : string := a +:+ String ch "".

Fixpoint str_concat (l : list string) : string :=
  match l with
  | [] => ""
  | s :: r => s +:+ str_concat r
  end.

Fixpoint has_char (ch : ascii) (s : string) : bool :=
  match s with
  | EmptyString => false
  | String x r => Ascii.eqb x ch || has_char ch r
  end.

(** ** CommandLineTokenizer *)

Module Tokenizer.

(** The body of the [while( *c )] loop of [ParseCommandLine] and the code that
    follows it, over the bytes still to read.  The empty result is the
    [return {}] of the two malformed-input exits. *)
Fixpoint parse_loop (c : string) (argv : list string) (a : string)
         (haveArg dquot squot : bool) : list string :=
  match c with
  | EmptyString =>
      let argv' := if negb (str_empty a) || haveArg then argv ++ [a] else argv in
      if squot || dquot then [] else argv'
  | String ch rest =>
      if negb dquot && negb squot &&
         (Ascii.eqb ch space_char || Ascii.eqb ch tab_char) then
        parse_loop rest
                   (if negb (str_empty a) || haveArg then argv ++ [a] else argv)
                   "" false dquot squot
      else if negb dquot && negb squot && Ascii.eqb ch dquote_char then
        parse_loop rest argv a true true squot
      else if negb dquot && negb squot && Ascii.eqb ch squote_char then
        parse_loop rest argv a true dquot true
      else if dquot && Ascii.eqb ch dquote_char then
        parse_loop rest argv a haveArg false squot
      else if squot && Ascii.eqb ch squote_char then
        parse_loop rest argv a haveArg dquot false
      else if squot then
        parse_loop rest argv (push_back a ch) haveArg dquot squot
      else if dquot then
        if Ascii.eqb ch backslash_char then
          match rest with
          | EmptyString => []
          | String ch2 rest2 =>
              parse_loop rest2 argv (push_back a ch2) haveArg dquot squot
          end
        else parse_loop rest argv (push_back a ch) haveArg dquot squot
      else parse_loop rest argv (push_back a ch) haveArg dquot squot
  end.

Definition ParseCommandLine (appName cmdLine : string) : list string :=
  if str_empty cmdLine then [appName]
  else parse_loop (c_str cmdLine) [appName] "" false false false.

(** The quoting state of section 4.1 of the specification, read off its
    words: outside quotes a quote character opens its mode; a single quote
    closes single-quote mode; inside double quotes a backslash takes the
    next character with it and a double quote closes the mode.  [None] is
    the backslash with nothing after it. *)
Inductive qstate := QOut | QSingle | QDouble.

Fixpoint quote_scan (q : qstate) (c : string) : option qstate :=
  match c with
  | EmptyString => Some q
  | String ch rest =>
      match q with
      | QOut =>
          if Ascii.eqb ch dquote_char then quote_scan QDouble rest
          else if Ascii.eqb ch squote_char then quote_scan QSingle rest
          else quote_scan QOut rest
      | QSingle =>
          if Ascii.eqb ch squote_char then quote_scan QOut rest
          else quote_scan QSingle rest
      | QDouble =>
          if Ascii.eqb ch dquote_char then quote_scan QOut rest
          else if Ascii.eqb ch backslash_char then
            match rest with
            | EmptyString => None
            | String _ rest2 => quote_scan QDouble rest2
            end
          else quote_scan QDouble rest
      end
  end.

Definition well_formed (cmdLine : string) : Prop :=
  quote_scan QOut (c_str cmdLine) = Some QOut.

Definition q_dquot (q : qstate) : bool :=
  match q with QDouble => true | _ => false end.
Definition q_squot (q : qstate) : bool :=
  match q with QSingle => true | _ => false end.

(** The loop and the quoting state agree on a text: started in the flags
    of any state, the loop fails exactly when the text leaves the state
    inside a quote or on a backslash, and otherwise only adds arguments. *)
Definition scan_agrees (c : string) : Prop :=
  ∀ q argv a h,
    match quote_scan q c with
    | Some QOut =>
        ∃ toks, parse_loop c argv a h (q_dquot q) (q_squot q) = argv ++ toks
    | _ => parse_loop c argv a h (q_dquot q) (q_squot q) = []
    end.

(** Quoted segments written one after the other. *)
Inductive segment := SQ (s : string) | DQ (s : string).

Definition seg_text (g : segment) : string :=
  match g with SQ s => s | DQ s => s end.

Definition seg_render (g : segment) : string :=
  match g with
  | SQ s => String squote_char (s +:+ String squote_char "")
  | DQ s => String dquote_char (s +:+ String dquote_char "")
  end.

Definition seg_ok (g : segment) : bool :=
  match g with
  | SQ s => negb (has_char squote_char s) && negb (has_char nul s)
  | DQ s => negb (has_char dquote_char s) && negb (has_char backslash_char s)
            && negb (has_char nul s)
  end.

(** A double quote and a backslash as one-character texts, to write the
    command lines of the unit tests. *)
Definition dq : string := String dquote_char "".
Definition bs : string := String backslash_char "".
Definition tab : string := String tab_char "".

(** A blank is what the first branch of the loop tests for; a word
    character is a character that reaches the last [else] of the loop when
    no quote is open. *)
Definition is_blank_char (ch : ascii) : bool :=
  Ascii.eqb ch space_char || Ascii.eqb ch tab_char.

Definition is_word_char (ch : ascii) : bool :=
  negb (is_blank_char ch) && negb (Ascii.eqb ch dquote_char)
  && negb (Ascii.eqb ch squote_char) && negb (Ascii.eqb ch nul).

Fixpoint str_forall (f : ascii → bool) (s : string) : bool :=
  match s with
  | EmptyString => true
  | String ch r => f ch && str_forall f r
  end.

Definition blank (s : string) : bool := str_forall is_blank_char s.
Definition word (s : string) : bool := negb (str_empty s) && str_forall is_word_char s.

(** Words written one after the other, each with the blanks that follow
    it; only the last word may have none. *)
Fixpoint words_text (items : list (string * string)) : string :=
  match items with
  | [] => ""
  | ws :: r => ws.1 +:+ ws.2 +:+ words_text r
  end.

Fixpoint words_ok (items : list (string * string)) : bool :=
  match items with
  | [] => true
  | ws :: r =>
      word ws.1 && blank ws.2
      && (negb (str_empty ws.2) || match r with [] => true | _ => false end)
      && words_ok r
  end.

(** Blanks after a text change nothing, whatever the state of the loop. *)
Definition trailing_ok (bl c : string) : Prop :=
  ∀ argv a h d s, parse_loop (c +:+ bl) argv a h d s = parse_loop c argv a h d s.

(** What a well-formed text leaves of the loop's variables: arguments that
    are complete and an argument that may go on. *)
Definition prefix_ok (c : string) : Prop :=
  ∀ q a h,
    quote_scan q c = Some QOut →
    ∃ toks a' h',
      ∀ rest argv,
        parse_loop (c +:+ rest) argv a h (q_dquot q) (q_squot q)
        = parse_loop rest (argv ++ toks) a' h' false false.

(** The inside of a double-quoted segment: characters written as they are
    and characters written after a backslash. *)
Inductive dq_item := Plain (ch : ascii) | Escaped (ch : ascii).

Definition dq_item_ok (i : dq_item) : bool :=
  match i with
  | Plain ch => negb (Ascii.eqb ch dquote_char) && negb (Ascii.eqb ch backslash_char)
                && negb (Ascii.eqb ch nul)
  | Escaped ch => negb (Ascii.eqb ch nul)
  end.

Definition dq_item_char (i : dq_item) : ascii :=
  match i with Plain ch => ch | Escaped ch => ch end.

Fixpoint dq_render (items : list dq_item) : string :=
  match items with
  | [] => ""
  | Plain ch :: r => String ch (dq_render r)
  | Escaped ch :: r => String backslash_char (String ch (dq_render r))
  end.

Fixpoint dq_text (items : list dq_item) : string :=
  match items with
  | [] => ""
  | i :: r => String (dq_item_char i) (dq_text r)
  end.

(** A text with a backslash put before every double quote and backslash. *)
Fixpoint dq_quote (s : string) : list dq_item :=
  match s with
  | EmptyString => []
  | String ch r =>
      (if Ascii.eqb ch dquote_char || Ascii.eqb ch backslash_char
       then Escaped ch else Plain ch) :: dq_quote r
  end.


(** The two [RDCERR] messages of [ParseCommandLine]: the one inside the
    loop, for a backslash with nothing after it, and the one after the
    loop, for a quote that is still open. *)
Definition malformed_in_escape : string :=
  "Malformed command line:" +:+ String "010"%char "%s".
Definition malformed_at_end : string :=
  "Malformed command line" +:+ String "010"%char "%s".

(** The formats [ParseCommandLine] logs on its way through the loop.
    Which branch the loop takes depends on the character and the two quote
    flags only, so the walk carries nothing else. *)
Fixpoint parse_loop_errors (c : string) (dquot squot : bool) : list string :=
  match c with
  | EmptyString => if squot || dquot then [malformed_at_end] else []
  | String ch rest =>
      if negb dquot && negb squot &&
         (Ascii.eqb ch space_char || Ascii.eqb ch tab_char) then
        parse_loop_errors rest dquot squot
      else if negb dquot && negb squot && Ascii.eqb ch dquote_char then
        parse_loop_errors rest true squot
      else if negb dquot && negb squot && Ascii.eqb ch squote_char then
        parse_loop_errors rest dquot true
      else if dquot && Ascii.eqb ch dquote_char then
        parse_loop_errors rest false squot
      else if squot && Ascii.eqb ch squote_char then
        parse_loop_errors rest dquot false
      else if squot then
        parse_loop_errors rest dquot squot
      else if dquot then
        if Ascii.eqb ch backslash_char then
          match rest with
          | EmptyString => [malformed_in_escape]
          | String _ rest2 => parse_loop_errors rest2 dquot squot
          end
        else parse_loop_errors rest dquot squot
      else parse_loop_errors rest dquot squot
  end.

(** The messages the loop logs, read off the quoting state the text ends
    in. *)
Definition errors_agree (c : string) : Prop :=
  ∀ q, parse_loop_errors c (q_dquot q) (q_squot q)
       = match quote_scan q c with
         | Some QOut => []
         | Some _ => [malformed_at_end]
         | None => [malformed_in_escape]
         end.

Definition ParseCommandLine_errors (cmdLine : string) : list string :=
  if str_empty cmdLine then []
  else parse_loop_errors (c_str cmdLine) false false.

End Tokenizer.


(** ** EnvironmentModificationEngine *)

Module EnvEngine.

(** [EnvMod], [EnvSep] and [EnvironmentModification] are declared in
    [api/replay]; the enumerators are the ones the code switches on. *)
Inductive EnvMod := EnvMod_Set | EnvMod_Append | EnvMod_Prepend.
Inductive EnvSep := EnvSep_Platform | EnvSep_SemiColon | EnvSep_Colon | EnvSep_NoSep.

Record EnvironmentModification := mkEnvMod {
  emod : EnvMod;
  sep : EnvSep;
  name : string;
  value : string
}.

(** The separator both update paths add: the two-way [if]/[else if] on
    [m.sep]. *)
Definition sep_text (s : EnvSep) : string :=
  match s with
  | EnvSep_Platform | EnvSep_Colon => ":"
  | EnvSep_SemiColon => ";"
  | EnvSep_NoSep => ""
  end.

(** [ApplySingleEnvMod(m, value)]: the new contents of [value]. *)
Definition ApplySingleEnvMod (m : EnvironmentModification) (v : string) : string :=
  match emod m with
  | EnvMod_Set => c_str (value m)
  | EnvMod_Append =>
      (if negb (str_empty v) then v +:+ sep_text (sep m) else v) +:+ c_str (value m)
  | EnvMod_Prepend =>
      if negb (str_empty v) then (value m +:+ sep_text (sep m)) +:+ v
      else c_str (value m)
  end.

(** The [switch] written out inside [LaunchAndInjectIntoProcess] (lines
    1042-1072), on the same [value] reference. *)
Definition InlineEnvMod (m : EnvironmentModification) (v : string) : string :=
  match emod m with
  | EnvMod_Set => c_str (value m)
  | EnvMod_Append =>
      (if negb (str_empty v) then v +:+ sep_text (sep m) else v) +:+ c_str (value m)
  | EnvMod_Prepend =>
      if negb (str_empty v) then v +:+ sep_text (sep m)
      else c_str (value m)
  end.

(** [std::map<rdcstr, rdcstr>]: unique keys, iterated in key order. *)
Definition EnvMap := list (string * string).

Fixpoint env_find (k : string) (env : EnvMap) : option string :=
  match env with
  | [] => None
  | (k', v) :: r => if String.eqb k k' then Some v else env_find k r
  end.

Fixpoint env_set (k v : string) (env : EnvMap) : EnvMap :=
  match env with
  | [] => [(k, v)]
  | (k', v') :: r =>
      match String.compare k k' with
      | Lt => (k, v) :: env
      | Eq => (k, v) :: r
      | Gt => (k', v') :: env_set k v r
      end
  end.

Fixpoint env_erase (k : string) (env : EnvMap) : EnvMap :=
  match env with
  | [] => []
  | (k', v') :: r => if String.eqb k k' then r else (k', v') :: env_erase k r
  end.

(** [env[k]] read as a value: an absent key reads as the empty string. *)
Definition env_index (env : EnvMap) (k : string) : string :=
  match env_find k env with Some v => v | None => "" end.

(** [f(env[k])] for an [f] that updates the reference in place. *)
Definition env_modify (f : string -> string) (k : string) (env : EnvMap) : EnvMap :=
  env_set k (f (env_index env k)) env.

(** [strchr( *e, '=')]: the text before and after the first [=]. *)
Fixpoint split_equals (e : string) : option (string * string) :=
  match e with
  | EmptyString => None
  | String ch r =>
      if Ascii.eqb ch "="%char then Some ("", r)
      else match split_equals r with
           | Some (n, v) => Some (String ch n, v)
           | None => None
           end
  end.

Fixpoint EnvStringToEnvMap_from (envstring : list string) (ret : EnvMap) : EnvMap :=
  match envstring with
  | [] => ret
  | e :: r =>
      match split_equals (c_str e) with
      | None => EnvStringToEnvMap_from r ret
      | Some (n, v) => EnvStringToEnvMap_from r (env_set n v ret)
      end
  end.

Definition EnvStringToEnvMap (envstring : list string) : EnvMap :=
  EnvStringToEnvMap_from envstring [].

(** The loop of [GetHookedEnvp] without the two renamed-key fix-ups:
    [ApplySingleEnvMod(mod, envmap[mod.name.c_str()])] for each entry. *)
Definition apply_in_place (env : EnvMap) (m : EnvironmentModification) : EnvMap :=
  env_modify (ApplySingleEnvMod m) (c_str (name m)) env.

(** The loop of [LaunchAndInjectIntoProcess] over [modifications]. *)
Definition inline_in_place (env : EnvMap) (m : EnvironmentModification) : EnvMap :=
  env_modify (InlineEnvMod m) (c_str (name m)) env.

Definition apply_all (env : EnvMap) (ms : list EnvironmentModification) : EnvMap :=
  fold_left apply_in_place ms env.

Definition inline_all (env : EnvMap) (ms : list EnvironmentModification) : EnvMap :=
  fold_left inline_in_place ms env.

(** The flattening loop: one [name=value] line per entry, in map order. *)
Definition env_lines (env : EnvMap) : list string :=
  map (fun kv => fst kv +:+ "=" +:+ snd kv) env.


(** Map order: the keys grow strictly from each entry to the next. *)
Fixpoint keys_sorted (env : EnvMap) : bool :=
  match env with
  | [] => true
  | kv :: r =>
      match r with
      | [] => true
      | kv' :: _ => match String.compare kv.1 kv'.1 with Lt => true | _ => false end
      end && keys_sorted r
  end.

(** An entry read from a C string: no [=] and no NUL in the name, no NUL
    in the value. *)
Definition entry_ok (kv : string * string) : bool :=
  negb (has_char "="%char kv.1) && negb (has_char nul kv.1) && negb (has_char nul kv.2).

Definition env_wf (env : EnvMap) : bool := keys_sorted env && forallb entry_ok env.

(** Every key of the first map is below every key of the second. *)
Definition keys_below (acc env : EnvMap) : Prop :=
  ∀ kv kv', In kv acc → In kv' env → String.compare kv.1 kv'.1 = Lt.

(** The flattening loop of [GetUnhookedEnvp] and [GetHookedEnvp]: name,
    [=], value and a NUL for each entry, and one more NUL at the end. *)
Fixpoint flatten_env (env : EnvMap) : string :=
  match env with
  | [] => String nul ""
  | kv :: r => kv.1 +:+ "=" +:+ kv.2 +:+ String nul (flatten_env r)
  end.

(** [while( *c ) { modifiedEnv.push_back(c); c += strlen(c) + 1; }] over the
    bytes of [envpStr].  [line] is the C string that began at the pointer
    pushed last and has not met its NUL yet.  The bytes are followed by the
    terminator of the buffer: with no C string open it ends the loop; with
    one open it ends that string and the pointer then steps outside the
    buffer, which has no defined result. *)
Fixpoint split_envp (buf : string) (line : option string) : option (list string) :=
  match buf with
  | EmptyString =>
      match line with
      | None => Some []
      | Some _ => None
      end
  | String ch r =>
      match line with
      | None =>
          if Ascii.eqb ch nul then Some [] else split_envp r (Some (String ch ""))
      | Some l =>
          if Ascii.eqb ch nul then rest ← split_envp r None; Some (l :: rest)
          else split_envp r (Some (push_back l ch))
      end
  end.

(** [GetUnhookedEnvp]: the strings [modifiedEnv] points to, without the
    closing [NULL].  [layer_var] is the text of the macro
    [RENDERDOC_VULKAN_LAYER_VAR], which is defined outside this file. *)
Definition GetUnhookedEnvp (layer_var : string) (envp : list string)
  : option (list string) :=
  let envmap := EnvStringToEnvMap envp in
  let envmap := env_erase (c_str layer_var) envmap in
  split_envp (flatten_env envmap) None.

(** [setenv(name, value, true)] on the variables of the process: an empty
    name or a name with [=] is refused. *)
Definition setenv (n v : string) (penv : EnvMap) : EnvMap :=
  if str_empty n || has_char "="%char n then penv else env_set n v penv.

(** [unsetenv(name)]. *)
Definition unsetenv (n : string) (penv : EnvMap) : EnvMap :=
  if str_empty n || has_char "="%char n then penv else env_erase n penv.

(** [m[k]] on a [std::map] adds the key with an empty value when it is
    absent. *)
Definition env_touch (k : string) (env : EnvMap) : EnvMap :=
  match env_find k env with Some _ => env | None => env_set k "" env end.

(** One turn of the loop of [ApplyEnvironmentModifications]: the value is
    copied out of the map made before the loop, changed, and written to the
    process with [setenv]; the map gets the key, never the new value. *)
Definition apply_to_process (st : EnvMap * EnvMap) (m : EnvironmentModification)
  : EnvMap * EnvMap :=
  let '(currentEnv, penv) := st in
  let value := env_index currentEnv (c_str (name m)) in
  let currentEnv := env_touch (c_str (name m)) currentEnv in
  let value := ApplySingleEnvMod m value in
  (currentEnv, setenv (c_str (name m)) (c_str value) penv).

(** What one modification hands to [setenv], given the map made before
    the loop. *)
Definition setenv_of (snapshot : EnvMap) (penv : EnvMap) (m : EnvironmentModification)
  : EnvMap :=
  setenv (c_str (name m))
         (c_str (ApplySingleEnvMod m (env_index snapshot (c_str (name m))))) penv.

(** [ApplyEnvironmentModifications]: [currentEnvironment] is what
    [GetCurrentEnvironment()] answers, [penv] the variables of the process
    that [setenv] writes. *)
Definition ApplyEnvironmentModifications (currentEnvironment : list string)
           (modifications : list EnvironmentModification) (penv : EnvMap) : EnvMap :=
  let currentEnv := EnvStringToEnvMap currentEnvironment in
  (fold_left apply_to_process modifications (currentEnv, penv)).2.

(** [Process::RegisterEnvironmentModification] and
    [Process::ApplyEnvironmentModification] on the registered list and the
    variables of the process. *)
Definition RegisterEnvironmentModification
           (st : list EnvironmentModification * EnvMap) (modif : EnvironmentModification)
  : list EnvironmentModification * EnvMap :=
  (st.1 ++ [modif], st.2).

Definition ApplyEnvironmentModification (currentEnvironment : list string)
           (st : list EnvironmentModification * EnvMap)
  : list EnvironmentModification * EnvMap :=
  let modifications := st.1 in
  let penv := ApplyEnvironmentModifications currentEnvironment modifications st.2 in
  ([], penv).

End EnvEngine.


(** ** PID lists: an intrusive singly linked list in a shared store *)

Module PidList.

(** A [PIDNode *] is [None] for [NULL] and otherwise the address of a node;
    the store holds the nodes that are allocated.  Reading through [NULL] or
    through an address that is not allocated has no defined result, which
    the operations report as [None]. *)
Definition addr := positive.

Record PIDNode := mkNode {
  next : option addr;
  pid : Z
}.

Record PIDList := mkList { head : option addr }.

Definition set_next (nd : PIDNode) (nx : option addr) : PIDNode :=
  {| next := nx; pid := pid nd |}.

Definition set_pid (nd : PIDNode) (p : Z) : PIDNode :=
  {| next := next nd; pid := p |}.

(** [p->next = nx]. *)
Definition write_next (h : gmap addr PIDNode) (p : addr) (nx : option addr)
  : option (gmap addr PIDNode) :=
  nd ← h !! p; Some (<[p := set_next nd nx]> h).

(** [p->pid = v]. *)
Definition write_pid (h : gmap addr PIDNode) (p : addr) (v : Z)
  : option (gmap addr PIDNode) :=
  nd ← h !! p; Some (<[p := set_pid nd v]> h).

(** [while(tail->next) tail = tail->next;] — on a chain that closes on itself
    the loop never ends; the walk gives up after [fuel] nodes. *)
Fixpoint find_tail (fuel : nat) (h : gmap addr PIDNode) (tail : addr) : option addr :=
  match fuel with
  | O => None
  | S f =>
      nd ← h !! tail;
      match next nd with
      | None => Some tail
      | Some nx => find_tail f h nx
      end
  end.

(** A walk over a chain without repetition visits each allocated node at
    most once, so one step per allocated node and one more is enough. *)
Definition walk_fuel (h : gmap addr PIDNode) : nat := S (size h).

Definition append (h : gmap addr PIDNode) (l : PIDList) (node : option addr)
  : option (gmap addr PIDNode * PIDList) :=
  match node with
  | None => Some (h, l)
  | Some n =>
      match head l with
      | None => Some (h, {| head := Some n |})
      | Some hd =>
          tail ← find_tail (walk_fuel h) h hd;
          h' ← write_next h tail (Some n);
          Some (h', l)
      end
  end.

(** The [for] loop of [remove]: [prev] and [cur] walk the list.  When [cur]
    runs off the end the node was not found, an error is logged and the list
    is left as it was. *)
Fixpoint remove_loop (fuel : nat) (h : gmap addr PIDNode) (prev : addr)
         (cur : option addr) (node : addr) : option (gmap addr PIDNode) :=
  match cur with
  | None => Some h
  | Some c =>
      if decide (c = node) then
        cn ← h !! c;
        h1 ← write_next h prev (next cn);
        write_next h1 node None
      else
        match fuel with
        | O => None
        | S f => cn ← h !! c; remove_loop f h c (next cn) node
        end
  end.

Definition remove (h : gmap addr PIDNode) (l : PIDList) (node : option addr)
  : option (gmap addr PIDNode * PIDList) :=
  match node with
  | None => Some (h, l)
  | Some n =>
      if decide (head l = Some n) then
        nd ← h !! n;
        h' ← write_next h n None;
        Some (h', {| head := next nd |})
      else
        hd ← head l;
        hn ← h !! hd;
        h' ← remove_loop (walk_fuel h) h hd (next hn) n;
        Some (h', l)
  end.

Definition pop_front (h : gmap addr PIDNode) (l : PIDList)
  : option (gmap addr PIDNode * PIDList * addr) :=
  ret ← head l;
  nd ← h !! ret;
  h' ← write_next h ret None;
  Some (h', {| head := next nd |}, ret).

(** The nodes reachable from a pointer, in order; [None] when the walk
    meets an address that is not allocated or does not end within [fuel]. *)
Fixpoint chain (fuel : nat) (h : gmap addr PIDNode) (p : option addr)
  : option (list addr) :=
  match p with
  | None => Some []
  | Some a =>
      match fuel with
      | O => None
      | S f => nd ← h !! a; r ← chain f h (next nd); Some (a :: r)
      end
  end.

Definition nodes (h : gmap addr PIDNode) (l : PIDList) : option (list addr) :=
  chain (walk_fuel h) h (head l).

(** [is_seg h p xs q]: following [next] from [p] passes through exactly the
    nodes [xs], in that order, and arrives at [q]. *)
Fixpoint is_seg (h : gmap addr PIDNode) (p : option addr) (xs : list addr)
         (q : option addr) : Prop :=
  match xs with
  | [] => p = q
  | a :: r => p = Some a ∧ ∃ nd, h !! a = Some nd ∧ is_seg h (next nd) r q
  end.

(** [is_list h p xs]: the chain that starts at [p] is exactly [xs] and ends
    in [NULL]. *)
Definition is_list (h : gmap addr PIDNode) (p : option addr) (xs : list addr) : Prop :=
  is_seg h p xs None.

(** A sequence of list operations, as the unit test drives them: [OpAppend]
    and [OpRemove] name a node, [OpPopFront] takes the head. *)
Inductive op := OpAppend (n : addr) | OpRemove (n : addr) | OpPopFront.

Definition run_op (hl : gmap addr PIDNode * PIDList) (o : op)
  : option (gmap addr PIDNode * PIDList) :=
  match o with
  | OpAppend n => append hl.1 hl.2 (Some n)
  | OpRemove n => remove hl.1 hl.2 (Some n)
  | OpPopFront => r ← pop_front hl.1 hl.2; Some (r.1.1, r.1.2)
  end.

(** Runs [ops] from left to right; [None] when an operation has no defined
    result. *)
Fixpoint run_ops (hl : gmap addr PIDNode * PIDList) (ops : list op)
  : option (gmap addr PIDNode * PIDList) :=
  match ops with
  | [] => Some hl
  | o :: r => hl' ← run_op hl o; run_ops hl' r
  end.





(** The list operations write [next] members only: the pid stored at each
    address, and with it the set of allocated addresses, stays. *)
Definition same_pids (h h' : gmap addr PIDNode) : Prop :=
  ∀ a, pid <$> h' !! a = pid <$> h !! a.

(** The pid stored at an address. *)
Definition pid_at (h : gmap addr PIDNode) (a : addr) : Z :=
  match h !! a with Some nd => pid nd | None => 0%Z end.

(** The pointer to the first node of a chain. *)
Definition ptr_of (xs : list addr) : option addr :=
  match xs with [] => None | a :: _ => Some a end.

(** Three nodes as the unit test makes them. *)
Definition test_store : gmap addr PIDNode :=
  <[1%positive := mkNode None 500]>
    (<[2%positive := mkNode None 501]> (<[3%positive := mkNode None 502]> ∅)).

(** The pids stored on a list, in list order. *)
Definition pids (h : gmap addr PIDNode) (l : PIDList) : option (list Z) :=
  xs ← nodes h l; Some (map (pid_at h) xs).

(** The two lists of the unit test before the second is appended to the
    first: a, c, b at the addresses 1, 3, 2 and d, e, f at 4, 5, 6. *)
Definition two_lists_store : gmap addr PIDNode :=
  <[1%positive := mkNode (Some 3%positive) 500]>
    (<[3%positive := mkNode (Some 2%positive) 902]>
       (<[2%positive := mkNode None 901]>
          (<[4%positive := mkNode (Some 5%positive) 900]>
             (<[5%positive := mkNode (Some 6%positive) 0]>
                (<[6%positive := mkNode None 0]> ∅))))).

End PidList.

(** ** ZombieReaper: the tracked list, the free list and the handler *)

Module Reaper.
Import PidList.

(** The two process-wide lists and the store their nodes live in.
    [zombieLock] guards every access below that is marked as locked. *)
Record zstate := mkZ {
  zheap : gmap addr PIDNode;
  children : PIDList;
  freeChildren : PIDList
}.

Definition zinit : zstate :=
  {| zheap := ∅; children := {| head := None |}; freeChildren := {| head := None |} |}.

(** [new PIDNode()]: an address that is not allocated, holding a node with
    its default members. *)
Definition new_PIDNode (h : gmap addr PIDNode) : gmap addr PIDNode * addr :=
  let a := fresh (dom h) in (<[a := {| next := None; pid := 0 |}]> h, a).

(** The locked block of [RunProcess] that remembers a child (lines 749-761):
    a node comes from the free list when that list has a head, and from the
    allocator otherwise; it receives the pid and goes to the end of
    [children]. *)
Definition RegisterChild (z : zstate) (childPid : Z) : option zstate :=
  '(h1, fr, node) ←
     match head (freeChildren z) with
     | Some _ => pop_front (zheap z) (freeChildren z)
     | None => let '(h, a) := new_PIDNode (zheap z) in Some (h, freeChildren z, a)
     end;
  h2 ← write_pid h1 node childPid;
  '(h3, ch) ← append h2 (children z) (Some node);
  Some {| zheap := h3; children := ch; freeChildren := fr |}.

(** First locked block of [ZombieWaiter]:
    [std::swap(localChildren.head, children.head)] with an empty local list. *)
Definition detach (z : zstate) : zstate * PIDList :=
  ({| zheap := zheap z; children := {| head := None |};
      freeChildren := freeChildren z |},
   {| head := head (children z) |}).

(** The unlocked [for] loop of [ZombieWaiter].  [exited p] stands for
    [waitpid(p, NULL, WNOHANG) > 0]. *)
Fixpoint wait_loop (fuel : nat) (exited : Z → bool) (h : gmap addr PIDNode)
         (localChildren waitedChildren : PIDList) (cur : option addr)
  : option (gmap addr PIDNode * PIDList * PIDList) :=
  match cur with
  | None => Some (h, localChildren, waitedChildren)
  | Some p =>
      match fuel with
      | O => None
      | S f =>
          nd ← h !! p;
          let cur' := next nd in
          if exited (pid nd) then
            '(h1, lc) ← remove h localChildren (Some p);
            '(h2, wc) ← append h1 waitedChildren (Some p);
            wait_loop f exited h2 lc wc cur'
          else wait_loop f exited h localChildren waitedChildren cur'
      end
  end.

Definition wait_children (exited : Z → bool) (z : zstate) (localChildren : PIDList)
  : option (zstate * PIDList * PIDList) :=
  '(h, lc, wc) ← wait_loop (walk_fuel (zheap z)) exited (zheap z)
                           localChildren {| head := None |} (head localChildren);
  Some ({| zheap := h; children := children z; freeChildren := freeChildren z |},
        lc, wc).

(** Second locked block: [children.append(localChildren.head)] then
    [freeChildren.append(waitedChildren.head)]. *)
Definition reattach (z : zstate) (localChildren waitedChildren : PIDList)
  : option zstate :=
  '(h1, ch) ← append (zheap z) (children z) (head localChildren);
  '(h2, fr) ← append h1 (freeChildren z) (head waitedChildren);
  Some {| zheap := h2; children := ch; freeChildren := fr |}.

(** [ZombieWaiter] run without anything in between its blocks.  The call of
    the previously installed handler comes first in the source; that
    handler is foreign code and does not touch the two lists. *)
Definition ZombieWaiter (exited : Z → bool) (z : zstate) : option zstate :=
  let '(z1, lc) := detach z in
  '(z2, lc', wc) ← wait_children exited z1 lc;
  reattach z2 lc' wc.

(** *** The handler interleaved with registrations

    The handler holds the lock only inside its two blocks, so a
    registration on another thread can run before the first block, between
    the blocks and the loop, or after the second block.  [hphase] records
    where a running handler is and which lists it holds. *)
Inductive hphase :=
| Idle
| Detached (localChildren : PIDList)
| Waited (localChildren waitedChildren : PIDList).

Record sys := mkSys { zs : zstate; hp : hphase }.

Inductive action :=
| ActRegister (childPid : Z)
| ActDetach
| ActWait (exited : Z → bool)
| ActReattach.

(** One atomic step.  [None]: the action is not the handler's next block, or
    the code has no defined result. *)
Definition sys_step (s : sys) (a : action) : option sys :=
  match a, hp s with
  | ActRegister p, ph => z ← RegisterChild (zs s) p; Some {| zs := z; hp := ph |}
  | ActDetach, Idle =>
      let '(z, lc) := detach (zs s) in Some {| zs := z; hp := Detached lc |}
  | ActWait exited, Detached lc =>
      '(z, lc', wc) ← wait_children exited (zs s) lc;
      Some {| zs := z; hp := Waited lc' wc |}
  | ActReattach, Waited lc wc =>
      z ← reattach (zs s) lc wc; Some {| zs := z; hp := Idle |}
  | _, _ => None
  end.

Fixpoint sys_run (s : sys) (acts : list action) : option sys :=
  match acts with
  | [] => Some s
  | a :: r => s' ← sys_step s a; sys_run s' r
  end.

Definition sys_init : sys := {| zs := zinit; hp := Idle |}.

(** The lists a running handler holds, none when it is idle. *)
Definition held (ph : hphase) : PIDList * PIDList :=
  match ph with
  | Idle => ({| head := None |}, {| head := None |})
  | Detached lc => (lc, {| head := None |})
  | Waited lc wc => (lc, wc)
  end.

(** The invariant of the interleaved system: the tracked list, the free
    list and the lists a running handler holds are chains that end, no node
    is on two of them, and together they hold every allocated node. *)
Definition sys_inv (s : sys) : Prop :=
  ∃ tr fr lo wa,
    is_list (zheap (zs s)) (head (children (zs s))) tr ∧
    is_list (zheap (zs s)) (head (freeChildren (zs s))) fr ∧
    is_list (zheap (zs s)) (head (held (hp s)).1) lo ∧
    is_list (zheap (zs s)) (head (held (hp s)).2) wa ∧
    (∀ a, a ∈ tr → (a ∉ fr) ∧ (a ∉ lo) ∧ (a ∉ wa)) ∧
    (∀ a, a ∈ fr → (a ∉ lo) ∧ (a ∉ wa)) ∧
    (∀ a, a ∈ lo → a ∉ wa) ∧
    (∀ a, a ∈ dom (zheap (zs s)) ↔ a ∈ tr ∨ a ∈ fr ∨ a ∈ lo ∨ a ∈ wa).


(** The node a registration uses: the head of the free list, or a new
    address when the free list is empty. *)
Definition node_for (h : gmap addr PIDNode) (fr : list addr) : addr :=
  match fr with [] => fresh (dom h) | a :: _ => a end.

(** A run with a handler that is interrupted by a registration, and the
    state it ends in. *)
Definition demo_actions : list action :=
  [ActRegister 5; ActRegister 6; ActDetach; ActRegister 7;
   ActWait (fun p => Z.eqb p 5); ActReattach; ActRegister 9].

Definition demo_final : sys :=
  {| zs := {| zheap := <[1%positive := mkNode None 9]>
                         (<[2%positive := mkNode (Some 1%positive) 6]>
                            (<[3%positive := mkNode (Some 2%positive) 7]> ∅));
              children := {| head := Some 3%positive |};
              freeChildren := {| head := None |} |};
     hp := Idle |}.

(** [Process::Shutdown]: every node of the free list is deleted, each
    after its [next] has been read.  Neither head pointer is written. *)
Fixpoint delete_chain (fuel : nat) (h : gmap addr PIDNode) (cur : option addr)
  : option (gmap addr PIDNode) :=
  match cur with
  | None => Some h
  | Some p =>
      match fuel with
      | O => None
      | S f => nd ← h !! p; delete_chain f (delete p h) (next nd)
      end
  end.

Definition Shutdown (z : zstate) : option zstate :=
  h ← delete_chain (walk_fuel (zheap z)) (zheap z) (head (freeChildren z));
  Some {| zheap := h; children := children z; freeChildren := freeChildren z |}.

(** The number of registrations in a run. *)
Fixpoint registrations (acts : list action) : nat :=
  match acts with
  | [] => O
  | ActRegister _ :: r => S (registrations r)
  | _ :: r => registrations r
  end.

(** Two children registered, the handler run once with the first child
    exited: the tracked list holds the second node, the free list the
    first. *)
Definition one_reaped : list action :=
  [ActRegister 5; ActRegister 6; ActDetach; ActWait (fun p => Z.eqb p 5); ActReattach].

Definition one_reaped_final : sys :=
  {| zs := {| zheap := <[1%positive := mkNode None 5]>
                         (<[2%positive := mkNode None 6]> ∅);
              children := {| head := Some 2%positive |};
              freeChildren := {| head := Some 1%positive |} |};
     hp := Idle |}.



End Reaper.

(** ** ProcessLauncher and InjectionCoordinator *)

Module Launcher.
Import Tokenizer EnvEngine PidList Reaper.

Definition nl : string := String "010"%char "".

(** *** What the process does to the outside, in order *)

Inductive parg := PStr (s : string) | PInt (n : Z).

Inductive event :=
| EvPrintf (fmt : string) (args : list parg)
| EvStderr (text : string)
| EvLog (fmt : string) (args : list parg)
| EvChdir (dir : string)
| EvExecve (path : string) (argv envp : list string)
| EvFork (ret : Z)
| EvSigaction
| EvStopAtMainInChild
| EvStopChildAtMain (childPid : Z)
| EvReleaseFDAfterFork
| EvDup2 (oldfd newfd : Z)
| EvClose (fd : Z)
| EvGetIdentPort (childPid : Z)
| EvResumeProcess (childPid : Z) (delay : Z)
| EvWaitpid (childPid : Z).

(** *** What the code asks of the platform and of the rest of RenderDoc

    Functions this file calls and does not define, and the answers of the
    operating system to the calls it makes. *)
Record Platform := mkPlatform {
  trimmed : string → string;                (* rdcstr::trimmed *)
  get_dirname : string → string;
  get_basename : string → string;
  getcwd : string;
  getenv : string → option string;
  getpwnam : string → option string;        (* pw_dir of the user, if any *)
  realpath : string → string;
  FindFileInPath : string → string;
  execve_succeeds : string → list string → list string → bool;
  fork_result : Z;
  GetCurrentEnvironment : list string;
  GetExecutableFilename : string;
  GetLibraryFilename : string;
  GetEnvVariable : string → string;
  RDCGETLOGFILE : string;
  GetIdentPort : Z → Z
}.

Record CaptureOptions := mkOpts {
  EncodeAsString : string;
  delayForDebugger : Z
}.



Definition PRELOAD_ENV_VAR : string := "LD_PRELOAD".
Definition LIB_PATH_ENV_VAR : string := "LD_LIBRARY_PATH".
Definition LIB_SUFFIX : string := ".so".
Definition STDOUT_FILENO : Z := 1.
Definition STDERR_FILENO : Z := 2.

(** *** Process state and the statement monad *)

Record world := mkWorld {
  trace : list event;                       (* oldest first *)
  zombies : zstate;                         (* children, freeChildren *)
  installed : bool;                         (* SetupZombieCollectionHandler *)
  envCallbacks : list EnvironmentModification  (* GetEnvModifications() *)
}.

(** How a statement ends: control goes on with a value, the function
    returns, the process image is replaced by a successful [execve], the
    process ends in [_exit], or the behaviour is not defined. *)
Inductive outcome (R A : Type) :=
| Next (a : A)
| Return (r : R)
| Replaced
| Exited (status : Z)
| Undefined.
Arguments Next {R A} a.
Arguments Return {R A} r.
Arguments Replaced {R A}.
Arguments Exited {R A} status.
Arguments Undefined {R A}.

Definition M (R A : Type) : Type := world → world * outcome R A.

Definition pure {R A} (a : A) : M R A := fun w => (w, Next a).
Definition ret {R A} (r : R) : M R A := fun w => (w, Return r).
Definition undefined {R A} : M R A := fun w => (w, Undefined).
Definition _exit {R A} (status : Z) : M R A := fun w => (w, Exited status).

Definition bind {R A B} (m : M R A) (k : A → M R B) : M R B :=
  fun w =>
    match m w with
    | (w', Next a) => k a w'
    | (w', Return r) => (w', Return r)
    | (w', Replaced) => (w', Replaced)
    | (w', Exited s) => (w', Exited s)
    | (w', Undefined) => (w', Undefined)
    end.

(** A call: the callee's [return] is the value of the call expression. *)
Definition call {R R'} (m : M R' R') : M R R' :=
  fun w =>
    match m w with
    | (w', Return r) => (w', Next r)
    | (w', Next _) => (w', Undefined)
    | (w', Replaced) => (w', Replaced)
    | (w', Exited s) => (w', Exited s)
    | (w', Undefined) => (w', Undefined)
    end.

Declare Scope stmt_scope.
Delimit Scope stmt_scope with stmt.
Notation "x <- m ;; k" := (bind m (fun x => k))
  (at level 20, m at level 99, k at level 200, only parsing) : stmt_scope.
Notation "m ;; k" := (bind m (fun _ => k))
  (at level 100, k at level 200, right associativity, only parsing) : stmt_scope.

Definition log_events (w : world) (evs : list event) : world :=
  {| trace := trace w ++ evs; zombies := zombies w;
     installed := installed w; envCallbacks := envCallbacks w |}.

Definition emit {R} (e : event) : M R unit :=
  fun w => (log_events w [e], Next tt).

Definition when {R} (b : bool) (m : M R unit) : M R unit :=
  if b then m else pure tt.

Fixpoint for_each {R A} (l : list A) (body : A → M R unit) : M R unit :=
  match l with
  | [] => pure tt
  | x :: r => bind (body x) (fun _ => for_each r body)
  end.

Definition printf {R} (fmt : string) (args : list parg) : M R unit :=
  emit (EvPrintf fmt args).

Definition chdir {R} (dir : string) : M R unit := emit (EvChdir dir).
Definition close {R} (fd : Z) : M R unit := emit (EvClose fd).
Definition dup2 {R} (oldfd newfd : Z) : M R unit := emit (EvDup2 oldfd newfd).

(** Index pairs for the [argvList %ld>> = %s] loop. *)
Fixpoint indexed {A} (i : Z) (l : list A) : list (Z * A) :=
  match l with
  | [] => []
  | x :: r => (i, x) :: indexed (i + 1) r
  end.

(** [s[i]], with the terminator at [i = size]. *)
Definition str_at (s : string) (i : nat) : ascii :=
  match String.get i s with Some ch => ch | None => nul end.

Fixpoint str_drop (n : nat) (s : string) : string :=
  match n, s with
  | O, _ => s
  | S k, EmptyString => EmptyString
  | S k, String _ r => str_drop k r
  end.

(** [s.find(ch)]: the first index of [ch], or -1. *)
Fixpoint str_find (ch : ascii) (s : string) : Z :=
  match s with
  | EmptyString => (-1)%Z
  | String x r =>
      if Ascii.eqb x ch then 0%Z
      else let i := str_find ch r in if (i <? 0)%Z then (-1)%Z else (i + 1)%Z
  end.

(** The buffers [RunProcess] fills with constants (lines 595-698). *)
Definition hard_workdir : string := "/home/nvidia/workspace/wqg/QingLong/".
Definition hmi : string := "hmi".
Definition argv_buf : list string :=
  ["hmi"; "config/hmi/hmi_config.json"; "--work-mode=1"].

Definition env_buf : list string :=
  ["CLUTTER_IM_MODULE=xim";
   "CMAKE_PREFIX_PATH=/opt/ros/melodic";
   "COLORTERM=truecolor";
   "COLUMNS=204";
   "DBUS_SESSION_BUS_ADDRESS=unix:path=/run/user/1000/bus ";
   "DESKTOP_SESSION=unity";
   "DISPLAY=:0";
   "GDMSESSION=unity";
   "GNOME_DESKTOP_SESSION_ID=this-is-deprecated";
   "GNOME_TERMINAL_SCREEN=/org/gnome/Terminal/screen/366cdcf6_13b0_43e7_a641_ff9989aa218a";
   "GNOME_TERMINAL_SERVICE=:1.90";
   "GPG_AGENT_INFO=/run/user/1000/gnupg/S.gpg-agent:0:1";
   "GTK_CSD=0";
   "GTK_IM_MODULE=ibus";
   "GTK_MODULES=gail:atk-bridge";
   "HOME=/home/nvidia";
   "IM_CONFIG_PHASE=2";
   "INVOCATION_ID=219f44c38dce4ef7a643ea3e276b8273";
   "JOURNAL_STREAM=8:43582";
   "LANG=en_US.UTF-8";
   "LC_ADDRESS=zh_CN.UTF-8";
   "LC_IDENTIFICATION=zh_CN.UTF-8";
   "LC_MEASUREMENT=zh_CN.UTF-8";
   "LC_MONETARY=zh_CN.UTF-8";
   "LC_NAME=zh_CN.UTF-8";
   "LC_NUMERIC=zh_CN.UTF-8";
   "LC_PAPER=zh_CN.UTF-8";
   "LC_TELEPHONE=zh_CN.UTF-8";
   "LC_TIME=zh_CN.UTF-8";
   "LD_LIBRARY_PATH=/home/nvidia/workspace/wqg/QingLong:/opt/ros/melodic/lib:/usr/local/cuda-10.0/lib64:/opt/miivii/lib:/usr/lib/aarch64-linux-gnu/tegra:./:/opt/ros/melodic/lib:/usr/local/cuda-10.0/lib64:/opt/miivii/lib:/usr/lib/aarch64-linux-gnu/tegra:/opt/ros/melodic/lib:/usr/local/cuda-10.0/lib64:/opt/miivii/lib::/home/nvidia/workspace/wqg/renderdoc/build/bin:/home/nvidia/workspace/wqg/renderdoc/build/bin/../lib:/home/nvidia/workspace/wqg/renderdoc/build/lib";
   "LD_PRELOAD=libgtk3-nocsd.so.0:librenderdoc.so";
   "LESSCLOSE=/usr/bin/lesspipe %s %s ";
   "LESSOPEN=| /usr/bin/lesspipe %s";
   "LINES=46";
   "LOGNAME=nvidia";
   "LS_COLORS=rs=0:di=01;34:ln=01;36:mh=00:pi=40;33:so=01;35:do=01;35:bd=40;33;01:cd=40;33;01:or=40;31;01:mi=00:su=37;41:sg=30;43:ca=30;41:tw=30;42:ow=34;42:st=37;44:ex=01;32:*.tar=01;31:*.tgz=01;31:*.arc=01;31:*.arj=01;31:*.taz=01;31:*.lha=01;31:*.lz4=01;31:*.lzh=01;31:*.lzma=01;31:*.tlz=01;31:*.txz=01;31:*.tzo=01;31:*.t7z=01;31:*.zip=01;31:*.z=01;31:*.Z=01;31:*.dz=01;31:*.gz=01;31:*.lrz=01;31:*.lz=01;31:*.lzo=01;31:*.xz=01;31:*.zst=01;31:*.tzst=01;31:*.bz2=01;31:*.bz=01;31:*.tbz=01;31:*.tbz2=01;31:*.tz=01;31:*.deb=01;31:*.rpm=01;31:*.jar=01;31:*.war=01;31:*.ear=01;31:*.sar=01;31:*.rar=01;31:*.alz=01;31:*.ace=01;31:*.zoo=01;31:*.cpio=01;31:*.7z=01;31:*.rz=01;31:*.cab=01;31:*.wim=01;31:*.swm=01;31:*.dwm=01;31:*.esd=01;31:*.jpg=01;35:*.jpeg=01;35:*.mjpg=01;35:*.mjpeg=01;35:*.gif=01;35:*.bmp=01;35:*.pbm=01;35:*.pgm=01;35:*.ppm=01;35:*.tga=01;35:*.xbm=01;35:*.xpm=01;35:*.tif=01;35:*.tiff=01;35:*.png=01;35:*.svg=01;35:*.svgz=01;35:*.mng=01;35:*.pcx=01;35:*.mov=01;35:*.mpg=01;35:*.mpeg=01;35:*.m2v=01;35:*.mkv=01;35:*.webm=01;35:*.ogm=01;35:*.mp4=01;35:*.m4v=01;35:*.mp4v=01;35:*.vob=01;35:*.qt=01;35:*.nuv=01;35:*.wmv=01;35:*.asf=01;35:*.rm=01;35:*.rmvb=01;35:*.flc=01;35:*.avi=01;35:*.fli=01;35:*.flv=01;35:*.gl=01;35:*.dl=01;35:*.xcf=01;35:*.xwd=01;35:*.yuv=01;35:*.cgm=01;35:*.emf=01;35:*.ogv=01;35:*.ogx=01;35:*.aac=00;36:*.au=00;36:*.flac=00;36:*.m4a=00;36:*.mid=00;36:*.midi=00;36:*.mka=00;36:*.mp3=00;36:*.mpc=00;36:*.ogg=00;36:*.ra=00;36:*.wav=00;36:*.oga=00;36:*.opus=00;36:*.spx=00;36:*.xspf=00;36:";
   "MANAGERPID=6563";
   "OLDPWD=/home/nvidia";
   "PATH=/opt/ros/melodic/bin:/usr/local/cuda-10.0/bin:/opt/miivii/bin:/usr/sbin:/usr/bin:/usr/local/sbin:/usr/local/bin:/sbin:/bin:/usr/games:/usr/local/games:/snap/bin:/home/nvidia/workspace/wqg/QingLong";
   "PKG_CONFIG_PATH=/opt/ros/melodic/lib/pkgconfig";
   "PWD=/home/nvidia/workspace/wqg/renderdoc/build/bin";
   "PYTHONPATH=/opt/ros/melodic/lib/python2.7/dist-packages:/usr/local/python:";
   "QT4_IM_MODULE=xim";
   "QT_ACCESSIBILITY=1";
   "QT_IM_MODULE=ibus";
   "RENDERDOC_CAPFILE= ";
   "RENDERDOC_CAPOPTS=ababaaaaaaaaaaaaaaaaaaaaaaaaaaaaabohpppp";
   "RENDERDOC_DEBUG_LOG_FILE=/tmp/RenderDoc/RenderDoc_2022.12.05_15.04.29.log";
   "RENDERDOC_ORIGLIBPATH=/home/nvidia/workspace/wqg/QingLong:/opt/ros/melodic/lib:/usr/local/cuda-10.0/lib64:/opt/miivii/lib:/usr/lib/aarch64-linux-gnu/tegra:./:/opt/ros/melodic/lib:/usr/local/cuda-10.0/lib64:/opt/miivii/lib:/usr/lib/aarch64-linux-gnu/tegra:/opt/ros/melodic/lib:/usr/local/cuda-10.0/lib64:/opt/miivii/lib:";
   "RENDERDOC_ORIGPRELOAD=libgtk3-nocsd.so.0";
   "ROSLISP_PACKAGE_DIRECTORIES= ";
   "ROS_DISTRO=melodic";
   "ROS_ETC_DIR=/opt/ros/melodic/etc/ros";
   "ROS_MASTER_URI=http://localhost:11311";
   "ROS_PACKAGE_PATH=/opt/ros/melodic/share";
   "ROS_PYTHON_VERSION=2";
   "ROS_ROOT=/opt/ros/melodic/share/ros";
   "ROS_VERSION=1";
   "SHELL=/bin/bash";
   "SHLVL=2";
   "SSH_AGENT_LAUNCHER=gnome-keyring";
   "SSH_AUTH_SOCK=/run/user/1000/keyring/ssh";
   "TERM=xterm-256color";
   "TEXTDOMAIN=im-config";
   "TEXTDOMAINDIR=/usr/share/locale/";
   "USER=nvidia";
   "USERNAME=nvidia";
   "VTE_VERSION=5202";
   "WINDOWPATH=1";
   "XAUTHORITY=/run/user/1000/gdm/Xauthority";
   "XDG_CONFIG_DIRS=/etc/xdg/xdg-unity:/etc/xdg";
   "XDG_CURRENT_DESKTOP=Unity:Unity7:ubuntu";
   "XDG_DATA_DIRS=/usr/share/unity:/home/nvidia/.local/share/flatpak/exports/share/:/var/lib/flatpak/exports/share/:/usr/local/share/:/usr/share/:/var/lib/snapd/desktop";
   "XDG_RUNTIME_DIR=/run/user/1000";
   "XDG_SESSION_DESKTOP=unity";
   "XDG_SESSION_TYPE=x11";
   "XMODIFIERS=@im=ibus";
   "_=/usr/bin/gdb"].

Definition is_printf (e : event) : bool :=
  match e with EvPrintf _ _ => true | _ => false end.

(** The events of the constant launch: output on stdout, the change to the
    constant directory and the [execve] of the constant program. *)
Definition is_redirect_event (e : event) : bool :=
  match e with
  | EvPrintf _ _ => true
  | EvChdir dir => String.eqb dir hard_workdir
  | EvExecve path argv envp =>
      String.eqb path hmi && bool_decide (argv = argv_buf) && bool_decide (envp = env_buf)
  | _ => false
  end.

(** The message for a malformed command line: a backslash with nothing
    after it is met inside the loop, an open quote after it. *)
Definition malformed_format (cmdLine : string) : string :=
  match quote_scan QOut (c_str cmdLine) with
  | None => malformed_in_escape
  | _ => malformed_at_end
  end.

(** The error the tokenizer logs for a malformed command line. *)
Definition is_malformed_log (cmdLine : string) (e : event) : bool :=
  match e with
  | EvLog fmt args =>
      (String.eqb fmt malformed_in_escape || String.eqb fmt malformed_at_end)
      && match args with
         | [PStr text] => String.eqb text (c_str cmdLine)
         | _ => false
         end
  | _ => false
  end.

(** The three last events of a call that gets past the two guards. *)
Definition redirect_tail : list event :=
  [EvChdir hard_workdir;
   EvPrintf ("env_buf cout = %d " +:+ nl +:+ " ") [PInt 78];
   EvExecve hmi argv_buf env_buf].

(** The code below is the Linux build: the [RDOC_APPLE] block of
    [RunProcess] is compiled out. *)
Section WithPlatform.
Variable P : Platform.
Local Open Scope stmt_scope.

Definition shellExpand (input : string) : string :=
  let path := trimmed P input in
  if Ascii.eqb (str_at path 0) "."%char && Ascii.eqb (str_at path 1) "/"%char then
    c_str (getcwd P) +:+ str_drop 1 path
  else if Ascii.eqb (str_at path 0) "~"%char && Ascii.eqb (str_at path 1) "/"%char then
    match getenv P "HOME" with Some home => c_str home | None => "" end
    +:+ str_drop 1 path
  else if Ascii.eqb (str_at path 0) "~"%char then
    let slash := str_find "/"%char path in
    let username :=
      if (0 <=? slash)%Z then String.substring 1 (Z.to_nat (slash - 1)) path
      else str_drop 1 path in
    match getpwnam P (c_str username) with
    | Some pw_dir =>
        if (0 <=? slash)%Z then c_str pw_dir +:+ str_drop (Z.to_nat slash) path
        else c_str pw_dir
    | None => path
    end
  else path.

Definition GetAbsoluteAppPathFromName (appName : string) : string :=
  if (0 <=? str_find "/"%char appName)%Z then
    let appDir := get_dirname P appName in
    let appBasename := get_basename P appName in
    c_str (realpath P (c_str appDir)) +:+ ("/" +:+ appBasename)
  else FindFileInPath P appName.

Definition SetupZombieCollectionHandler {R} : M R unit :=
  fun w =>
    if installed w then (w, Next tt)
    else ({| trace := trace w ++ [EvSigaction]; zombies := zombies w;
             installed := true; envCallbacks := envCallbacks w |}, Next tt).

Definition fork {R} : M R Z :=
  emit (EvFork (fork_result P)) ;; pure (fork_result P).

(** [execve] comes back only when it fails. *)
Definition execve {R} (path : string) (argv envp : list string) : M R Z :=
  emit (EvExecve path argv envp) ;;
  if execve_succeeds P path argv envp then (fun w => (w, Replaced))
  else pure (-1)%Z.

(** The locked block that files the child's pid in [children]. *)
Definition remember_child {R} (childPid : Z) : M R unit :=
  fun w =>
    match RegisterChild (zombies w) childPid with
    | Some z => ({| trace := trace w; zombies := z; installed := installed w;
                    envCallbacks := envCallbacks w |}, Next tt)
    | None => (w, Undefined)
    end.

Definition RunProcess (appName workDir cmdLine : string) (envp : list string)
           (pauseAtMain : bool) (stdoutPipe stderrPipe : option (Z * Z)) : M Z Z :=
  when (str_empty appName) (ret 0%Z) ;;
  let workDir := if str_empty workDir then get_dirname P appName else workDir in
  let appName := shellExpand appName in
  let workDir := shellExpand workDir in
  let argvList := ParseCommandLine appName cmdLine in
  (* the RDCERR calls inside ParseCommandLine *)
  for_each (ParseCommandLine_errors cmdLine)
           (fun fmt => emit (EvLog fmt [PStr (c_str cmdLine)])) ;;
  when (match argvList with [] => true | _ => false end) (ret 0%Z) ;;
  let argv := map c_str argvList in
  let appPath := GetAbsoluteAppPathFromName appName in
  printf ("-----------------BEGIN RUNPROCESS-----------------------" +:+ nl) [] ;;
  let childPid := 0%Z in
  printf ("app path : %s  workdir = %s" +:+ nl) [PStr (c_str appPath); PStr (c_str workDir)] ;;
  for_each (indexed 0 argv)
           (fun ia => printf ("argvList %ld>> = %s " +:+ nl) [PInt ia.1; PStr ia.2]) ;;
  printf ("-----------------BEGIN ENVP-----------------------" +:+ nl) [] ;;
  for_each envp (fun e => printf ("%s " +:+ nl) [PStr (c_str e)]) ;;
  printf ("-----------------BEGIN argv-----------------------" +:+ nl) [] ;;
  for_each (indexed 0 argv)
           (fun ia => printf ("argv[%d] = %s " +:+ nl) [PInt ia.1; PStr ia.2]) ;;
  printf ("-----------------end argv-----------------------" +:+ nl) [] ;;
  chdir hard_workdir ;;
  let idx := Z.of_nat (length env_buf) in
  printf ("env_buf cout = %d " +:+ nl +:+ " ") [PInt idx] ;;
  execve hmi argv_buf env_buf ;;
  ret (A := unit) 0%Z ;;
  (* don't fork if we didn't find anything to execute. *)
  childPid <-
    (if negb (str_empty appPath) then
       SetupZombieCollectionHandler ;;
       childPid <- fork ;;
       if (childPid =? 0)%Z then
         when pauseAtMain (emit EvStopAtMainInChild) ;;
         emit EvReleaseFDAfterFork ;;
         match stdoutPipe with
         | Some so =>
             match stderrPipe with
             | Some se =>
                 dup2 so.2 STDOUT_FILENO ;;
                 dup2 se.2 STDERR_FILENO ;;
                 close so.1 ;; close se.1 ;; close so.2 ;; close se.2
             | None => undefined
             end
         | None => pure tt
         end ;;
         chdir (c_str workDir) ;;
         emit (EvStderr ("exec begin" +:+ nl)) ;;
         execve (c_str appPath) argv envp ;;
         emit (EvStderr ("exec failed" +:+ nl)) ;;
         _exit 1%Z
       else
         when pauseAtMain (emit (EvStopChildAtMain childPid)) ;;
         match stdoutPipe with
         | None => remember_child childPid
         | Some _ => pure tt
         end ;;
         pure childPid
     else pure childPid) ;;
  match stdoutPipe with
  | Some so =>
      match stderrPipe with
      | Some se => close so.2 ;; close se.2
      | None => undefined
      end
  | None => pure tt
  end ;;
  ret childPid.

(** The modifications [GetHookingEnvMods] pushes, in order. *)
Definition GetHookingEnvMods (modifications : list EnvironmentModification)
           (opts : CaptureOptions) (capturefile : string)
  : list EnvironmentModification :=
  let binpath := get_dirname P (GetExecutableFilename P) in
  let libpath := binpath +:+ "/../lib" in
  let ownlibpath := get_dirname P (GetLibraryFilename P) in
  let libfile := "librenderdoc" +:+ LIB_SUFFIX in
  let optstr := EncodeAsString opts in
  modifications ++
  [ mkEnvMod EnvMod_Append EnvSep_Platform "RENDERDOC_ORIGLIBPATH"
             (GetEnvVariable P LIB_PATH_ENV_VAR);
    mkEnvMod EnvMod_Append EnvSep_Platform "RENDERDOC_ORIGPRELOAD"
             (GetEnvVariable P PRELOAD_ENV_VAR);
    mkEnvMod EnvMod_Append EnvSep_Platform LIB_PATH_ENV_VAR binpath;
    mkEnvMod EnvMod_Append EnvSep_Platform LIB_PATH_ENV_VAR libpath;
    mkEnvMod EnvMod_Append EnvSep_Platform LIB_PATH_ENV_VAR ownlibpath;
    mkEnvMod EnvMod_Append EnvSep_Platform PRELOAD_ENV_VAR libfile;
    mkEnvMod EnvMod_Set EnvSep_NoSep "RENDERDOC_CAPFILE" capturefile;
    mkEnvMod EnvMod_Set EnvSep_NoSep "RENDERDOC_CAPOPTS" optstr;
    mkEnvMod EnvMod_Set EnvSep_NoSep "RENDERDOC_DEBUG_LOG_FILE" (RDCGETLOGFILE P) ].





End WithPlatform.

(** A platform to run examples on: paths are taken as written, every
    [execve] fails, [fork] answers pid 4242 and the target never opens its
    port. *)
Definition demo_platform : Platform :=
  {| trimmed := fun s => s;
     get_dirname := fun _ => "/opt/app";
     get_basename := fun s => s;
     getcwd := "/work";
     getenv := fun _ => None;
     getpwnam := fun _ => None;
     realpath := fun s => s;
     FindFileInPath := fun s => "/usr/bin/" +:+ s;
     execve_succeeds := fun _ _ _ => false;
     fork_result := 4242;
     GetCurrentEnvironment := ["PATH=/usr/bin"; "FOO="];
     GetExecutableFilename := "/opt/rdoc/bin/renderdoccmd";
     GetLibraryFilename := "/opt/rdoc/lib/librenderdoc.so";
     GetEnvVariable := fun _ => "";
     RDCGETLOGFILE := "/tmp/rdoc.log";
     GetIdentPort := fun _ => 0%Z |}.


Definition w0 : world :=
  {| trace := []; zombies := zinit; installed := false; envCallbacks := [] |}.

End Launcher.

(** ** The environment of a hooked child *)

Module Hooks.
Import EnvEngine Launcher.

(** [mod.value = v]. *)
Definition set_value (m : EnvironmentModification) (v : string) : EnvironmentModification :=
  {| emod := emod m; sep := sep m; name := name m; value := v |}.

(** The two assignments at the top of the loop of [GetHookedEnvp]: the
    values to remember are read from [envp], not from the environment of
    the caller.  Reading [envmap[...]] adds the key when it is absent. *)
Definition fix_up (envmap : EnvMap) (m : EnvironmentModification)
  : EnvMap * EnvironmentModification :=
  if String.eqb (c_str (name m)) "RENDERDOC_ORIGLIBPATH" then
    (env_touch LIB_PATH_ENV_VAR envmap, set_value m (env_index envmap LIB_PATH_ENV_VAR))
  else if String.eqb (c_str (name m)) "RENDERDOC_ORIGPRELOAD" then
    (env_touch PRELOAD_ENV_VAR envmap, set_value m (env_index envmap PRELOAD_ENV_VAR))
  else (envmap, m).

Definition hooked_step (envmap : EnvMap) (m : EnvironmentModification) : EnvMap :=
  let '(envmap, m) := fix_up envmap m in
  apply_in_place envmap m.

(** What a modification must be for the map to stay a map of C strings:
    not a [Prepend], which copies the value with its NULs, and no [=] in
    the name. *)
Definition mod_ok (m : EnvironmentModification) : bool :=
  match emod m with EnvMod_Prepend => false | _ => true end
  && negb (has_char "="%char (c_str (name m))).

(** [v], then [:] when [v] is not empty, then [p]: an [Append] with the
    platform separator. *)
Definition appended (p v : string) : string :=
  ApplySingleEnvMod (mkEnvMod EnvMod_Append EnvSep_Platform "" p) v.

Section WithPlatform.
Variable P : Platform.

(** [PreForkConfigureHooks].  The capture options and the capture file
    template are what [RenderDoc::Inst()] holds; [penv] is the variables
    of the process. *)
Definition PreForkConfigureHooks (opts : CaptureOptions) (capturefile : string)
           (penv : EnvMap) : EnvMap :=
  let modifications := GetHookingEnvMods P [] opts capturefile in
  ApplyEnvironmentModifications (GetCurrentEnvironment P) modifications penv.

(** [GetHookedEnvp]: the strings [modifiedEnv] points to, without the
    closing [NULL]. *)
Definition GetHookedEnvp (opts : CaptureOptions) (capturefile : string)
           (envp : list string) : option (list string) :=
  let modifications := GetHookingEnvMods P [] opts capturefile in
  let envmap := EnvStringToEnvMap envp in
  let envmap := fold_left hooked_step modifications envmap in
  split_envp (flatten_env envmap) None.

(** [ResetHookingEnvVars] on the variables of the process. *)
Definition ResetHookingEnvVars (penv : EnvMap) : EnvMap :=
  let penv := setenv LIB_PATH_ENV_VAR
                     (c_str (GetEnvVariable P "RENDERDOC_ORIGLIBPATH")) penv in
  let penv := setenv PRELOAD_ENV_VAR
                     (c_str (GetEnvVariable P "RENDERDOC_ORIGPRELOAD")) penv in
  let penv := unsetenv "RENDERDOC_ORIGLIBPATH" penv in
  unsetenv "RENDERDOC_ORIGPRELOAD" penv.

End WithPlatform.

(** The names [GetHookingEnvMods] writes to. *)
Definition hooking_names : list string :=
  ["RENDERDOC_ORIGLIBPATH"; "RENDERDOC_ORIGPRELOAD"; LIB_PATH_ENV_VAR; PRELOAD_ENV_VAR;
   "RENDERDOC_CAPFILE"; "RENDERDOC_CAPOPTS"; "RENDERDOC_DEBUG_LOG_FILE"].

(** A child whose variables are those of a hooked [envp] made from
    [LD_LIBRARY_PATH=/x]. *)
Definition demo_child : Platform :=
  {| trimmed := fun s => s;
     get_dirname := fun _ => "/opt/app";
     get_basename := fun s => s;
     getcwd := "/work";
     getenv := fun _ => None;
     getpwnam := fun _ => None;
     realpath := fun s => s;
     FindFileInPath := fun s => "/usr/bin/" +:+ s;
     execve_succeeds := fun _ _ _ => false;
     fork_result := 0;
     GetCurrentEnvironment := [];
     GetExecutableFilename := "/opt/app/hmi";
     GetLibraryFilename := "/opt/rdoc/lib/librenderdoc.so";
     GetEnvVariable := fun k => if String.eqb k "RENDERDOC_ORIGLIBPATH" then "/x" else "";
     RDCGETLOGFILE := "/tmp/rdoc.log";
     GetIdentPort := fun _ => 0%Z |}.

End Hooks.

(** ** [LaunchProcess], [LaunchScript] and the [main] of renderdoccmd *)

Module Launch.
Import Tokenizer EnvEngine PidList Reaper Launcher.

(** [ProcessResult], declared in [api/replay]. *)
Record ProcessResult := mkProcessResult {
  strStdout : string;
  strStderror : string;
  retCode : Z
}.

(** The answers of the system to the calls [LaunchProcess] makes itself. *)
Record PipeSystem := mkPipeSystem {
  pipe_stdout : option (Z * Z);      (* pipe(stdoutPipe): the two descriptors, or -1 *)
  pipe_stderr : option (Z * Z);
  unset_stdout : Z * Z;              (* what the array holds when pipe has failed *)
  unset_stderr : Z * Z;
  read_chunks : Z → list string;     (* the reads from a descriptor that give bytes *)
  waitpid_interrupted : nat;         (* how often waitpid is interrupted (EINTR) *)
  waitpid_result : Z;                (* what waitpid answers then *)
  wait_exited : bool;                (* WIFEXITED(status) *)
  wait_exit_status : Z               (* WEXITSTATUS(status) *)
}.

Definition set_retCode (r : ProcessResult) (c : Z) : ProcessResult :=
  {| strStdout := strStdout r; strStderror := strStderror r; retCode := c |}.

(** Events that [LaunchProcess] cannot have without a child: a fork, a
    descriptor closed or duplicated, a wait. *)
Definition is_child_event (e : event) : bool :=
  match e with
  | EvFork _ | EvClose _ | EvDup2 _ _ | EvWaitpid _ | EvStopChildAtMain _
  | EvGetIdentPort _ | EvResumeProcess _ _ => true
  | _ => false
  end.

(** The descriptors the two arrays hold after the calls of [pipe]. *)
Definition stdout_fds (S : PipeSystem) : Z * Z :=
  match pipe_stdout S with Some fds => fds | None => unset_stdout S end.

Definition stderr_fds (S : PipeSystem) : Z * Z :=
  match pipe_stderr S with Some fds => fds | None => unset_stderr S end.

(** [*result] after a call that passed the test of [app] and returned. *)
Definition cleared (result : option ProcessResult) : option ProcessResult :=
  (fun r => {| strStdout := ""; strStderror := ""; retCode := retCode r |}) <$> result.






Section WithPlatform.
Variable P : Platform.
Variable S : PipeSystem.
Local Open Scope stmt_scope.

(** [pipe(fds)] with the error that is logged when it fails. *)
Definition make_pipe {R} (answer : option (Z * Z)) (unset : Z * Z) (what : string)
  : M R (Z * Z) :=
  match answer with
  | Some fds => pure fds
  | None => emit (EvLog what []) ;; pure unset
  end.

(** The [while] around [waitpid]: one log line for each interrupted
    call. *)
Definition wait_for {R} (pid : Z) : M R Z :=
  for_each (seq 0 (waitpid_interrupted S))
           (fun _ => emit (EvWaitpid pid) ;;
                     emit (EvLog "Waiting on pid %u to exit" [PInt pid])) ;;
  emit (EvWaitpid pid) ;;
  pure (waitpid_result S).

(** [Process::LaunchProcess].  [result] is [None] for a [NULL] pointer; the
    function returns its value together with what [*result] holds at the
    end. *)
Definition LaunchProcess (app workingDir cmdLine : string) (internal : bool)
           (result : option ProcessResult) : M (Z * option ProcessResult) unit :=
  when (str_empty app)
       (emit (EvLog "Invalid empty 'app'" []) ;; ret (0%Z, result)) ;;
  pipes <-
    match result with
    | Some _ =>
        so <- make_pipe (pipe_stdout S) (unset_stdout S) "Could not create stdout pipe" ;;
        se <- make_pipe (pipe_stderr S) (unset_stderr S) "Could not create stderr pipe" ;;
        pure (Some (so, se))
    | None => pure None
    end ;;
  let currentEnvironment := GetCurrentEnvironment P in
  ret_ <- call (RunProcess P app workingDir cmdLine currentEnvironment false
                           (fst <$> pipes) (snd <$> pipes)) ;;
  result <-
    match result, pipes with
    | Some r, Some (so, se) =>
        let r := {| strStdout := ""; strStderror := ""; retCode := retCode r |} in
        r <- (if negb (ret_ =? 0)%Z then
                let r := {| strStdout := strStdout r +:+ str_concat (read_chunks S so.1);
                            strStderror := strStderror r +:+ str_concat (read_chunks S se.1);
                            retCode := 1 |} in
                p <- wait_for ret_ ;;
                if (p <? 0)%Z then
                  emit (EvLog "Failed to wait on pid %u, error: %d" [PInt ret_; PInt p]) ;;
                  pure r
                else if wait_exited S then pure (set_retCode r (wait_exit_status S))
                else emit (EvLog "Process did not exit normally" []) ;; pure r
              else pure r) ;;
        (* Close read ends. *)
        close so.1 ;;
        close se.1 ;;
        pure (Some r)
    | _, _ => pure None
    end ;;
  ret ((ret_ mod 2 ^ 32)%Z, result).



(** *** renderdoccmd: [main]

    The branch of [main] that is compiled ([#elif 1]); what comes after it
    in the source is under [USE_RENDER_DOC_CMD] and behind [exit].  A
    [std::cout] statement is one output with the streamed items as its
    arguments.  [argc] is the length of [argv]. *)
Definition EXIT_SUCCESS : Z := 0.
Definition EXIT_FAILURE : Z := 1.

Definition cout {R} (items : list parg) : M R unit := printf "" items.

Definition main (argv penv : list string) : M Z unit :=
  let argc := Z.of_nat (length argv) in
  cout [PStr "argc = "; PInt argc; PStr nl] ;;
  cout [PStr "-------------------BEGIN OUTPUT ARGV-----------------"; PStr nl] ;;
  for_each (indexed 0 argv)
           (fun ia => cout [PInt ia.1; PStr ">>"; PStr (c_str ia.2); PStr nl]) ;;
  cout [PStr "--------------END ARGV------ BEGIN OUT PUT ENV----------------"; PStr nl] ;;
  for_each penv (fun e => cout [PStr (c_str e); PStr nl]) ;;
  cout [PStr "===========END ENV==========="; PStr nl] ;;
  when (1 <? argc)%Z
       (let argv1 := nth 1 argv "" in
        childPid <- fork P ;;
        if (childPid =? 0)%Z then
          cout [PStr "argv[1] = "; PStr (c_str argv1); PStr nl] ;;
          let workdir := hard_workdir in
          chdir workdir ;;
          cout [PStr "change workdir = "; PStr workdir; PStr nl] ;;
          ret_ <- execve P (c_str argv1) (map c_str (tl argv)) (map c_str penv) ;;
          if (ret_ =? -1)%Z then
            cout [PStr "failed to execve"; PStr nl] ;;
            emit (EvStderr "execve") ;;
            _exit EXIT_FAILURE
          else
            cout [PStr "success to execve "; PStr workdir; PStr (c_str argv1); PStr nl]
        else
          cout [PStr "main create childPid = "; PInt childPid; PStr nl]) ;;
  printf ("shouldn't get here" +:+ nl) [] ;;
  _exit EXIT_SUCCESS.

End WithPlatform.


End Launch.

(** ** The exec wrapper ([unnamed/part_001]) *)

Module Wrapper.
Import Launcher Launch.

Section WithPlatform.
Variable P : Platform.
Local Open Scope stmt_scope.

(** [main].  The test [if(argv[1])] is made without a look at [argc]:
    [argv[1]] is [NULL] when the program has its name and no argument, and
    lies behind the terminator of [argv] when [argv] is empty, where
    reading it has no defined result. *)
Definition main (argv env : list string) : M Z unit :=
  let argc := Z.of_nat (length argv) in
  cout [PStr "argc = "; PInt argc; PStr nl] ;;
  cout [PStr "-------------------BEGIN OUTPUT ARGV-----------------"; PStr nl] ;;
  for_each argv (fun a => cout [PStr (c_str a); PStr nl]) ;;
  cout [PStr "--------------END ARGV------ BEGIN OUT PUT ENV----------------"; PStr nl] ;;
  for_each env (fun e => cout [PStr (c_str e); PStr nl]) ;;
  cout [PStr "===========END ENV==========="; PStr nl] ;;
  match argv with
  | [] => undefined
  | _ :: [] => pure tt
  | _ :: argv1 :: _ =>
      cout [PStr "argv[1] = "; PStr (c_str argv1); PStr nl] ;;
      ret_ <- execve P (c_str argv1) (map c_str argv) (map c_str env) ;;
      when (ret_ =? -1)%Z
           (cout [PStr "failed to execve"; PStr nl] ;;
            emit (EvStderr "execve") ;;
            _exit EXIT_FAILURE)
  end ;;
  printf ("shouldn't get here" +:+ nl) [] ;;
  _exit EXIT_SUCCESS.

End WithPlatform.
End Wrapper.

(** * Properties *)

(** ** Strings *)

Lemma str_app_String (ch : ascii) (s t : string) :
  String ch s +:+ t = String ch (s +:+ t).
Proof. reflexivity. Qed.

Lemma str_app_nil_l (t : string) : "" +:+ t = t.
Proof. reflexivity. Qed.

Lemma str_app_nil_r (s : string) : s +:+ "" = s.
Proof.
  induction s as [|ch s IH]; [reflexivity|].
  now rewrite str_app_String, IH.
Qed.

Lemma str_app_assoc (s t u : string) : (s +:+ t) +:+ u = s +:+ (t +:+ u).
Proof.
  induction s as [|ch s IH]; [reflexivity|].
  now rewrite !str_app_String, IH.
Qed.

Lemma str_app_cons (s t : string) (ch : ascii) :
  s +:+ String ch t = push_back s ch +:+ t.
Proof. unfold push_back. now rewrite str_app_assoc. Qed.

Lemma has_char_app (ch : ascii) (s t : string) :
  has_char ch (s +:+ t) = has_char ch s || has_char ch t.
Proof.
  induction s as [|x s IH]; [reflexivity|].
  rewrite str_app_String. simpl. now rewrite IH, orb_assoc.
Qed.

Lemma c_str_id (s : string) : has_char nul s = false → c_str s = s.
Proof.
  induction s as [|x s IH]; simpl; [reflexivity|].
  intros H. apply orb_false_iff in H as [Hx Hs].
  rewrite Hx. now rewrite IH.
Qed.

Lemma c_str_no_nul (s : string) : has_char nul (c_str s) = false.
Proof.
  induction s as [|x s IH]; simpl; [reflexivity|].
  destruct (Ascii.eqb x nul) eqn:E; simpl; [reflexivity|].
  now rewrite E.
Qed.

Lemma str_empty_iff (s : string) : str_empty s = true ↔ s = "".
Proof. destruct s; simpl; split; congruence. Qed.

(** ** CommandLineTokenizer *)

Section TokenizerFacts.
Import Tokenizer.

(** Case analysis on the character under the cursor against the five
    characters the loop tests for. *)
Local Ltac char_cases ch :=
  destruct (Ascii.eqb_spec ch space_char) as [->|?];
  [|destruct (Ascii.eqb_spec ch tab_char) as [->|?];
    [|destruct (Ascii.eqb_spec ch dquote_char) as [->|?];
      [|destruct (Ascii.eqb_spec ch squote_char) as [->|?];
        [|destruct (Ascii.eqb_spec ch backslash_char) as [->|?]]]]].

Lemma scan_agrees_step (ch : ascii) (rest : string) :
  scan_agrees rest →
  (∀ ch2 rest2, rest = String ch2 rest2 → scan_agrees rest2) →
  scan_agrees (String ch rest).
Proof.
  intros IH IH2 q argv a h.
  destruct q; cbn [quote_scan parse_loop q_dquot q_squot negb andb orb].
  - (* outside quotes *)
    char_cases ch; cbn.
    + specialize (IH QOut (if negb (str_empty a) || h then argv ++ [a] else argv) "" false).
      cbn in IH. destruct (quote_scan QOut rest) as [[]|]; try exact IH.
      destruct IH as [toks ->].
      destruct (negb (str_empty a) || h); [|eauto].
      exists (a :: toks). now rewrite <- app_assoc.
    + specialize (IH QOut (if negb (str_empty a) || h then argv ++ [a] else argv) "" false).
      cbn in IH. destruct (quote_scan QOut rest) as [[]|]; try exact IH.
      destruct IH as [toks ->].
      destruct (negb (str_empty a) || h); [|eauto].
      exists (a :: toks). now rewrite <- app_assoc.
    + exact (IH QDouble argv a true).
    + exact (IH QSingle argv a true).
    + exact (IH QOut argv (push_back a backslash_char) h).
    + repeat match goal with
             | H : ch ≠ _ |- _ => apply Ascii.eqb_neq in H; rewrite H; clear H
             end.
      cbn. exact (IH QOut argv (push_back a ch) h).
  - (* inside single quotes *)
    destruct (Ascii.eqb_spec ch squote_char) as [->|Hs].
    + exact (IH QOut argv a h).
    + exact (IH QSingle argv (push_back a ch) h).
  - (* inside double quotes *)
    destruct (Ascii.eqb_spec ch dquote_char) as [->|Hd].
    + exact (IH QOut argv a h).
    + destruct (Ascii.eqb_spec ch backslash_char) as [->|Hb].
      * destruct rest as [|ch2 rest2]; [reflexivity|].
        exact (IH2 ch2 rest2 eq_refl QDouble argv (push_back a ch2) h).
      * exact (IH QDouble argv (push_back a ch) h).
Qed.

Lemma scan_agrees_all (c : string) : scan_agrees c.
Proof.
  assert (H : scan_agrees c ∧ ∀ ch rest, c = String ch rest → scan_agrees rest).
  { induction c as [|ch rest [IH IH2]].
    - split; [|discriminate].
      intros q argv a h. destruct q; cbn; [|reflexivity..].
      destruct (negb (str_empty a) || h); [exists [a] | exists []];
        [reflexivity | now rewrite app_nil_r].
    - split.
      + apply scan_agrees_step; assumption.
      + intros ch' rest' [= -> ->]. exact IH. }
  apply H.
Qed.

Lemma parse_well_formed (appName cmdLine : string) :
  well_formed cmdLine → ∃ toks, ParseCommandLine appName cmdLine = appName :: toks.
Proof.
  intros Hwf. unfold ParseCommandLine.
  destruct (str_empty cmdLine); [now exists []|].
  pose proof (scan_agrees_all (c_str cmdLine) QOut [appName] "" false) as H.
  unfold well_formed in Hwf. rewrite Hwf in H. exact H.
Qed.

Lemma parse_malformed (appName cmdLine : string) :
  ¬ well_formed cmdLine → ParseCommandLine appName cmdLine = [].
Proof.
  intros Hwf. unfold ParseCommandLine.
  destruct (str_empty cmdLine) eqn:E.
  - apply str_empty_iff in E. subst. now destruct Hwf.
  - pose proof (scan_agrees_all (c_str cmdLine) QOut [appName] "" false) as H.
    unfold well_formed in Hwf.
    destruct (quote_scan QOut (c_str cmdLine)) as [[]|]; try exact H.
    now destruct Hwf.
Qed.


Lemma squoted_body (s rest : string) (argv : list string) (a : string) (h : bool) :
  has_char squote_char s = false →
  parse_loop (s +:+ String squote_char rest) argv a h false true
  = parse_loop rest argv (a +:+ s) h false false.
Proof.
  revert a. induction s as [|x s IH]; intros a Hs.
  - rewrite str_app_nil_l, str_app_nil_r. reflexivity.
  - simpl in Hs. apply orb_false_iff in Hs as [Hx Hs].
    rewrite str_app_String. cbn [parse_loop negb andb]. rewrite Hx. cbn [andb].
    rewrite IH by assumption. now rewrite <- str_app_cons.
Qed.

Lemma dquoted_body (s rest : string) (argv : list string) (a : string) (h : bool) :
  has_char dquote_char s = false →
  has_char backslash_char s = false →
  parse_loop (s +:+ String dquote_char rest) argv a h true false
  = parse_loop rest argv (a +:+ s) h false false.
Proof.
  revert a. induction s as [|x s IH]; intros a Hd Hb.
  - rewrite str_app_nil_l, str_app_nil_r. reflexivity.
  - simpl in Hd, Hb.
    apply orb_false_iff in Hd as [Hx Hd]. apply orb_false_iff in Hb as [Hy Hb].
    rewrite str_app_String. cbn [parse_loop negb andb]. rewrite Hx, Hy. cbn [andb].
    rewrite IH by assumption. now rewrite <- str_app_cons.
Qed.

Lemma segment_step (g : segment) (rest : string) (argv : list string)
      (a : string) (h : bool) :
  seg_ok g = true →
  parse_loop (seg_render g +:+ rest) argv a h false false
  = parse_loop rest argv (a +:+ seg_text g) true false false.
Proof.
  destruct g as [s|s]; cbn [seg_ok seg_render seg_text]; intros Hok.
  - apply andb_true_iff in Hok as [Hq _]. apply negb_true_iff in Hq.
    rewrite str_app_String, str_app_assoc, str_app_String, str_app_nil_l.
    cbn [parse_loop negb andb orb]. cbn.
    now apply squoted_body.
  - apply andb_true_iff in Hok as [Hok _]. apply andb_true_iff in Hok as [Hq Hb].
    apply negb_true_iff in Hq, Hb.
    rewrite str_app_String, str_app_assoc, str_app_String, str_app_nil_l.
    cbn [parse_loop negb andb orb]. cbn.
    now apply dquoted_body.
Qed.

Lemma segments_run (segs : list segment) (rest : string) (argv : list string)
      (a : string) (h : bool) :
  forallb seg_ok segs = true →
  parse_loop (str_concat (map seg_render segs) +:+ rest) argv a h false false
  = parse_loop rest argv (a +:+ str_concat (map seg_text segs))
               (h || negb (forallb (fun _ => false) segs)) false false.
Proof.
  revert a h. induction segs as [|g segs IH]; intros a h Hok.
  - cbn. now rewrite str_app_nil_r, orb_false_r.
  - cbn [forallb] in Hok. apply andb_true_iff in Hok as [Hg Hok].
    cbn [map str_concat forallb andb negb].
    rewrite str_app_assoc, segment_step by assumption.
    rewrite IH by assumption. rewrite str_app_assoc, orb_true_r. reflexivity.
Qed.

Lemma seg_render_no_nul (g : segment) :
  seg_ok g = true → has_char nul (seg_render g) = false.
Proof.
  destruct g as [s|s]; cbn [seg_ok seg_render]; intros Hok.
  - apply andb_true_iff in Hok as [_ Hn]. apply negb_true_iff in Hn.
    cbn. now rewrite has_char_app, Hn.
  - apply andb_true_iff in Hok as [_ Hn]. apply negb_true_iff in Hn.
    cbn. now rewrite has_char_app, Hn.
Qed.

Lemma segments_no_nul (segs : list segment) :
  forallb seg_ok segs = true →
  has_char nul (str_concat (map seg_render segs)) = false.
Proof.
  induction segs as [|g segs IH]; [reflexivity|].
  cbn [forallb map str_concat]. intros Hok.
  apply andb_true_iff in Hok as [Hg Hok].
  now rewrite has_char_app, seg_render_no_nul, IH.
Qed.

Lemma segments_only (appName : string) (segs : list segment) :
  segs ≠ [] → forallb seg_ok segs = true →
  ParseCommandLine appName (str_concat (map seg_render segs))
  = [appName; str_concat (map seg_text segs)].
Proof.
  intros Hne Hok. unfold ParseCommandLine.
  destruct segs as [|g segs]; [congruence|].
  replace (str_empty (str_concat (map seg_render (g :: segs)))) with false
    by now destruct g.
  rewrite c_str_id by now apply segments_no_nul.
  rewrite <- (str_app_nil_r (str_concat _)).
  rewrite segments_run by assumption.
  cbn [parse_loop forallb andb negb orb]. rewrite orb_true_r.
  reflexivity.
Qed.

Lemma errors_agree_step (ch : ascii) (rest : string) :
  errors_agree rest →
  (∀ ch2 rest2, rest = String ch2 rest2 → errors_agree rest2) →
  errors_agree (String ch rest).
Proof.
  intros IH IH2 q.
  destruct q; cbn [quote_scan parse_loop_errors q_dquot q_squot negb andb orb].
  - char_cases ch; cbn.
    + exact (IH QOut).
    + exact (IH QOut).
    + exact (IH QDouble).
    + exact (IH QSingle).
    + exact (IH QOut).
    + repeat match goal with
             | H : ch ≠ _ |- _ => apply Ascii.eqb_neq in H; rewrite H; clear H
             end.
      cbn. exact (IH QOut).
  - destruct (Ascii.eqb_spec ch squote_char) as [->|Hs].
    + exact (IH QOut).
    + exact (IH QSingle).
  - destruct (Ascii.eqb_spec ch dquote_char) as [->|Hd].
    + exact (IH QOut).
    + destruct (Ascii.eqb_spec ch backslash_char) as [->|Hb].
      * destruct rest as [|ch2 rest2]; [reflexivity|].
        exact (IH2 ch2 rest2 eq_refl QDouble).
      * exact (IH QDouble).
Qed.

Lemma errors_agree_all (c : string) : errors_agree c.
Proof.
  assert (H : errors_agree c ∧ ∀ ch rest, c = String ch rest → errors_agree rest).
  { induction c as [|ch rest [IH IH2]].
    - split; [|discriminate]. intros q. now destruct q.
    - split.
      + apply errors_agree_step; assumption.
      + intros ch' rest' [= -> ->]. exact IH. }
  apply H.
Qed.

Lemma ParseCommandLine_errors_spec (cmdLine : string) :
  ParseCommandLine_errors cmdLine
  = match quote_scan QOut (c_str cmdLine) with
    | Some QOut => []
    | Some _ => [malformed_at_end]
    | None => [malformed_in_escape]
    end.
Proof.
  unfold ParseCommandLine_errors. destruct cmdLine as [|ch r]; [reflexivity|].
  cbn [str_empty]. exact (errors_agree_all _ QOut).
Qed.



Lemma well_formed_dec (cmdLine : string) : well_formed cmdLine ∨ ¬ well_formed cmdLine.
Proof.
  unfold well_formed. destruct (quote_scan QOut (c_str cmdLine)) as [[]|];
    [now left | right; discriminate..].
Qed.

End TokenizerFacts.

(** The checks of the unit test "Test command line parsing", one per
    section of the test and the ones that use escapes. *)
Example ParseCommandLine_unit_tests :
  Tokenizer.ParseCommandLine "app" "" = ["app"] ∧
  Tokenizer.ParseCommandLine "app" "   " = ["app"] ∧
  Tokenizer.ParseCommandLine "app" ("  " +:+ Tokenizer.tab +:+ "  " +:+ Tokenizer.tab +:+ " ")
  = ["app"] ∧
  Tokenizer.ParseCommandLine "app" "   '   '   " = ["app"; "   "] ∧
  Tokenizer.ParseCommandLine "app" ("   " +:+ Tokenizer.dq +:+ "   " +:+ Tokenizer.dq +:+ "   ")
  = ["app"; "   "] ∧
  Tokenizer.ParseCommandLine "app" "--foo" = ["app"; "--foo"] ∧
  Tokenizer.ParseCommandLine "app"
    "--path /a/path/to/somewhere    --many --param a   b c     d "
  = ["app"; "--path"; "/a/path/to/somewhere"; "--many"; "--param"; "a"; "b"; "c"; "d"] ∧
  Tokenizer.ParseCommandLine "app" "   --thing='single quoted single parameter'  "
  = ["app"; "--thing=single quoted single parameter"] ∧
  Tokenizer.ParseCommandLine "app"
    (" 'quoted string with " +:+ Tokenizer.dq +:+ "double quotes inside"
     +:+ Tokenizer.dq +:+ " it' ")
  = ["app"; "quoted string with " +:+ Tokenizer.dq +:+ "double quotes inside"
            +:+ Tokenizer.dq +:+ " it"] ∧
  Tokenizer.ParseCommandLine "app" "--explicit '  '" = ["app"; "--explicit"; "  "] ∧
  Tokenizer.ParseCommandLine "app"
    (" " +:+ Tokenizer.dq +:+ "quoted string with " +:+ Tokenizer.bs +:+ Tokenizer.dq
     +:+ "double quotes inside" +:+ Tokenizer.bs +:+ Tokenizer.dq +:+ " it"
     +:+ Tokenizer.dq +:+ " ")
  = ["app"; "quoted string with " +:+ Tokenizer.dq +:+ "double quotes inside"
            +:+ Tokenizer.dq +:+ " it"] ∧
  Tokenizer.ParseCommandLine "app"
    (" " +:+ Tokenizer.dq +:+ "string's contents has a quoted quote" +:+ Tokenizer.dq +:+ " ")
  = ["app"; "string's contents has a quoted quote"] ∧
  Tokenizer.ParseCommandLine "app"
    ("--explicit " +:+ Tokenizer.dq +:+ Tokenizer.dq +:+ " --empty")
  = ["app"; "--explicit"; ""; "--empty"] ∧
  Tokenizer.ParseCommandLine "app"
    (Tokenizer.dq +:+ "foo" +:+ Tokenizer.dq +:+ "'bar'" +:+ Tokenizer.dq +:+ "blah"
     +:+ Tokenizer.dq)
  = ["app"; "foobarblah"] ∧
  Tokenizer.ParseCommandLine "app" "foo'bar'blah" = ["app"; "foobarblah"] ∧
  Tokenizer.ParseCommandLine "app"
    (Tokenizer.dq +:+ "string with spaces" +:+ Tokenizer.dq +:+ "' and other string'")
  = ["app"; "string with spaces and other string"].
Proof. repeat split. Qed.

(** C5 (amended). On every command line that does not end inside a quote or
    a dangling escape, the tokenizer's result has at least one element and
    element 0 is the command name. *)
Theorem ParseCommandLine_argv0 (command_name command_line : string) :
  Tokenizer.well_formed command_line →
  (1 ≤ length (Tokenizer.ParseCommandLine command_name command_line))%nat ∧
  Tokenizer.ParseCommandLine command_name command_line !! 0%nat = Some command_name.
Proof.
  intros Hwf. destruct (parse_well_formed command_name command_line Hwf) as [toks ->].
  split; [cbn; lia | reflexivity].
Qed.

Lemma ParseCommandLine_argv0_witness :
  Tokenizer.well_formed "--foo 'a b'" ∧
  (1 ≤ length (Tokenizer.ParseCommandLine "app" "--foo 'a b'"))%nat ∧
  Tokenizer.ParseCommandLine "app" "--foo 'a b'" !! 0%nat = Some "app".
Proof.
  split; [reflexivity|].
  apply (ParseCommandLine_argv0 "app" "--foo 'a b'"). reflexivity.
Defined.

(** C5 as stated fails: a command line with an unterminated quote has no
    element 0 at all. *)
Lemma ParseCommandLine_unterminated_no_argv0 :
  ¬ ((1 ≤ length (Tokenizer.ParseCommandLine "app" "'unterminated"))%nat ∧
     Tokenizer.ParseCommandLine "app" "'unterminated" !! 0%nat = Some "app").
Proof. intros [H _]. cbn in H. lia. Qed.

(** C6. An input that ends inside an open single or double quote, or with a
    backslash that has nothing after it inside double quotes, makes the
    tokenizer return the empty sequence. *)
Theorem ParseCommandLine_malformed_fails (command_name command_line : string) :
  Tokenizer.quote_scan Tokenizer.QOut (c_str command_line) = Some Tokenizer.QSingle ∨
  Tokenizer.quote_scan Tokenizer.QOut (c_str command_line) = Some Tokenizer.QDouble ∨
  Tokenizer.quote_scan Tokenizer.QOut (c_str command_line) = None →
  Tokenizer.ParseCommandLine command_name command_line = [].
Proof.
  intros H. apply parse_malformed. unfold Tokenizer.well_formed.
  destruct H as [H|[H|H]]; rewrite H; discriminate.
Qed.

Lemma ParseCommandLine_malformed_fails_witness :
  Tokenizer.ParseCommandLine "app" "--a 'unterminated" = [].
Proof.
  apply (ParseCommandLine_malformed_fails "app" "--a 'unterminated").
  left. reflexivity.
Defined.

(** C7. Quoted segments written one after the other with no whitespace in
    between add up to one token, wherever they stand in the command line;
    a command line made of such segments only has that token as its single
    argument; and the two command lines of the specification tokenize as
    it says, the quoted empty string giving an empty token. *)
Theorem ParseCommandLine_quoted_segments :
  (∀ segs rest argv a haveArg,
      forallb Tokenizer.seg_ok segs = true →
      Tokenizer.parse_loop
        (str_concat (map Tokenizer.seg_render segs) +:+ rest) argv a haveArg false false
      = Tokenizer.parse_loop rest argv
          (a +:+ str_concat (map Tokenizer.seg_text segs))
          (haveArg || negb (forallb (fun _ => false) segs)) false false) ∧
  (∀ appName segs,
      segs ≠ [] → forallb Tokenizer.seg_ok segs = true →
      Tokenizer.ParseCommandLine appName (str_concat (map Tokenizer.seg_render segs))
      = [appName; str_concat (map Tokenizer.seg_text segs)]) ∧
  Tokenizer.ParseCommandLine "app" "'foo''bar''blah'" = ["app"; "foobarblah"] ∧
  Tokenizer.ParseCommandLine "app" "--explicit '' --empty"
  = ["app"; "--explicit"; ""; "--empty"].
Proof.
  split; [|split; [|split]].
  - intros. now apply segments_run.
  - intros. now apply segments_only.
  - reflexivity.
  - reflexivity.
Qed.

Lemma ParseCommandLine_quoted_segments_witness :
  Tokenizer.ParseCommandLine "app"
    (str_concat (map Tokenizer.seg_render
                     [Tokenizer.SQ "foo"; Tokenizer.DQ "bar"; Tokenizer.SQ "blah"]))
  = ["app"; "foobarblah"].
Proof.
  apply (proj1 (proj2 ParseCommandLine_quoted_segments) "app"
               [Tokenizer.SQ "foo"; Tokenizer.DQ "bar"; Tokenizer.SQ "blah"]).
  - discriminate.
  - reflexivity.
Defined.

(** ** EnvironmentModificationEngine *)

Section EnvFacts.
Import EnvEngine.

Lemma compare_refl (k : string) : String.compare k k = Eq.
Proof.
  pose proof (String.compare_antisym k k) as H.
  destruct (String.compare k k); cbn in H; congruence.
Qed.

Lemma compare_neq_eqb (k k' : string) :
  String.compare k k' ≠ Eq → String.eqb k k' = false.
Proof.
  intros H. apply String.eqb_neq. intros ->. now rewrite compare_refl in H.
Qed.

Lemma env_find_set (k v : string) (env : EnvMap) :
  env_find k (env_set k v env) = Some v.
Proof.
  induction env as [|[k' v'] env IH]; cbn.
  - now rewrite String.eqb_refl.
  - destruct (String.compare k k') eqn:E; cbn.
    + now rewrite String.eqb_refl.
    + now rewrite String.eqb_refl.
    + rewrite compare_neq_eqb by congruence. exact IH.
Qed.

Lemma env_index_modify (f : string → string) (k : string) (env : EnvMap) :
  env_index (env_modify f k env) k = f (env_index env k).
Proof. unfold env_modify, env_index at 1. now rewrite env_find_set. Qed.

Lemma env_index_absent (k : string) (env : EnvMap) :
  env_find k env = None → env_index env k = "".
Proof. unfold env_index. now intros ->. Qed.

(** The two update paths agree on [Set], on [Append], and on [Prepend] when
    the current value is empty. *)
Lemma inline_agrees (m : EnvironmentModification) (v : string) :
  emod m ≠ EnvMod_Prepend ∨ v = "" → InlineEnvMod m v = ApplySingleEnvMod m v.
Proof.
  unfold InlineEnvMod, ApplySingleEnvMod.
  intros [H| ->]; destruct (emod m); try reflexivity. congruence.
Qed.

(** On [Prepend] with a non-empty current value the inline path keeps the
    current value in front and never adds the new one. *)
Lemma inline_prepend (m : EnvironmentModification) (v : string) :
  emod m = EnvMod_Prepend → v ≠ "" →
  InlineEnvMod m v = v +:+ sep_text (sep m) ∧
  ApplySingleEnvMod m v = value m +:+ sep_text (sep m) +:+ v.
Proof.
  unfold InlineEnvMod, ApplySingleEnvMod. intros -> Hv.
  destruct v; [congruence|]. cbn [str_empty negb].
  now rewrite str_app_assoc.
Qed.

Lemma apply_empty (m : EnvironmentModification) :
  ApplySingleEnvMod m "" = c_str (value m).
Proof. unfold ApplySingleEnvMod. now destruct (emod m). Qed.

Lemma prepend_then_append (s : EnvSep) (n1 n2 p a orig : string) :
  orig ≠ "" →
  ApplySingleEnvMod (mkEnvMod EnvMod_Append s n2 a)
    (ApplySingleEnvMod (mkEnvMod EnvMod_Prepend s n1 p) orig)
  = p +:+ sep_text s +:+ orig +:+ sep_text s +:+ c_str a.
Proof.
  intros Ho. unfold ApplySingleEnvMod. cbn [emod sep value].
  destruct orig as [|x orig]; [congruence|]. cbn [str_empty negb].
  replace (str_empty ((p +:+ sep_text s) +:+ String x orig)) with false.
  - cbn [negb]. now rewrite !str_app_assoc.
  - destruct p; [destruct s|]; reflexivity.
Qed.

End EnvFacts.

(** C3 (the code departs from it). At a [Prepend] on a variable that
    already has a value, the loop inside [LaunchAndInjectIntoProcess] only
    adds the separator after the current value, while [ApplySingleEnvMod]
    puts the new value and the separator in front of it. *)
Theorem InlineEnvMod_prepend_differs :
  let m := EnvEngine.mkEnvMod EnvEngine.EnvMod_Prepend EnvEngine.EnvSep_Colon
                              "PATH" "/opt/tool" in
  let env := EnvEngine.EnvStringToEnvMap ["PATH=/usr/bin"] in
  EnvEngine.InlineEnvMod m "/usr/bin" = "/usr/bin:" ∧
  EnvEngine.ApplySingleEnvMod m "/usr/bin" = "/opt/tool:/usr/bin" ∧
  EnvEngine.inline_all env [m] = [("PATH", "/usr/bin:")] ∧
  EnvEngine.apply_all env [m] = [("PATH", "/opt/tool:/usr/bin")].
Proof. repeat split. Qed.

(** C4 (amended). For a key that is absent from the map, [Append] and
    [Prepend] give what [Set] gives.  For a value that is present and not
    empty, a [Prepend] followed at once by an [Append] with the same
    separator gives prepend + sep + original + sep + append, the appended
    value being the C string the code reads (all of it when it holds no
    NUL byte); the map holds that value under the key afterwards. *)
Theorem ApplySingleEnvMod_algebra :
  (∀ (env : EnvEngine.EnvMap) s k v,
      EnvEngine.env_find k env = None →
      EnvEngine.ApplySingleEnvMod
        (EnvEngine.mkEnvMod EnvEngine.EnvMod_Append s k v) (EnvEngine.env_index env k)
      = EnvEngine.ApplySingleEnvMod
          (EnvEngine.mkEnvMod EnvEngine.EnvMod_Set s k v) (EnvEngine.env_index env k) ∧
      EnvEngine.ApplySingleEnvMod
        (EnvEngine.mkEnvMod EnvEngine.EnvMod_Prepend s k v) (EnvEngine.env_index env k)
      = EnvEngine.ApplySingleEnvMod
          (EnvEngine.mkEnvMod EnvEngine.EnvMod_Set s k v) (EnvEngine.env_index env k)) ∧
  (∀ (env : EnvEngine.EnvMap) s k prepend append original,
      EnvEngine.env_find (c_str k) env = Some original →
      original ≠ "" →
      EnvEngine.ApplySingleEnvMod
        (EnvEngine.mkEnvMod EnvEngine.EnvMod_Append s k append)
        (EnvEngine.ApplySingleEnvMod
           (EnvEngine.mkEnvMod EnvEngine.EnvMod_Prepend s k prepend) original)
      = prepend +:+ EnvEngine.sep_text s +:+ original +:+ EnvEngine.sep_text s
        +:+ c_str append ∧
      (has_char nul append = false → c_str append = append) ∧
      EnvEngine.env_index
        (EnvEngine.apply_all env
           [EnvEngine.mkEnvMod EnvEngine.EnvMod_Prepend s k prepend;
            EnvEngine.mkEnvMod EnvEngine.EnvMod_Append s k append]) (c_str k)
      = prepend +:+ EnvEngine.sep_text s +:+ original +:+ EnvEngine.sep_text s
        +:+ c_str append).
Proof.
  split.
  - intros env s k v Habs. rewrite (env_index_absent _ _ Habs).
    now rewrite !apply_empty.
  - intros env s k p a orig Hfind Ho. split; [|split].
    + now apply prepend_then_append.
    + apply c_str_id.
    + unfold EnvEngine.apply_all. cbn [fold_left].
      unfold EnvEngine.apply_in_place. cbn [EnvEngine.name].
      rewrite !env_index_modify.
      replace (EnvEngine.env_index env (c_str k)) with orig
        by (unfold EnvEngine.env_index; now rewrite Hfind).
      now apply prepend_then_append.
Qed.

Lemma ApplySingleEnvMod_algebra_witness :
  EnvEngine.env_index
    (EnvEngine.apply_all (EnvEngine.EnvStringToEnvMap ["PATH=/usr/bin"; "FOO="])
       [EnvEngine.mkEnvMod EnvEngine.EnvMod_Prepend EnvEngine.EnvSep_Colon "PATH" "/a";
        EnvEngine.mkEnvMod EnvEngine.EnvMod_Append EnvEngine.EnvSep_Colon "PATH" "/z"])
    (c_str "PATH")
  = "/a" +:+ ":" +:+ "/usr/bin" +:+ ":" +:+ c_str "/z".
Proof.
  apply (proj2 ApplySingleEnvMod_algebra
               (EnvEngine.EnvStringToEnvMap ["PATH=/usr/bin"; "FOO="])
               EnvEngine.EnvSep_Colon "PATH" "/a" "/z" "/usr/bin").
  - reflexivity.
  - discriminate.
Defined.

(** C4 as stated fails on a variable that is present with an empty value
    (the entry [FOO=] of the environment block): only one separator is
    written. *)
Lemma prepend_append_on_empty_present_value :
  let env := EnvEngine.EnvStringToEnvMap ["PATH=/usr/bin"; "FOO="] in
  let pre := EnvEngine.mkEnvMod EnvEngine.EnvMod_Prepend EnvEngine.EnvSep_Colon "FOO" "p" in
  let app := EnvEngine.mkEnvMod EnvEngine.EnvMod_Append EnvEngine.EnvSep_Colon "FOO" "a" in
  EnvEngine.env_find "FOO" env = Some "" ∧
  EnvEngine.ApplySingleEnvMod app (EnvEngine.ApplySingleEnvMod pre "") = "p:a" ∧
  EnvEngine.ApplySingleEnvMod app (EnvEngine.ApplySingleEnvMod pre "")
  ≠ "p" +:+ ":" +:+ "" +:+ ":" +:+ "a".
Proof. repeat split. discriminate. Qed.

(** ** PID lists *)

Section PidListFacts.
Import PidList.
Implicit Types (h : gmap addr PIDNode) (p q : option addr) (xs ys : list addr)
         (a n t : addr) (l : PIDList).

(** Membership goals over [++] and [::]. *)
Local Ltac list_mem :=
  rewrite ?elem_of_app, ?elem_of_cons, ?elem_of_nil in *; intuition (subst; eauto).

Lemma is_seg_app h p xs ys q :
  is_seg h p (xs ++ ys) q ↔ ∃ m, is_seg h p xs m ∧ is_seg h m ys q.
Proof.
  revert p. induction xs as [|a xs IH]; intros p; cbn.
  - split; [intros H; exists p; auto | intros (m & -> & H); exact H].
  - split.
    + intros (-> & nd & Hnd & H). apply IH in H as (m & H1 & H2).
      exists m. split; [|exact H2]. split; [reflexivity|]. eauto.
    + intros (m & (-> & nd & Hnd & H1) & H2). split; [reflexivity|].
      exists nd. split; [exact Hnd|]. apply IH. eauto.
Qed.

Lemma is_seg_functional h p xs ys :
  is_list h p xs → is_list h p ys → xs = ys.
Proof.
  unfold is_list. revert p ys. induction xs as [|a xs IH]; intros p ys; cbn.
  - intros ->. destruct ys as [|b ys]; cbn; [reflexivity|]. intros [? _]. discriminate.
  - intros (-> & nd & Hnd & H). destruct ys as [|b ys]; cbn; [discriminate|].
    intros ([= <-] & nd' & Hnd' & H'). rewrite Hnd in Hnd'. injection Hnd' as <-.
    f_equal. eapply IH; eassumption.
Qed.

Lemma is_seg_head h p a xs q : is_seg h p (a :: xs) q → p = Some a.
Proof. now intros [-> _]. Qed.

Lemma is_list_NoDup h p xs : is_list h p xs → NoDup xs.
Proof.
  revert p. induction xs as [|a xs IH]; intros p H; [constructor|].
  pose proof H as (-> & nd & Hnd & Hr). apply NoDup_cons. split; [|eapply IH, Hr].
  intros Hin. apply list_elem_of_split in Hin as (r1 & r2 & ->).
  pose proof Hr as Hr'. apply is_seg_app in Hr' as (m & _ & H2).
  pose proof (is_seg_head _ _ _ _ _ H2) as ->.
  pose proof (is_seg_functional _ _ _ _ H H2) as E.
  apply (f_equal length) in E. cbn in E. rewrite length_app in E. cbn in E. lia.
Qed.

Lemma is_seg_allocated h p xs q a : is_seg h p xs q → a ∈ xs → is_Some (h !! a).
Proof.
  revert p. induction xs as [|b xs IH]; intros p H Hin.
  - now apply elem_of_nil in Hin.
  - destruct H as (-> & nd & Hnd & Hr). apply elem_of_cons in Hin as [->|Hin]; eauto.
Qed.

Lemma is_seg_frame h h' p xs q :
  (∀ a, a ∈ xs → h' !! a = h !! a) → is_seg h p xs q → is_seg h' p xs q.
Proof.
  revert p. induction xs as [|b xs IH]; intros p Hsame; cbn; [auto|].
  intros (-> & nd & Hnd & Hr). split; [reflexivity|]. exists nd. split.
  - rewrite Hsame; [exact Hnd | apply elem_of_cons; auto].
  - apply IH; [|exact Hr]. intros a Ha. apply Hsame, elem_of_cons. auto.
Qed.

Lemma is_list_length h p xs : is_list h p xs → (length xs ≤ size h)%nat.
Proof.
  intros H. pose proof (is_list_NoDup _ _ _ H) as Hnd.
  rewrite <- (size_list_to_set (C := gset addr) xs) by exact Hnd.
  rewrite <- (size_dom h).
  apply subseteq_size. intros a Ha. apply elem_of_list_to_set in Ha.
  apply elem_of_dom. eapply is_seg_allocated; eassumption.
Qed.

Lemma chain_is_list fuel h p xs : chain fuel h p = Some xs → is_list h p xs.
Proof.
  unfold is_list. revert p xs. induction fuel as [|f IH]; intros p xs.
  - destruct p; cbn; [discriminate|]. now intros [= <-].
  - destruct p as [a|]; cbn; [|now intros [= <-]].
    destruct (h !! a) as [nd|] eqn:Hnd; cbn; [|discriminate].
    destruct (chain f h (next nd)) as [r|] eqn:Hr; cbn; [|discriminate].
    intros [= <-]. cbn. split; [reflexivity|]. exists nd. split; [exact Hnd|].
    now apply IH.
Qed.

Lemma is_list_chain fuel h p xs :
  is_list h p xs → (length xs ≤ fuel)%nat → chain fuel h p = Some xs.
Proof.
  unfold is_list. revert p fuel. induction xs as [|a xs IH]; intros p fuel; cbn.
  - intros -> _. now destruct fuel.
  - intros (-> & nd & Hnd & Hr) Hf. destruct fuel as [|f]; [lia|].
    cbn. rewrite Hnd. cbn. rewrite (IH _ f Hr) by lia. reflexivity.
Qed.

Lemma nodes_spec h l xs : nodes h l = Some xs ↔ is_list h (head l) xs.
Proof.
  unfold nodes, walk_fuel. split.
  - apply chain_is_list.
  - intros H. apply is_list_chain; [exact H|].
    pose proof (is_list_length _ _ _ H). lia.
Qed.


Lemma snoc_cases xs : xs = [] ∨ ∃ xs0 t, xs = xs0 ++ [t].
Proof.
  induction xs as [|a xs IH] using rev_ind; [now left | right; eauto].
Qed.

Lemma find_tail_last fuel h a xs t :
  is_list h (Some a) (xs ++ [t]) → (length (xs ++ [t]) ≤ fuel)%nat →
  find_tail fuel h a = Some t ∧ ∃ nd, h !! t = Some nd ∧ next nd = None.
Proof.
  unfold is_list. revert a fuel. induction xs as [|b xs IH]; intros a fuel; cbn.
  - intros ([= ->] & nd & Hnd & Hnx) Hf. destruct fuel as [|f]; [lia|].
    cbn. rewrite Hnd. cbn. rewrite Hnx. eauto.
  - intros ([= ->] & nd & Hnd & Hr) Hf. destruct fuel as [|f]; [lia|].
    cbn. rewrite Hnd. cbn. destruct (next nd) as [c|] eqn:Hnx.
    + apply IH; [exact Hr | lia].
    + destruct xs; cbn in Hr; destruct Hr as [? _]; discriminate.
Qed.

Lemma append_spec h l node xs ys :
  is_list h (head l) xs → is_list h node ys → (∀ a, a ∈ xs → a ∉ ys) →
  ∃ h' l', append h l node = Some (h', l') ∧
           is_list h' (head l') (xs ++ ys) ∧
           (∀ a, a ∉ xs → h' !! a = h !! a) ∧
           dom h' = dom h.
Proof.
  intros Hxs Hys Hdisj. unfold append.
  destruct node as [n|].
  2:{ destruct ys as [|? ?]; [|destruct Hys; discriminate].
      exists h, l. rewrite app_nil_r. auto. }
  destruct (head l) as [hd|] eqn:Hhd.
  2:{ destruct xs as [|? ?]; [|destruct Hxs; discriminate].
      exists h, {| head := Some n |}. cbn. auto. }
  destruct (snoc_cases xs) as [->|(xs0 & t & ->)]; [discriminate Hxs|].
  pose proof (is_list_NoDup _ _ _ Hxs) as Hnd.
  pose proof (is_list_length _ _ _ Hxs) as Hlen.
  destruct (find_tail_last (walk_fuel h) h hd xs0 t Hxs) as (Hft & nd & Hlk & Hnx).
  { unfold walk_fuel. lia. }
  rewrite Hft. cbn. unfold write_next. rewrite Hlk. cbn.
  eexists _, l. split; [reflexivity|]. rewrite Hhd.
  apply NoDup_app in Hnd as (_ & Hnot & _).
  split; [|split].
  - unfold is_list. apply is_seg_app. exists (Some n). split.
    + apply is_seg_app in Hxs as (m & H1 & H2).
      pose proof (is_seg_head _ _ _ _ _ H2) as ->.
      apply is_seg_app. exists (Some t). split.
      * eapply is_seg_frame; [|exact H1]. intros a Ha.
        apply lookup_insert_ne. intros ->. apply (Hnot _ Ha). list_mem.
      * cbn. split; [reflexivity|]. eexists. split; [apply lookup_insert_eq|]. reflexivity.
    + eapply is_seg_frame; [|exact Hys]. intros a Ha.
      apply lookup_insert_ne. intros ->. eapply Hdisj; [|exact Ha]. list_mem.
  - intros a Ha. apply lookup_insert_ne. intros ->. apply Ha. list_mem.
  - apply dom_insert_lookup_L. eauto.
Qed.


Lemma detached_is_list h n nd :
  h !! n = Some nd → next nd = None → is_list h (Some n) [n].
Proof. intros Hn Hx. cbn. split; [reflexivity|]. exists nd. auto. Qed.

Lemma remove_loop_found fuel h prev pnd mid n post :
  h !! prev = Some pnd →
  is_list h (Some prev) (prev :: mid ++ n :: post) →
  (length mid ≤ fuel)%nat →
  ∃ h', remove_loop fuel h prev (next pnd) n = Some h' ∧
        is_list h' (Some prev) (prev :: mid ++ post) ∧
        (∃ nd', h' !! n = Some nd' ∧ next nd' = None) ∧
        (∀ a, a ∉ prev :: mid ++ n :: post → h' !! a = h !! a) ∧
        dom h' = dom h.
Proof.
  revert prev pnd fuel. induction mid as [|c mid IH]; intros prev pnd fuel Hp Hl Hf.
  - pose proof (is_list_NoDup _ _ _ Hl) as Hnd.
    destruct Hl as (_ & pnd' & Hp' & Hr). rewrite Hp in Hp'. injection Hp' as <-.
    cbn in Hr. destruct Hr as (Hcur & nnd & Hn & Hpost).
    apply NoDup_cons in Hnd as [Hp1 Hnd]. apply NoDup_cons in Hnd as [Hn1 _].
    assert (prev ≠ n) by (intros ->; apply Hp1; list_mem).
    rewrite Hcur. destruct fuel; cbn; (rewrite decide_True by reflexivity);
      cbn; rewrite Hn; cbn; unfold write_next; rewrite Hp; cbn;
      (rewrite lookup_insert_ne by assumption); rewrite Hn; cbn.
    all: eexists; split; [reflexivity|]; split; [|split; [|split]].
    all: try (eexists; split; [apply lookup_insert_eq | reflexivity]).
    all: try (intros a Ha; rewrite !lookup_insert_ne; [reflexivity| |];
              intros ->; apply Ha; list_mem).
    all: try (rewrite !dom_insert_lookup_L; [reflexivity | eauto |];
              rewrite lookup_insert_ne by auto; eauto).
    all: cbn; split; [reflexivity|]; eexists; split;
         [rewrite lookup_insert_ne by auto; apply lookup_insert_eq|];
         cbn; (eapply is_seg_frame; [|exact Hpost]);
         intros a Ha; rewrite !lookup_insert_ne; [reflexivity| |];
         intros ->; [apply Hp1 | apply Hn1]; list_mem.
  - pose proof (is_list_NoDup _ _ _ Hl) as Hnd.
    destruct Hl as (_ & pnd' & Hp' & Hr). rewrite Hp in Hp'. injection Hp' as <-.
    pose proof Hr as (Hcur & cnd & Hc & Hrest).
    apply NoDup_cons in Hnd as [Hp1 Hnd]. pose proof Hnd as Hnd'.
    apply NoDup_cons in Hnd' as [Hc1 _].
    assert (c ≠ n) by (intros ->; apply Hc1; list_mem).
    rewrite Hcur. destruct fuel as [|f]; [cbn in Hf; lia|].
    cbn. rewrite decide_False by assumption. rewrite Hc. cbn.
    assert (Hr' : is_list h (Some c) (c :: mid ++ n :: post))
      by (rewrite <- Hcur; exact Hr).
    destruct (IH c cnd f Hc Hr') as (h' & Hrun & Hl' & Hdet & Hframe & Hdom).
    { cbn in Hf. lia. }
    exists h'. split; [exact Hrun|]. split; [|split; [exact Hdet|split; [|exact Hdom]]].
    + cbn. split; [reflexivity|]. exists pnd. split.
      * rewrite Hframe; [exact Hp|]. intros Hin. apply Hp1. exact Hin.
      * rewrite Hcur. exact Hl'.
    + intros a Ha. apply Hframe. intros Hin. apply Ha. list_mem.
Qed.

Lemma remove_loop_absent fuel h prev cur xs n :
  is_list h cur xs → n ∉ xs → (length xs ≤ fuel)%nat →
  remove_loop fuel h prev cur n = Some h.
Proof.
  revert prev cur fuel. induction xs as [|c xs IH]; intros prev cur fuel Hl Hn Hf.
  - cbn in Hl. subst. now destruct fuel.
  - destruct Hl as (-> & cnd & Hc & Hr). destruct fuel as [|f]; [cbn in Hf; lia|].
    cbn. rewrite decide_False by (intros ->; apply Hn; list_mem).
    rewrite Hc. cbn. apply (IH c _ f Hr); [|cbn in Hf; lia].
    intros Hin. apply Hn. list_mem.
Qed.

Lemma remove_spec h l pre n post :
  is_list h (head l) (pre ++ n :: post) →
  ∃ h' l', remove h l (Some n) = Some (h', l') ∧
           is_list h' (head l') (pre ++ post) ∧
           (∃ nd', h' !! n = Some nd' ∧ next nd' = None) ∧
           (∀ a, a ∉ pre ++ n :: post → h' !! a = h !! a) ∧
           dom h' = dom h.
Proof.
  intros Hl. pose proof (is_list_NoDup _ _ _ Hl) as Hnd.
  pose proof (is_list_length _ _ _ Hl) as Hlen. unfold remove.
  destruct pre as [|b pre].
  - cbn in Hl. destruct Hl as (Hhd & nd & Hn & Hpost).
    apply NoDup_cons in Hnd as [Hn1 _].
    rewrite decide_True by assumption. rewrite Hn. cbn.
    unfold write_next. rewrite Hn. cbn.
    eexists _, _. split; [reflexivity|]. cbn. split; [|split; [|split]].
    + eapply is_seg_frame; [|exact Hpost]. intros a Ha.
      apply lookup_insert_ne. intros ->. exact (Hn1 Ha).
    + eexists. split; [apply lookup_insert_eq | reflexivity].
    + intros a Ha. apply lookup_insert_ne. intros ->. apply Ha. list_mem.
    + apply dom_insert_lookup_L. eauto.
  - pose proof Hl as (Hhd & bnd & Hb & _).
    cbn in Hnd. apply NoDup_cons in Hnd as [Hb1 _].
    assert (b ≠ n) by (intros ->; apply Hb1; list_mem).
    rewrite decide_False by (rewrite Hhd; congruence).
    rewrite Hhd in Hl.
    destruct (remove_loop_found (walk_fuel h) h b bnd pre n post Hb Hl)
      as (h' & Hrun & Hl' & Hdet & Hframe & Hdom).
    { unfold walk_fuel. cbn in Hlen. rewrite length_app in Hlen. lia. }
    revert Hrun. generalize (walk_fuel h) as fuel. intros fuel Hrun.
    rewrite Hhd. cbn. rewrite Hb. cbn. rewrite Hrun. cbn.
    exists h', l. split; [reflexivity|]. rewrite Hhd. auto.
Qed.

Lemma remove_absent h l xs n :
  is_list h (head l) xs → xs ≠ [] → n ∉ xs → remove h l (Some n) = Some (h, l).
Proof.
  intros Hl Hne Hn. pose proof (is_list_length _ _ _ Hl) as Hlen.
  destruct xs as [|b xs]; [congruence|].
  destruct Hl as (Hhd & bnd & Hb & Hr). unfold remove.
  rewrite decide_False by (rewrite Hhd; intros [= ->]; apply Hn; list_mem).
  assert (Hrun : remove_loop (walk_fuel h) h b (next bnd) n = Some h).
  { apply (remove_loop_absent _ _ _ _ xs); [exact Hr| |].
    - intros Hin. apply Hn. list_mem.
    - unfold walk_fuel. cbn in Hlen. lia. }
  revert Hrun. generalize (walk_fuel h) as fuel. intros fuel Hrun.
  rewrite Hhd. cbn. rewrite Hb. cbn. rewrite Hrun. reflexivity.
Qed.

Lemma remove_empty h l n : head l = None → remove h l (Some n) = None.
Proof.
  intros Hhd. unfold remove. rewrite Hhd.
  rewrite decide_False by discriminate. reflexivity.
Qed.

Lemma pop_front_spec h l a xs :
  is_list h (head l) (a :: xs) →
  ∃ h' l', pop_front h l = Some (h', l', a) ∧
           is_list h' (head l') xs ∧
           (∃ nd', h' !! a = Some nd' ∧ next nd' = None) ∧
           (∀ b, b ≠ a → h' !! b = h !! b) ∧
           dom h' = dom h.
Proof.
  intros Hl. pose proof (is_list_NoDup _ _ _ Hl) as Hnd.
  destruct Hl as (Hhd & nd & Ha & Hr). apply NoDup_cons in Hnd as [Ha1 _].
  unfold pop_front, write_next. rewrite Hhd. cbn. rewrite Ha. cbn.
  eexists _, _. split; [reflexivity|]. cbn. split; [|split; [|split]].
  - eapply is_seg_frame; [|exact Hr]. intros b Hb.
    apply lookup_insert_ne. intros ->. exact (Ha1 Hb).
  - eexists. split; [apply lookup_insert_eq | reflexivity].
  - intros b Hb. apply lookup_insert_ne. congruence.
  - apply dom_insert_lookup_L. eauto.
Qed.

Lemma pop_front_null h l : head l = None → pop_front h l = None.
Proof. intros Hhd. unfold pop_front. now rewrite Hhd. Qed.







End PidListFacts.

(** The unit test "Test PID Node list handling" up to its second list:
    the nodes a, b, c are the addresses 1, 2, 3. *)
Example PIDList_unit_test :
  let a := 1%positive in
  let b := 2%positive in
  let c := 3%positive in
  let after ops :=
    hl ← PidList.run_ops (PidList.test_store, PidList.mkList None) ops;
    PidList.nodes hl.1 hl.2 in
  after [PidList.OpAppend a; PidList.OpAppend b; PidList.OpAppend c] = Some [a; b; c] ∧
  after [PidList.OpAppend a; PidList.OpAppend b; PidList.OpAppend c; PidList.OpPopFront]
  = Some [b; c] ∧
  after [PidList.OpAppend a; PidList.OpAppend b; PidList.OpAppend c; PidList.OpPopFront;
         PidList.OpAppend a] = Some [b; c; a] ∧
  after [PidList.OpAppend a; PidList.OpAppend b; PidList.OpAppend c; PidList.OpPopFront;
         PidList.OpAppend a; PidList.OpRemove c] = Some [b; a] ∧
  after [PidList.OpAppend a; PidList.OpAppend b; PidList.OpAppend c; PidList.OpPopFront;
         PidList.OpAppend a; PidList.OpRemove c; PidList.OpAppend c; PidList.OpRemove c;
         PidList.OpAppend c; PidList.OpRemove b] = Some [a; c] ∧
  after [PidList.OpAppend a; PidList.OpAppend b; PidList.OpAppend c; PidList.OpPopFront;
         PidList.OpAppend a; PidList.OpRemove c; PidList.OpAppend c; PidList.OpRemove c;
         PidList.OpAppend c; PidList.OpRemove b; PidList.OpAppend b] = Some [a; c; b].
Proof. vm_compute. repeat split. Qed.



(** ** ZombieReaper *)

Section ReaperFacts.
Import PidList Reaper.
Implicit Types (h : gmap addr PIDNode) (p q : option addr) (xs ys : list addr)
         (a n t : addr) (l : PIDList).

Local Ltac list_mem :=
  rewrite ?elem_of_app, ?elem_of_cons, ?elem_of_nil in *; intuition (subst; eauto).

Lemma same_pids_refl h : same_pids h h.
Proof. intros a. reflexivity. Qed.

Lemma same_pids_trans h1 h2 h3 : same_pids h1 h2 → same_pids h2 h3 → same_pids h1 h3.
Proof. intros H12 H23 a. now rewrite H23, H12. Qed.

Lemma same_pids_dom h h' : same_pids h h' → dom h' = dom h.
Proof.
  intros H. apply set_eq. intros a. rewrite !elem_of_dom. specialize (H a).
  destruct (h !! a), (h' !! a); cbn in H; try discriminate;
    split; intros [? ?]; eauto; discriminate.
Qed.

Lemma same_pids_pid_at h h' a : same_pids h h' → pid_at h' a = pid_at h a.
Proof.
  intros H. specialize (H a). unfold pid_at.
  destruct (h !! a), (h' !! a); cbn in H; congruence.
Qed.

Lemma write_next_same_pids h a nx h' : write_next h a nx = Some h' → same_pids h h'.
Proof.
  unfold write_next. destruct (h !! a) as [nd|] eqn:Ha; cbn; [|discriminate].
  intros [= <-] b. destruct (decide (a = b)) as [<-|Hne].
  - now rewrite lookup_insert_eq, Ha.
  - now rewrite lookup_insert_ne.
Qed.

Lemma append_same_pids h l node h' l' :
  append h l node = Some (h', l') → same_pids h h'.
Proof.
  unfold append. generalize (walk_fuel h) as fuel. intros fuel.
  destruct node as [n|]; [|intros [= <- _]; apply same_pids_refl].
  destruct (head l) as [a|]; [|intros [= <- _]; apply same_pids_refl].
  destruct (find_tail fuel h a) as [t|]; cbn; [|discriminate].
  destruct (write_next h t (Some n)) as [h1|] eqn:Hw; cbn; [|discriminate].
  intros [= <- _]. eapply write_next_same_pids, Hw.
Qed.

Lemma remove_loop_same_pids fuel h prev cur n h' :
  remove_loop fuel h prev cur n = Some h' → same_pids h h'.
Proof.
  revert prev cur. induction fuel as [|f IH]; intros prev cur;
    destruct cur as [c|]; cbn; try (intros [= <-]; apply same_pids_refl).
  all: destruct (decide (c = n)) as [->|Hne].
  all: try discriminate.
  all: try (destruct (h !! n) as [cn|]; cbn; [|discriminate];
            destruct (write_next h prev (next cn)) as [h1|] eqn:Hw1; cbn; [|discriminate];
            intros Hw2; eapply same_pids_trans;
            [eapply write_next_same_pids, Hw1 | eapply write_next_same_pids, Hw2]).
  destruct (h !! c) as [cn|]; cbn; [|discriminate]. apply IH.
Qed.

Lemma remove_same_pids h l node h' l' :
  remove h l node = Some (h', l') → same_pids h h'.
Proof.
  unfold remove. generalize (walk_fuel h) as fuel. intros fuel.
  destruct node as [n|]; [|intros [= <- _]; apply same_pids_refl].
  destruct (decide (head l = Some n)).
  - destruct (h !! n) as [nd|]; cbn; [|discriminate].
    destruct (write_next h n None) as [h1|] eqn:Hw; cbn; [|discriminate].
    intros [= <- _]. eapply write_next_same_pids, Hw.
  - destruct (head l) as [hd|]; cbn; [|discriminate].
    destruct (h !! hd) as [hn|]; cbn; [|discriminate].
    destruct (remove_loop fuel h hd (next hn) n) as [h1|] eqn:Hr; cbn; [|discriminate].
    intros [= <- _]. eapply remove_loop_same_pids, Hr.
Qed.


Lemma is_seg_ptr h q xs : is_list h q xs → q = ptr_of xs.
Proof. destruct xs; cbn; [auto | now intros [-> _]]. Qed.

Lemma is_seg_same_links h h' p xs q :
  (∀ a, a ∈ xs → next <$> h' !! a = next <$> h !! a) →
  is_seg h p xs q → is_seg h' p xs q.
Proof.
  revert p. induction xs as [|b xs IH]; intros p Hsame; cbn; [auto|].
  intros (-> & nd & Hnd & Hr). split; [reflexivity|].
  pose proof (Hsame b ltac:(list_mem)) as Hb. rewrite Hnd in Hb.
  destruct (h' !! b) as [nd'|]; cbn in Hb; [|discriminate].
  injection Hb as Hb. exists nd'. split; [reflexivity|]. rewrite Hb.
  apply IH; [|exact Hr]. intros a Ha. apply Hsame. list_mem.
Qed.

Lemma wait_loop_spec (exited : Z → bool) rest :
  ∀ keep wa fuel h lc wc,
    is_list h (head lc) (keep ++ rest) →
    is_list h (head wc) wa →
    (∀ a, a ∈ keep ++ rest → a ∉ wa) →
    (length rest ≤ fuel)%nat →
    ∃ h' lc' wc',
      wait_loop fuel exited h lc wc (ptr_of rest) = Some (h', lc', wc') ∧
      is_list h' (head lc')
              (keep ++ filter (λ a, exited (pid_at h a) = false) rest) ∧
      is_list h' (head wc')
              (wa ++ filter (λ a, exited (pid_at h a) = true) rest) ∧
      (∀ a, a ∉ keep ++ rest ++ wa → h' !! a = h !! a) ∧
      same_pids h h'.
Proof.
  induction rest as [|p rest IH]; intros keep wa fuel h lc wc Hlc Hwc Hdisj Hf.
  - exists h, lc, wc. rewrite !app_nil_r in *. cbn.
    split; [now destruct fuel|]. split; [exact Hlc|]. split; [exact Hwc|].
    split; [auto | apply same_pids_refl].
  - pose proof (is_list_NoDup _ _ _ Hlc) as Hnd.
    pose proof Hlc as Hsplit. apply is_seg_app in Hsplit as (m & _ & Hp).
    destruct Hp as (_ & nd & Hnd_p & Hrest).
    pose proof (is_seg_ptr _ _ _ Hrest) as Hnext.
    assert (Hpid : pid_at h p = pid nd) by (unfold pid_at; now rewrite Hnd_p).
    apply NoDup_app in Hnd as (_ & Hkp & Hnd).
    apply NoDup_cons in Hnd as [Hp_rest _].
    destruct fuel as [|f]; [cbn in Hf; lia|].
    cbn [wait_loop ptr_of]. rewrite Hnd_p. cbn [mbind option_bind].
    rewrite Hnext. destruct (exited (pid nd)) eqn:Hex.
    + destruct (remove_spec h lc keep p rest Hlc)
        as (h1 & lc1 & Hrm & Hlc1 & (nd1 & Hp1 & Hx1) & Hfr1 & _).
      pose proof (remove_same_pids _ _ _ _ _ Hrm) as Hsp1.
      assert (Hwc1 : is_list h1 (head wc) wa).
      { eapply is_seg_frame; [|exact Hwc]. intros a Ha. apply Hfr1.
        intros Hin. exact (Hdisj a Hin Ha). }
      destruct (append_spec h1 wc (Some p) wa [p] Hwc1)
        as (h2 & wc1 & Happ & Hwc2 & Hfr2 & _).
      { eapply detached_is_list; eauto. }
      { intros a Ha Hin. apply list_elem_of_singleton in Hin as ->.
        apply (Hdisj p); [list_mem | exact Ha]. }
      pose proof (append_same_pids _ _ _ _ _ Happ) as Hsp2.
      assert (Hlc2 : is_list h2 (head lc1) (keep ++ rest)).
      { eapply is_seg_frame; [|exact Hlc1]. intros a Ha. apply Hfr2.
        intros Hin. apply (Hdisj a); [list_mem | exact Hin]. }
      destruct (IH keep (wa ++ [p]) f h2 lc1 wc1 Hlc2 Hwc2)
        as (h' & lc' & wc' & Hrun & Hl' & Hw' & Hfr' & Hsp').
      { intros a Ha Hin. apply elem_of_app in Hin as [Hin|Hin].
        - apply (Hdisj a); [list_mem | exact Hin].
        - apply list_elem_of_singleton in Hin as ->.
          apply elem_of_app in Ha as [Ha|Ha]; [exact (Hkp _ Ha ltac:(list_mem)) | auto]. }
      { cbn in Hf. lia. }
      pose proof (same_pids_trans _ _ _ Hsp1 Hsp2) as Hsp12.
      rewrite Hrm. cbn [mbind option_bind]. rewrite Happ. cbn [mbind option_bind].
      exists h', lc', wc'. split; [exact Hrun|].
      rewrite (list_filter_iff _ (λ a, exited (pid_at h a) = false)) in Hl'
        by (intros a; now rewrite (same_pids_pid_at _ _ a Hsp12)).
      rewrite (list_filter_iff _ (λ a, exited (pid_at h a) = true)) in Hw'
        by (intros a; now rewrite (same_pids_pid_at _ _ a Hsp12)).
      split; [|split; [|split]].
      * rewrite filter_cons_False by (rewrite Hpid, Hex; discriminate). exact Hl'.
      * rewrite filter_cons_True by (now rewrite Hpid, Hex).
        rewrite <- app_assoc in Hw'. exact Hw'.
      * intros a Ha. rewrite Hfr', Hfr2, Hfr1; [reflexivity|..]; intros Hin; apply Ha; list_mem.
      * eapply same_pids_trans; eassumption.
    + assert (Hlc' : is_list h (head lc) ((keep ++ [p]) ++ rest))
        by now rewrite <- app_assoc.
      destruct (IH (keep ++ [p]) wa f h lc wc Hlc' Hwc)
        as (h' & lc' & wc' & Hrun & Hl' & Hw' & Hfr' & Hsp').
      { intros a Ha. apply Hdisj. list_mem. }
      { cbn in Hf. lia. }
      exists h', lc', wc'. split; [exact Hrun|]. split; [|split; [|split]].
      * rewrite filter_cons_True by (now rewrite Hpid, Hex).
        rewrite <- app_assoc in Hl'. exact Hl'.
      * rewrite filter_cons_False by (rewrite Hpid, Hex; discriminate). exact Hw'.
      * intros a Ha. apply Hfr'. intros Hin. apply Ha. list_mem.
      * exact Hsp'.
Qed.


Lemma register_spec (z : zstate) (childPid : Z) tr fr :
  is_list (zheap z) (head (children z)) tr →
  is_list (zheap z) (head (freeChildren z)) fr →
  (∀ a, a ∈ tr → a ∉ fr) →
  let n := node_for (zheap z) fr in
  ∃ z', RegisterChild z childPid = Some z' ∧
        is_list (zheap z') (head (children z')) (tr ++ [n]) ∧
        is_list (zheap z') (head (freeChildren z')) (tail fr) ∧
        (∀ b, b ∉ tr → b ≠ n → zheap z' !! b = zheap z !! b) ∧
        dom (zheap z') = {[n]} ∪ dom (zheap z) ∧
        pid_at (zheap z') n = childPid.
Proof.
  destruct z as [h ch fl]. cbn [zheap children freeChildren].
  intros Htr Hfr Hdisj. set (n := node_for h fr).
  unfold RegisterChild. cbn [zheap children freeChildren].
  destruct fr as [|a fr].
  - (* the free list is empty: allocate *)
    cbn in Hfr. rewrite Hfr. subst n. cbn [node_for new_PIDNode].
    set (n := fresh (dom h)).
    assert (Hn : h !! n = None) by (apply not_elem_of_dom, is_fresh).
    cbn [mbind option_bind]. unfold write_pid. rewrite lookup_insert_eq.
    cbn [mbind option_bind]. rewrite insert_insert_eq.
    set (h2 := <[n := set_pid {| next := None; pid := 0 |} childPid]> h).
    assert (Htr2 : is_list h2 (head ch) tr).
    { eapply is_seg_frame; [|exact Htr]. intros b Hb. apply lookup_insert_ne.
      intros <-. destruct (is_seg_allocated _ _ _ _ _ Htr Hb) as [? ?]. congruence. }
    destruct (append_spec h2 ch (Some n) tr [n] Htr2) as (h3 & ch' & Happ & Hl3 & Hfr3 & Hdom3).
    { eapply detached_is_list; [apply lookup_insert_eq | reflexivity]. }
    { intros b Hb Hin. apply list_elem_of_singleton in Hin as ->.
      destruct (is_seg_allocated _ _ _ _ _ Htr Hb) as [? ?]. congruence. }
    rewrite Happ. cbn [mbind option_bind]. eexists. split; [reflexivity|].
    cbn [zheap children freeChildren]. split; [exact Hl3|]. split; [now rewrite Hfr|].
    split; [|split].
    + intros b Hb Hne. rewrite Hfr3 by exact Hb. now apply lookup_insert_ne.
    + rewrite Hdom3. apply dom_insert_L.
    + unfold pid_at. rewrite Hfr3.
      * unfold h2. now rewrite lookup_insert_eq.
      * intros Hb. destruct (is_seg_allocated _ _ _ _ _ Htr Hb) as [? ?]. congruence.
  - (* the free list has a head: reuse it *)
    pose proof (is_list_NoDup _ _ _ Hfr) as Hnd. apply NoDup_cons in Hnd as [Ha _].
    pose proof (is_seg_head _ _ _ _ _ Hfr) as Hhd. rewrite Hhd. subst n. cbn [node_for].
    destruct (pop_front_spec h fl a fr Hfr)
      as (h1 & fl1 & Hpop & Hfl1 & (nd1 & Ha1 & Hx1) & Hfr1 & Hdom1).
    rewrite Hpop. cbn [mbind option_bind]. unfold write_pid. rewrite Ha1.
    cbn [mbind option_bind].
    set (h2 := <[a := set_pid nd1 childPid]> h1).
    assert (Htr2 : is_list h2 (head ch) tr).
    { eapply is_seg_frame; [|exact Htr]. intros b Hb.
      assert (b ≠ a) by (intros ->; apply (Hdisj a Hb); list_mem).
      unfold h2. rewrite lookup_insert_ne by auto. now apply Hfr1. }
    destruct (append_spec h2 ch (Some a) tr [a] Htr2) as (h3 & ch' & Happ & Hl3 & Hfr3 & Hdom3).
    { eapply detached_is_list; [apply lookup_insert_eq | exact Hx1]. }
    { intros b Hb Hin. apply list_elem_of_singleton in Hin as ->.
      apply (Hdisj a Hb). list_mem. }
    rewrite Happ. cbn [mbind option_bind]. eexists. split; [reflexivity|].
    cbn [zheap children freeChildren tail]. split; [exact Hl3|]. split; [|split; [|split]].
    + eapply is_seg_frame; [|exact Hfl1]. intros b Hb.
      rewrite Hfr3 by (intros Hin; apply (Hdisj b Hin); list_mem).
      unfold h2. apply lookup_insert_ne. intros ->. exact (Ha Hb).
    + intros b Hb Hne. rewrite Hfr3 by exact Hb. unfold h2.
      rewrite lookup_insert_ne by auto. now apply Hfr1.
    + rewrite Hdom3. unfold h2. rewrite dom_insert_lookup_L by eauto. rewrite Hdom1.
      assert (Hin : a ∈ dom h)
        by (apply elem_of_dom; eapply is_seg_allocated; [exact Hfr | list_mem]).
      apply set_eq. intros b. rewrite elem_of_union, elem_of_singleton.
      split; [auto | intros [->|?]; auto].
    + unfold pid_at. rewrite Hfr3 by (intros Hin; apply (Hdisj a Hin); list_mem).
      unfold h2. now rewrite lookup_insert_eq.
Qed.

Lemma reattach_spec (z : zstate) (lc wc : PIDList) tr fr lo wa :
  is_list (zheap z) (head (children z)) tr →
  is_list (zheap z) (head (freeChildren z)) fr →
  is_list (zheap z) (head lc) lo →
  is_list (zheap z) (head wc) wa →
  (∀ a, a ∈ tr → (a ∉ fr) ∧ (a ∉ lo) ∧ (a ∉ wa)) →
  (∀ a, a ∈ fr → (a ∉ lo) ∧ (a ∉ wa)) →
  (∀ a, a ∈ lo → a ∉ wa) →
  ∃ z', reattach z lc wc = Some z' ∧
        is_list (zheap z') (head (children z')) (tr ++ lo) ∧
        is_list (zheap z') (head (freeChildren z')) (fr ++ wa) ∧
        dom (zheap z') = dom (zheap z) ∧
        same_pids (zheap z) (zheap z').
Proof.
  destruct z as [h ch fl]. cbn [zheap children freeChildren].
  intros Htr Hfr Hlo Hwa D1 D2 D3. unfold reattach. cbn [zheap children freeChildren].
  destruct (append_spec h ch (head lc) tr lo Htr Hlo) as (h1 & ch' & Happ1 & Hl1 & Hfr1 & Hdom1).
  { intros a Ha. apply (D1 a Ha). }
  assert (Hfr' : is_list h1 (head fl) fr).
  { eapply is_seg_frame; [|exact Hfr]. intros a Ha. apply Hfr1.
    intros Hin. destruct (D1 a Hin) as (? & ? & ?). auto. }
  assert (Hwa' : is_list h1 (head wc) wa).
  { eapply is_seg_frame; [|exact Hwa]. intros a Ha. apply Hfr1.
    intros Hin. destruct (D1 a Hin) as (? & ? & ?). auto. }
  destruct (append_spec h1 fl (head wc) fr wa Hfr' Hwa') as (h2 & fl' & Happ2 & Hl2 & Hfr2 & Hdom2).
  { intros a Ha. apply (D2 a Ha). }
  rewrite Happ1. cbn [mbind option_bind]. rewrite Happ2. cbn [mbind option_bind].
  eexists. split; [reflexivity|]. cbn [zheap children freeChildren].
  split; [|split; [exact Hl2|split]].
  - eapply is_seg_frame; [|exact Hl1]. intros a Ha. apply Hfr2.
    intros Hin. apply elem_of_app in Ha as [Ha|Ha].
    + destruct (D1 a Ha) as (? & ? & ?). auto.
    + destruct (D2 a Hin) as (? & ?). auto.
  - now rewrite Hdom2.
  - eapply same_pids_trans; eapply append_same_pids; eassumption.
Qed.

Lemma wait_children_spec (exited : Z → bool) (z : zstate) (lc : PIDList) lo :
  is_list (zheap z) (head lc) lo →
  ∃ z' lc' wc',
    wait_children exited z lc = Some (z', lc', wc') ∧
    children z' = children z ∧ freeChildren z' = freeChildren z ∧
    is_list (zheap z') (head lc')
            (filter (λ a, exited (pid_at (zheap z) a) = false) lo) ∧
    is_list (zheap z') (head wc')
            (filter (λ a, exited (pid_at (zheap z) a) = true) lo) ∧
    (∀ a, a ∉ lo → zheap z' !! a = zheap z !! a) ∧
    same_pids (zheap z) (zheap z').
Proof.
  intros Hlo. unfold wait_children.
  pose proof (is_list_length _ _ _ Hlo) as Hlen.
  destruct (wait_loop_spec exited lo [] [] (walk_fuel (zheap z)) (zheap z) lc
                           {| head := None |} Hlo)
    as (h' & lc' & wc' & Hrun & Hl' & Hw' & Hfr & Hsp).
  { reflexivity. }
  { intros a _. apply not_elem_of_nil. }
  { unfold walk_fuel. lia. }
  rewrite <- (is_seg_ptr _ _ _ Hlo) in Hrun. rewrite Hrun. cbn [mbind option_bind].
  eexists _, lc', wc'. split; [reflexivity|]. cbn [zheap children freeChildren].
  split; [reflexivity|]. split; [reflexivity|]. split; [exact Hl'|]. split; [exact Hw'|].
  split; [|exact Hsp]. intros a Ha. apply Hfr. rewrite app_nil_r. exact Ha.
Qed.


Lemma node_for_cases h fr :
  (fr = [] ∧ node_for h fr ∉ dom h) ∨ (∃ fr', fr = node_for h fr :: fr').
Proof.
  destruct fr as [|a fr]; [left | right; eauto].
  split; [reflexivity | apply is_fresh].
Qed.

Lemma is_list_null h xs : is_list h None xs → xs = [].
Proof. destruct xs; [reflexivity | intros [? _]; discriminate]. Qed.

Lemma sys_inv_init : sys_inv sys_init.
Proof.
  exists [], [], [], []. cbn. repeat split; try reflexivity;
    try (intros; apply not_elem_of_nil).
  - rewrite dom_empty_L. intros H. now apply not_elem_of_empty in H.
  - intros [H|[H|[H|H]]]; now apply not_elem_of_nil in H.
Qed.

Lemma register_inv (s : sys) (childPid : Z) :
  sys_inv s →
  ∃ z', RegisterChild (zs s) childPid = Some z' ∧ sys_inv {| zs := z'; hp := hp s |}.
Proof.
  intros (tr & fr & lo & wa & Htr & Hfr & Hlo & Hwa & D1 & D2 & D3 & Hdom).
  destruct (register_spec (zs s) childPid tr fr Htr Hfr) as (z' & Hreg & Htr' & Hfr' & Hframe & Hdom' & _).
  { intros a Ha. apply (D1 a Ha). }
  exists z'. split; [exact Hreg|].
  set (n := node_for (zheap (zs s)) fr) in *.
  assert (Hn : (n ∉ tr) ∧ (n ∉ lo) ∧ (n ∉ wa) ∧ (n ∉ tail fr)).
  { destruct (node_for_cases (zheap (zs s)) fr) as [[-> Hfresh]|[fr' E]]; fold n in Hfresh || fold n in E.
    - repeat split; try (intros Hin; apply Hfresh, Hdom; auto).
    - assert (Hnf : n ∈ fr) by (rewrite E; list_mem).
      pose proof (is_list_NoDup _ _ _ Hfr) as Hnd. rewrite E in Hnd.
      apply NoDup_cons in Hnd as [Hn' _].
      destruct (D2 n Hnf) as [? ?].
      repeat split; auto.
      + intros Hin. destruct (D1 n Hin) as (? & _). auto.
      + rewrite E. exact Hn'. }
  destruct Hn as (Hn1 & Hn2 & Hn3 & Hn4).
  assert (Htail : ∀ a, a ∈ tail fr → a ∈ fr) by (destruct fr; cbn; [auto | intros; list_mem]).
  exists (tr ++ [n]), (tail fr), lo, wa. cbn [zs hp].
  split; [exact Htr'|]. split; [exact Hfr'|].
  split; [|split; [|split; [|split; [|split]]]].
  - eapply is_seg_frame; [|exact Hlo]. intros a Ha. apply Hframe.
    + intros Hin. destruct (D1 a Hin) as (? & ? & ?). auto.
    + intros ->. auto.
  - eapply is_seg_frame; [|exact Hwa]. intros a Ha. apply Hframe.
    + intros Hin. destruct (D1 a Hin) as (? & ? & ?). auto.
    + intros ->. auto.
  - intros a Ha. apply elem_of_app in Ha as [Ha|Ha].
    + destruct (D1 a Ha) as (? & ? & ?). repeat split; auto.
    + apply list_elem_of_singleton in Ha as ->. auto.
  - intros a Ha. apply (D2 a (Htail a Ha)).
  - exact D3.
  - intros a. rewrite Hdom', elem_of_union, elem_of_singleton, Hdom, elem_of_app,
      list_elem_of_singleton.
    destruct (node_for_cases (zheap (zs s)) fr) as [[E Hfresh]|[fr' E]].
    + rewrite E. cbn. rewrite elem_of_nil. tauto.
    + fold n in E. rewrite E. cbn. rewrite elem_of_cons. tauto.
Qed.

Lemma sys_step_inv (s : sys) (act : action) (s' : sys) :
  sys_inv s → sys_step s act = Some s' → sys_inv s'.
Proof.
  intros Hinv Hstep. destruct act as [childPid| |exited|].
  - destruct (register_inv s childPid Hinv) as (z' & Hreg & Hinv').
    unfold sys_step in Hstep. rewrite Hreg in Hstep. cbn in Hstep.
    now injection Hstep as <-.
  - destruct s as [z ph].
    destruct Hinv as (tr & fr & lo & wa & Htr & Hfr & Hlo & Hwa & D1 & D2 & D3 & Hdom).
    destruct ph; cbn in Hstep; try discriminate. injection Hstep as <-.
    cbn in *. apply is_list_null in Hlo as ->. apply is_list_null in Hwa as ->.
    exists [], fr, tr, []. cbn.
    split; [reflexivity|]. split; [exact Hfr|]. split; [exact Htr|]. split; [reflexivity|].
    split; [|split; [|split]].
    + intros a Ha. now apply not_elem_of_nil in Ha.
    + intros a Ha. split; [|apply not_elem_of_nil].
      intros Hin. destruct (D1 a Hin) as (? & _). auto.
    + intros a _. apply not_elem_of_nil.
    + intros a. rewrite Hdom, !elem_of_nil. tauto.
  - destruct s as [z ph].
    destruct Hinv as (tr & fr & lo & wa & Htr & Hfr & Hlo & Hwa & D1 & D2 & D3 & Hdom).
    destruct ph as [|lc|]; cbn [sys_step hp zs] in Hstep; try discriminate.
    cbn [zs hp held fst snd] in *. apply is_list_null in Hwa as ->.
    destruct (wait_children_spec exited z lc lo Hlo)
      as (z' & lc' & wc' & Hrun & Hch & Hfl & Hl' & Hw' & Hframe & Hsp).
    rewrite Hrun in Hstep. cbn in Hstep. injection Hstep as <-.
    exists tr, fr, (filter (λ a, exited (pid_at (zheap z) a) = false) lo),
           (filter (λ a, exited (pid_at (zheap z) a) = true) lo).
    cbn. rewrite Hch, Hfl.
    split; [|split; [|split; [exact Hl'|split; [exact Hw'|]]]].
    + eapply is_seg_frame; [|exact Htr]. intros a Ha. apply Hframe.
      destruct (D1 a Ha) as (? & ? & ?). auto.
    + eapply is_seg_frame; [|exact Hfr]. intros a Ha. apply Hframe.
      destruct (D2 a Ha) as (? & ?). auto.
    + split; [|split; [|split]].
      * intros a Ha. destruct (D1 a Ha) as (? & ? & ?).
        rewrite !list_elem_of_filter. tauto.
      * intros a Ha. destruct (D2 a Ha) as (? & ?).
        rewrite !list_elem_of_filter. tauto.
      * intros a. rewrite !list_elem_of_filter. intros [E1 _] [E2 _]. congruence.
      * intros a. rewrite (same_pids_dom _ _ Hsp), Hdom, !list_elem_of_filter, elem_of_nil.
        destruct (exited (pid_at (zheap z) a)); intuition congruence.
  - destruct s as [z ph].
    destruct Hinv as (tr & fr & lo & wa & Htr & Hfr & Hlo & Hwa & D1 & D2 & D3 & Hdom).
    destruct ph as [| |lc wc]; cbn [sys_step hp zs] in Hstep; try discriminate.
    cbn [zs hp held fst snd] in *.
    destruct (reattach_spec z lc wc tr fr lo wa Htr Hfr Hlo Hwa D1 D2 D3)
      as (z' & Hrun & Hl1 & Hl2 & Hdom' & _).
    rewrite Hrun in Hstep. cbn in Hstep. injection Hstep as <-.
    exists (tr ++ lo), (fr ++ wa), [], []. cbn.
    split; [exact Hl1|]. split; [exact Hl2|]. split; [reflexivity|]. split; [reflexivity|].
    split; [|split; [|split]].
    + intros a Ha. rewrite elem_of_app. rewrite elem_of_app in Ha.
      repeat split; try apply not_elem_of_nil.
      intros [Hin|Hin]; destruct Ha as [Ha|Ha].
      * destruct (D1 a Ha) as (? & ? & ?). auto.
      * destruct (D2 a Hin) as (? & ?). auto.
      * destruct (D1 a Ha) as (? & ? & ?). auto.
      * exact (D3 a Ha Hin).
    + intros a _. split; apply not_elem_of_nil.
    + intros a Ha. now apply not_elem_of_nil in Ha.
    + intros a. rewrite Hdom', Hdom, !elem_of_app, !elem_of_nil. tauto.
Qed.

Lemma sys_run_inv (acts : list action) (s s' : sys) :
  sys_inv s → sys_run s acts = Some s' → sys_inv s'.
Proof.
  revert s. induction acts as [|act acts IH]; intros s Hinv Hrun.
  - cbn in Hrun. now injection Hrun as <-.
  - cbn in Hrun. destruct (sys_step s act) as [s1|] eqn:Hstep; [|discriminate].
    cbn in Hrun. eapply IH; [|exact Hrun]. eapply sys_step_inv; eassumption.
Qed.








End ReaperFacts.




(** C10. [pop_front] has no defined result on a list whose head is [NULL];
    on a head that points to a node it returns that node, unlinked, and
    moves the head on.  The registration calls it only when the free list
    has a head: with an empty free list it allocates instead.  In every
    state that registrations and handler blocks lead to, the registration
    has a defined result, so the undefined case is never met there. *)
Theorem pop_front_partial_and_guarded :
  (∀ (h : gmap PidList.addr PidList.PIDNode) (l : PidList.PIDList),
      PidList.head l = None → PidList.pop_front h l = None) ∧
  (∀ (h : gmap PidList.addr PidList.PIDNode) (l : PidList.PIDList) a nd,
      PidList.head l = Some a → h !! a = Some nd →
      PidList.pop_front h l
      = Some (<[a := PidList.set_next nd None]> h, PidList.mkList (PidList.next nd), a)) ∧
  (∀ (z : Reaper.zstate) childPid,
      PidList.head (Reaper.freeChildren z) = None →
      Reaper.RegisterChild z childPid
      = (h2 ← PidList.write_pid (Reaper.new_PIDNode (Reaper.zheap z)).1
                                (Reaper.new_PIDNode (Reaper.zheap z)).2 childPid;
         r ← PidList.append h2 (Reaper.children z)
                            (Some (Reaper.new_PIDNode (Reaper.zheap z)).2);
         Some (Reaper.mkZ r.1 r.2 (Reaper.freeChildren z)))) ∧
  (∀ (acts : list Reaper.action) (s : Reaper.sys) childPid,
      Reaper.sys_run Reaper.sys_init acts = Some s →
      is_Some (Reaper.RegisterChild (Reaper.zs s) childPid)).
Proof.
  split; [|split; [|split]].
  - intros h l Hhd. now apply pop_front_null.
  - intros h l a nd Hhd Ha. unfold PidList.pop_front, PidList.write_next.
    rewrite Hhd. cbn. rewrite Ha. reflexivity.
  - intros z childPid Hhd. unfold Reaper.RegisterChild. rewrite Hhd.
    unfold Reaper.new_PIDNode. cbn [fst snd mbind option_bind].
    match goal with
    | |- context [PidList.write_pid ?h ?a ?v] =>
        destruct (PidList.write_pid h a v) as [h2|]
    end; cbn [mbind option_bind]; [|reflexivity].
    match goal with
    | |- context [PidList.append ?h ?l ?n] =>
        destruct (PidList.append h l n) as [[h3 ch]|]
    end; reflexivity.
  - intros acts s childPid Hrun.
    destruct (register_inv s childPid (sys_run_inv acts _ _ sys_inv_init Hrun))
      as (z' & Hreg & _).
    rewrite Hreg. eauto.
Qed.

Lemma pop_front_partial_and_guarded_witness :
  PidList.pop_front PidList.test_store (PidList.mkList (Some 2%positive))
  = Some (<[2%positive := PidList.set_next (PidList.mkNode None 501) None]> PidList.test_store,
          PidList.mkList None, 2%positive) ∧
  is_Some (Reaper.RegisterChild (Reaper.zs Reaper.demo_final) 77).
Proof.
  split.
  - apply (proj1 (proj2 pop_front_partial_and_guarded)
                 PidList.test_store (PidList.mkList (Some 2%positive))
                 2%positive (PidList.mkNode None 501)); reflexivity.
  - apply (proj2 (proj2 (proj2 pop_front_partial_and_guarded)) Reaper.demo_actions).
    vm_compute. reflexivity.
Defined.

(** ** ProcessLauncher and InjectionCoordinator *)

Section LauncherFacts.
Import Tokenizer EnvEngine Launcher.
Variable P : Platform.

Lemma log_events_app w evs1 evs2 :
  log_events (log_events w evs1) evs2 = log_events w (evs1 ++ evs2).
Proof. unfold log_events. cbn. now rewrite app_assoc. Qed.

Lemma bind_emit {R B} (e : event) (k : unit → M R B) w :
  bind (emit e) k w = k tt (log_events w [e]).
Proof. reflexivity. Qed.

Lemma bind_pure {R A B} (a : A) (k : A → M R B) w : bind (pure a) k w = k a w.
Proof. reflexivity. Qed.

Lemma bind_ret {R A B} (r : R) (k : A → M R B) w :
  bind (ret r) k w = (w, Return r).
Proof. reflexivity. Qed.

Lemma bind_assoc {R A B C} (m : M R A) (k1 : A → M R B) (k2 : B → M R C) w :
  bind (bind m k1) k2 w = bind m (fun a => bind (k1 a) k2) w.
Proof. unfold bind. destruct (m w) as [w' []]; reflexivity. Qed.

Lemma bind_for_each_printf {R A B} (l : list A) (fmt : A → string)
      (args : A → list parg) (k : unit → M R B) w :
  bind (for_each l (fun x => printf (fmt x) (args x))) k w
  = k tt (log_events w (map (fun x => EvPrintf (fmt x) (args x)) l)).
Proof.
  revert w. induction l as [|x l IH]; intros w.
  - cbn [for_each map]. rewrite bind_pure. f_equal.
    unfold log_events. destruct w. cbn. now rewrite app_nil_r.
  - cbn [for_each map]. rewrite bind_assoc. unfold printf at 1. rewrite bind_emit.
    rewrite IH, log_events_app. reflexivity.
Qed.

Lemma bind_execve {R B} path argv envp (k : Z → M R B) w :
  bind (execve P path argv envp) k w
  = if execve_succeeds P path argv envp
    then (log_events w [EvExecve path argv envp], Replaced)
    else k (-1)%Z (log_events w [EvExecve path argv envp]).
Proof.
  unfold execve. rewrite bind_assoc, bind_emit.
  destruct (execve_succeeds P path argv envp); reflexivity.
Qed.

Lemma errors_of_accepted (appName cmdLine : string) :
  ParseCommandLine appName cmdLine ≠ [] → ParseCommandLine_errors cmdLine = [].
Proof.
  intros Hne. rewrite ParseCommandLine_errors_spec.
  destruct (well_formed_dec cmdLine) as [Hwf|Hwf].
  - unfold well_formed in Hwf. now rewrite Hwf.
  - now rewrite (parse_malformed appName cmdLine Hwf) in Hne.
Qed.

Lemma errors_of_malformed (cmdLine : string) :
  ¬ well_formed cmdLine → ParseCommandLine_errors cmdLine = [malformed_format cmdLine].
Proof.
  intros Hwf. rewrite ParseCommandLine_errors_spec. unfold malformed_format.
  unfold well_formed in Hwf.
  destruct (quote_scan QOut (c_str cmdLine)) as [[]|]; [now destruct Hwf|reflexivity..].
Qed.

Lemma malformed_format_log (cmdLine : string) :
  is_malformed_log cmdLine (EvLog (malformed_format cmdLine) [PStr (c_str cmdLine)]) = true.
Proof.
  unfold is_malformed_log, malformed_format. rewrite String.eqb_refl, andb_true_r.
  destruct (quote_scan QOut (c_str cmdLine)) as [[]|]; reflexivity.
Qed.

(** The two guards in front of the constant block. *)
Lemma RunProcess_empty_app appName workDir cmdLine envp pauseAtMain so se w :
  str_empty appName = true →
  RunProcess P appName workDir cmdLine envp pauseAtMain so se w = (w, Return 0%Z).
Proof. intros Happ. unfold RunProcess. rewrite Happ. reflexivity. Qed.

Lemma RunProcess_malformed appName workDir cmdLine envp pauseAtMain so se w :
  str_empty appName = false → ¬ well_formed cmdLine →
  RunProcess P appName workDir cmdLine envp pauseAtMain so se w
  = (log_events w [EvLog (malformed_format cmdLine) [PStr (c_str cmdLine)]], Return 0%Z).
Proof.
  intros Happ Hwf. unfold RunProcess. rewrite Happ. cbn [when]. rewrite bind_pure.
  rewrite (errors_of_malformed _ Hwf). cbn [for_each].
  rewrite bind_assoc, bind_emit, bind_pure.
  now rewrite (parse_malformed _ _ Hwf).
Qed.

(** What [RunProcess] does once the two guards are passed. *)
Lemma RunProcess_past_guards appName workDir cmdLine envp pauseAtMain so se w :
  str_empty appName = false →
  ParseCommandLine (shellExpand P appName) cmdLine ≠ [] →
  ∃ prints,
    forallb is_printf prints = true ∧
    RunProcess P appName workDir cmdLine envp pauseAtMain so se w
    = (log_events w (prints ++ redirect_tail),
       if execve_succeeds P hmi argv_buf env_buf then Replaced else Return 0%Z).
Proof.
  intros Happ Hargv. unfold RunProcess. rewrite Happ. cbn [when]. rewrite bind_pure.
  rewrite (errors_of_accepted _ _ Hargv). cbn [for_each]. rewrite bind_pure.
  destruct (ParseCommandLine (shellExpand P appName) cmdLine) as [|a0 argvList] eqn:E;
    [congruence|].
  cbn [when]. rewrite bind_pure.
  unfold printf at 1. rewrite bind_emit.
  unfold printf at 1. rewrite bind_emit.
  rewrite bind_for_each_printf.
  unfold printf at 1. rewrite bind_emit.
  rewrite bind_for_each_printf.
  unfold printf at 1. rewrite bind_emit.
  rewrite bind_for_each_printf.
  unfold printf at 1. rewrite bind_emit.
  unfold chdir. rewrite bind_emit.
  unfold printf at 1. rewrite bind_emit.
  rewrite bind_execve. rewrite !log_events_app.
  match goal with
  | |- context [log_events w (?a1 ++ ?a2 ++ ?a3 ++ ?a4 ++ ?a5 ++ ?a6 ++ ?a7 ++ ?a8
                              ++ [EvChdir hard_workdir] ++ ?t)] =>
      exists (a1 ++ a2 ++ a3 ++ a4 ++ a5 ++ a6 ++ a7 ++ a8)
  end.
  split.
  - rewrite !forallb_app. repeat (apply andb_true_iff; split); try reflexivity.
    all: apply forallb_forall; intros e He;
      apply in_map_iff in He as (x & <- & _); reflexivity.
  - rewrite <- !app_assoc.
    destruct (execve_succeeds P hmi argv_buf env_buf); [reflexivity|].
    rewrite bind_ret. reflexivity.
Qed.

Lemma redirect_tail_ok : forallb is_redirect_event redirect_tail = true.
Proof.
  unfold redirect_tail. cbn [forallb is_redirect_event].
  rewrite !String.eqb_refl, !bool_decide_eq_true_2 by reflexivity. reflexivity.
Qed.

Lemma printf_is_redirect_event evs :
  forallb is_printf evs = true → forallb is_redirect_event evs = true.
Proof.
  rewrite !forallb_forall. intros H e He. specialize (H e He). now destruct e.
Qed.

Lemma log_events_nil w : log_events w [] = w.
Proof. unfold log_events. destruct w. cbn. now rewrite app_nil_r. Qed.

(** Every call ends in one of three ways. *)
Lemma RunProcess_cases appName workDir cmdLine envp pauseAtMain so se w :
  (∃ logs,
      forallb (is_malformed_log cmdLine) logs = true ∧
      RunProcess P appName workDir cmdLine envp pauseAtMain so se w
      = (log_events w logs, Return 0%Z)) ∨
  ∃ prints,
    forallb is_printf prints = true ∧
    RunProcess P appName workDir cmdLine envp pauseAtMain so se w
    = (log_events w (prints ++ redirect_tail),
       if execve_succeeds P hmi argv_buf env_buf then Replaced else Return 0%Z).
Proof.
  destruct (str_empty appName) eqn:Happ.
  { left. exists []. split; [reflexivity|].
    now rewrite log_events_nil, RunProcess_empty_app. }
  destruct (well_formed_dec cmdLine) as [Hwf|Hwf].
  - right. apply RunProcess_past_guards; [exact Happ|].
    destruct (parse_well_formed (shellExpand P appName) cmdLine Hwf) as [toks ->].
    discriminate.
  - left. eexists [_]. split; [|now apply RunProcess_malformed].
    cbn [forallb]. now rewrite malformed_format_log.
Qed.





(** Every event of a call is one of the constant launch or the
    tokenizer's error. *)
Lemma RunProcess_events appName workDir cmdLine envp pauseAtMain so se w :
  ∃ evs,
    forallb (λ e, is_redirect_event e || is_malformed_log cmdLine e) evs = true ∧
    (RunProcess P appName workDir cmdLine envp pauseAtMain so se w).1 = log_events w evs.
Proof.
  destruct (RunProcess_cases appName workDir cmdLine envp pauseAtMain so se w)
    as [(logs & Hl & ->)|(prints & Hp & ->)].
  - exists logs. split; [|reflexivity].
    rewrite forallb_forall in Hl |- *. intros e He. rewrite (Hl e He). apply orb_true_r.
  - exists (prints ++ redirect_tail). split; [|reflexivity].
    rewrite forallb_forall. intros e He. apply in_app_or in He as [He|He].
    + pose proof (printf_is_redirect_event _ Hp) as Hr. rewrite forallb_forall in Hr.
      now rewrite (Hr e He).
    + pose proof redirect_tail_ok as Hr. rewrite forallb_forall in Hr.
      now rewrite (Hr e He).
Qed.



End LauncherFacts.

(** C1 (amended). Every call of [RunProcess] either returns pid 0 or ends
    in a successful [execve]; it leaves the two PID lists and the handler
    flag as they were, and all it does to the outside is print, change to
    the constant directory, [execve] the constant program and log the
    tokenizer's error: it never forks, installs the handler, redirects
    pipes or remembers a child.  When the app path is not empty and the
    command line tokenizes, the call ends with the change to the constant
    directory, one more line of output and the [execve] of [hmi] with the
    constant arguments and environment, and returns 0 when that [execve]
    fails.  With an empty app path the call returns 0 at the first guard
    and does nothing.  With a non-empty app path and a malformed command
    line it returns 0 at the second guard: the tokenizer's error is all
    that happens, without a change of directory or an [execve]. *)
Theorem RunProcess_constant_redirect
        (P : Launcher.Platform) (appName workDir cmdLine : string)
        (envp : list string) (pauseAtMain : bool)
        (stdoutPipe stderrPipe : option (Z * Z)) (w : Launcher.world) :
  let r := Launcher.RunProcess P appName workDir cmdLine envp pauseAtMain
                               stdoutPipe stderrPipe w in
  (r.2 = Launcher.Return 0%Z ∨ r.2 = Launcher.Replaced) ∧
  Launcher.zombies r.1 = Launcher.zombies w ∧
  Launcher.installed r.1 = Launcher.installed w ∧
  (∃ evs, Launcher.trace r.1 = Launcher.trace w ++ evs ∧
          forallb (λ e, Launcher.is_redirect_event e
                        || Launcher.is_malformed_log cmdLine e) evs = true) ∧
  (appName ≠ "" → Tokenizer.well_formed cmdLine →
   ∃ prints,
     forallb Launcher.is_printf prints = true ∧
     Launcher.trace r.1 = Launcher.trace w ++ prints ++ Launcher.redirect_tail ∧
     r.2 = if Launcher.execve_succeeds P Launcher.hmi Launcher.argv_buf Launcher.env_buf
           then Launcher.Replaced else Launcher.Return 0%Z) ∧
  (appName = "" → r = (w, Launcher.Return 0%Z)) ∧
  (appName ≠ "" → ¬ Tokenizer.well_formed cmdLine →
   r = (Launcher.log_events w
          [Launcher.EvLog (Launcher.malformed_format cmdLine)
                          [Launcher.PStr (c_str cmdLine)]],
        Launcher.Return 0%Z)).
Proof.
  intros r.
  assert (Hne : appName ≠ "" → str_empty appName = false)
    by (destruct appName; [congruence | reflexivity]).
  split; [|split; [|split; [|split; [|split; [|split]]]]].
  - subst r. destruct (RunProcess_cases P appName workDir cmdLine envp pauseAtMain
                                         stdoutPipe stderrPipe w)
      as [(logs & _ & ->)|(prints & _ & ->)].
    + now left.
    + cbn. destruct (Launcher.execve_succeeds _ _ _ _); auto.
  - subst r. destruct (RunProcess_events P appName workDir cmdLine envp pauseAtMain
                                          stdoutPipe stderrPipe w) as (evs & _ & ->).
    reflexivity.
  - subst r. destruct (RunProcess_events P appName workDir cmdLine envp pauseAtMain
                                          stdoutPipe stderrPipe w) as (evs & _ & ->).
    reflexivity.
  - subst r. destruct (RunProcess_events P appName workDir cmdLine envp pauseAtMain
                                          stdoutPipe stderrPipe w) as (evs & Hevs & ->).
    exists evs. split; [reflexivity | exact Hevs].
  - intros Happ Hwf. subst r.
    destruct (RunProcess_past_guards P appName workDir cmdLine envp pauseAtMain
                                     stdoutPipe stderrPipe w) as (prints & Hp & ->).
    + now apply Hne.
    + destruct (parse_well_formed (Launcher.shellExpand P appName) cmdLine Hwf) as [toks ->].
      discriminate.
    + exists prints. split; [exact Hp|]. split; reflexivity.
  - intros ->. subst r. now apply RunProcess_empty_app.
  - intros Happ Hwf. subst r. apply RunProcess_malformed; [now apply Hne | exact Hwf].
Qed.

Lemma RunProcess_constant_redirect_witness :
  Launcher.EvExecve Launcher.hmi Launcher.argv_buf Launcher.env_buf
  ∈ Launcher.trace
      (Launcher.RunProcess Launcher.demo_platform "/usr/bin/app" "" "--name 'a b'"
                           ["A=1"] false None None Launcher.w0).1.
Proof.
  destruct (proj1 (proj2 (proj2 (proj2 (proj2
              (RunProcess_constant_redirect Launcher.demo_platform "/usr/bin/app" ""
                 "--name 'a b'" ["A=1"] false None None Launcher.w0))))))
    as (prints & _ & Htr & _).
  - discriminate.
  - reflexivity.
  - rewrite Htr. unfold Launcher.redirect_tail.
    apply elem_of_app. right. apply elem_of_app. right.
    apply elem_of_cons. right. apply elem_of_cons. right.
    apply elem_of_cons. left. reflexivity.
Defined.

(** C1 as stated fails on a command line with an unterminated quote: the
    tokenizer logs its error and the call returns 0 at the second guard,
    before the change of directory and the [execve]. *)
Lemma RunProcess_malformed_command_line_returns_early :
  let r := Launcher.RunProcess Launcher.demo_platform "/usr/bin/app" ""
                               "--name 'unterminated" ["A=1"] false None None
                               Launcher.w0 in
  r = (Launcher.log_events Launcher.w0
         [Launcher.EvLog Tokenizer.malformed_at_end
                         [Launcher.PStr "--name 'unterminated"]],
       Launcher.Return 0%Z) ∧
  ¬ (Launcher.EvChdir Launcher.hard_workdir ∈ Launcher.trace r.1) ∧
  ¬ (Launcher.EvExecve Launcher.hmi Launcher.argv_buf Launcher.env_buf
     ∈ Launcher.trace r.1).
Proof.
  cbn zeta.
  assert (E : Launcher.RunProcess Launcher.demo_platform "/usr/bin/app" ""
                                  "--name 'unterminated" ["A=1"] false None None
                                  Launcher.w0
              = (Launcher.log_events Launcher.w0
                   [Launcher.EvLog Tokenizer.malformed_at_end
                                   [Launcher.PStr "--name 'unterminated"]],
                 Launcher.Return 0%Z)) by (vm_compute; reflexivity).
  rewrite E. split; [reflexivity|].
  split; intros H; cbn in H; apply list_elem_of_singleton in H; discriminate.
Qed.




(** * Further properties *)

(** ** PID lists *)

Section PidListMore.
Import PidList.
Implicit Types (h : gmap addr PIDNode) (p q : option addr) (xs ys : list addr)
         (a n t : addr) (l : PIDList).

Local Ltac list_mem :=
  rewrite ?elem_of_app, ?elem_of_cons, ?elem_of_nil in *; intuition (subst; eauto).

Lemma is_seg_prefix h p xs q ys :
  is_seg h p xs q → is_list h p ys → ∃ zs, ys = xs ++ zs ∧ is_list h q zs.
Proof.
  revert p ys. induction xs as [|a xs IH]; intros p ys Hseg Hl.
  - cbn in Hseg. subst. exists ys. auto.
  - destruct Hseg as (-> & nd & Hnd & Hseg).
    destruct ys as [|b ys]; [unfold is_list in Hl; cbn in Hl; discriminate|].
    destruct Hl as ([= <-] & nd' & Hnd' & Hl). rewrite Hnd in Hnd'. injection Hnd' as <-.
    destruct (IH _ _ Hseg Hl) as (zs & -> & Hzs). exists zs. auto.
Qed.

Lemma no_list_on_cycle h n cyc :
  cyc ≠ [] → is_seg h (Some n) cyc (Some n) → ∀ ys, ¬ is_list h (Some n) ys.
Proof.
  intros Hne Hcyc ys Hl.
  destruct (is_seg_prefix _ _ _ _ _ Hcyc Hl) as (zs & -> & Hzs).
  pose proof (is_seg_functional _ _ _ _ Hl Hzs) as E.
  apply (f_equal length) in E. rewrite length_app in E.
  destruct cyc; [congruence | cbn in E; lia].
Qed.

Lemma find_tail_is_list fuel h a t :
  find_tail fuel h a = Some t → ∃ zs, is_list h (Some a) zs.
Proof.
  revert a. induction fuel as [|f IH]; intros a; cbn; [discriminate|].
  destruct (h !! a) as [nd|] eqn:Hnd; cbn; [|discriminate].
  destruct (next nd) as [nx|] eqn:Hnx.
  - intros H. destruct (IH _ H) as (zs & Hzs). exists (a :: zs).
    split; [reflexivity|]. exists nd. rewrite Hnx. auto.
  - intros _. exists [a]. split; [reflexivity|]. exists nd. rewrite Hnx. split; [auto|reflexivity].
Qed.

Lemma append_member_cycle h l xs n :
  is_list h (head l) xs → n ∈ xs →
  ∃ h', append h l (Some n) = Some (h', l) ∧ ∀ ys, ¬ is_list h' (head l) ys.
Proof.
  intros Hxs Hin. pose proof (is_list_NoDup _ _ _ Hxs) as Hnd.
  pose proof (is_list_length _ _ _ Hxs) as Hlen.
  destruct (snoc_cases xs) as [->|(xs0 & t & ->)]; [now apply elem_of_nil in Hin|].
  destruct xs0 as [|hd0 xs1] eqn:Exs0.
  - (* one node: it becomes its own successor *)
    apply list_elem_of_singleton in Hin as ->.
    destruct Hxs as (Hhd & nd & Hlk & Hnx). unfold append. rewrite Hhd.
    assert (Hft : find_tail (walk_fuel h) h t = Some t).
    { unfold walk_fuel. cbn. rewrite Hlk. cbn. now rewrite Hnx. }
    rewrite Hft. cbn. unfold write_next. rewrite Hlk. cbn.
    eexists. split; [reflexivity|]. intros ys.
    apply (no_list_on_cycle _ t [t]); [discriminate|].
    split; [reflexivity|]. eexists. split; [apply lookup_insert_eq | reflexivity].
  - rewrite <- Exs0 in *. clear Exs0 hd0 xs1.
    pose proof Hxs as Hxs'.
    assert (Hhd : ∃ hd, head l = Some hd).
    { destruct xs0; destruct Hxs as (? & _); eauto. }
    destruct Hhd as (hd & Hhd). rewrite Hhd in Hxs'.
    destruct (find_tail_last (walk_fuel h) h hd xs0 t Hxs') as (Hft & nd & Hlk & Hnx).
    { unfold walk_fuel. lia. }
    unfold append. rewrite Hhd, Hft. cbn. unfold write_next. rewrite Hlk. cbn.
    eexists. split; [reflexivity|].
    set (h' := <[t := set_next nd (Some n)]> h).
    apply NoDup_app in Hnd as (_ & Hnot & _).
    assert (Hseg : is_seg h' (head l) (xs0 ++ [t]) (Some n)).
    { apply is_seg_app in Hxs as (m & H1 & H2).
      pose proof (is_seg_head _ _ _ _ _ H2) as ->.
      apply is_seg_app. exists (Some t). split.
      - eapply is_seg_frame; [|exact H1]. intros a Ha.
        apply lookup_insert_ne. intros ->. apply (Hnot _ Ha). list_mem.
      - split; [reflexivity|]. eexists. split; [apply lookup_insert_eq | reflexivity]. }
    apply list_elem_of_split in Hin as (pre & post & E). rewrite E in Hseg.
    apply is_seg_app in Hseg as (m & Hpre & Hcyc).
    pose proof (is_seg_head _ _ _ _ _ Hcyc) as ->.
    intros ys Hys. rewrite <- Hhd in Hys.
    destruct (is_seg_prefix _ _ _ _ _ Hpre Hys) as (zs & _ & Hzs).
    exact (no_list_on_cycle _ n (n :: post) ltac:(discriminate) Hcyc zs Hzs).
Qed.

End PidListMore.

(** X1. Appending the head of a second list splices the whole second list
    onto the first: the first list then holds its own nodes followed by
    those of the second, and the second list's head still reaches its
    nodes, which the two lists now share. *)
Theorem PIDList_append_splices_chain
        (h : gmap PidList.addr PidList.PIDNode) (l1 l2 : PidList.PIDList)
        (xs ys : list PidList.addr) :
  PidList.nodes h l1 = Some xs →
  PidList.nodes h l2 = Some ys →
  (∀ a, a ∈ xs → a ∉ ys) →
  ∃ h' l1',
    PidList.append h l1 (PidList.head l2) = Some (h', l1') ∧
    PidList.nodes h' l1' = Some (xs ++ ys) ∧
    PidList.nodes h' l2 = Some ys ∧
    PidList.same_pids h h'.
Proof.
  intros H1 H2 Hdisj. apply nodes_spec in H1, H2.
  destruct (append_spec h l1 (PidList.head l2) xs ys H1 H2 Hdisj)
    as (h' & l1' & Happ & Hl & Hfr & _).
  exists h', l1'. split; [exact Happ|]. split; [now apply nodes_spec|]. split.
  - apply nodes_spec. eapply is_seg_frame; [|exact H2].
    intros a Ha. apply Hfr. intros Hin. exact (Hdisj a Hin Ha).
  - eapply append_same_pids, Happ.
Qed.

Lemma PIDList_append_splices_chain_witness :
  ∃ h' l1',
    PidList.append PidList.two_lists_store (PidList.mkList (Some 1%positive))
                   (Some 4%positive) = Some (h', l1') ∧
    PidList.nodes h' l1'
    = Some [1%positive; 3%positive; 2%positive; 4%positive; 5%positive; 6%positive].
Proof.
  destruct (PIDList_append_splices_chain PidList.two_lists_store
              (PidList.mkList (Some 1%positive)) (PidList.mkList (Some 4%positive))
              [1%positive; 3%positive; 2%positive] [4%positive; 5%positive; 6%positive])
    as (h' & l1' & Happ & Hn & _).
  - vm_compute. reflexivity.
  - vm_compute. reflexivity.
  - intros a Ha Hb.
    rewrite !elem_of_cons, elem_of_nil in Ha, Hb.
    destruct Ha as [->|[->|[->|[]]]]; destruct Hb as [?|[?|[?|[]]]]; discriminate.
  - exists h', l1'. split; [exact Happ | exact Hn].
Defined.

(** X2. Appending a node that is already on the list closes the chain on
    itself: the call returns, and afterwards no walk from the head ends, so
    the list has no node sequence any more and the tail search of a later
    [append] never finds a tail. *)
Theorem PIDList_append_of_member_closes_cycle
        (h : gmap PidList.addr PidList.PIDNode) (l : PidList.PIDList)
        (xs : list PidList.addr) (n : PidList.addr) :
  PidList.nodes h l = Some xs → n ∈ xs →
  ∃ h', PidList.append h l (Some n) = Some (h', l) ∧
        PidList.nodes h' l = None ∧
        (∀ fuel hd, PidList.head l = Some hd → PidList.find_tail fuel h' hd = None).
Proof.
  intros Hn Hin. apply nodes_spec in Hn.
  destruct (append_member_cycle h l xs n Hn Hin) as (h' & Happ & Hno).
  exists h'. split; [exact Happ|]. split.
  - destruct (PidList.nodes h' l) as [ys|] eqn:E; [|reflexivity].
    apply nodes_spec in E. now destruct (Hno ys).
  - intros fuel hd Hhd. destruct (PidList.find_tail fuel h' hd) as [t|] eqn:E; [|reflexivity].
    destruct (find_tail_is_list _ _ _ _ E) as (zs & Hzs).
    rewrite <- Hhd in Hzs. now destruct (Hno zs).
Qed.

Lemma PIDList_append_of_member_closes_cycle_witness :
  ∃ h', PidList.append PidList.two_lists_store (PidList.mkList (Some 1%positive))
                       (Some 3%positive)
        = Some (h', PidList.mkList (Some 1%positive)) ∧
        PidList.nodes h' (PidList.mkList (Some 1%positive)) = None.
Proof.
  destruct (PIDList_append_of_member_closes_cycle PidList.two_lists_store
              (PidList.mkList (Some 1%positive))
              [1%positive; 3%positive; 2%positive] 3%positive)
    as (h' & Happ & Hn & _).
  - vm_compute. reflexivity.
  - rewrite !elem_of_cons. auto.
  - exists h'. auto.
Defined.

(** X3. [remove] at its edges: a [NULL] node changes nothing; a node that
    is not on a non-empty list leaves the list and the store as they were;
    and on an empty list any node other than [NULL] makes the function read
    through the [NULL] head, which has no defined result. *)
Theorem PIDList_remove_edge_cases :
  (∀ (h : gmap PidList.addr PidList.PIDNode) (l : PidList.PIDList),
      PidList.remove h l None = Some (h, l)) ∧
  (∀ (h : gmap PidList.addr PidList.PIDNode) (l : PidList.PIDList) xs n,
      PidList.nodes h l = Some xs → xs ≠ [] → n ∉ xs →
      PidList.remove h l (Some n) = Some (h, l)) ∧
  (∀ (h : gmap PidList.addr PidList.PIDNode) (l : PidList.PIDList) n,
      PidList.head l = None → PidList.remove h l (Some n) = None).
Proof.
  split; [reflexivity|]. split.
  - intros h l xs n Hn Hne Hout. apply nodes_spec in Hn.
    eapply remove_absent; eassumption.
  - intros h l n Hhd. now apply remove_empty.
Qed.

Lemma PIDList_remove_edge_cases_witness :
  PidList.remove PidList.two_lists_store (PidList.mkList (Some 1%positive)) (Some 5%positive)
  = Some (PidList.two_lists_store, PidList.mkList (Some 1%positive)) ∧
  PidList.remove PidList.two_lists_store (PidList.mkList None) (Some 5%positive) = None.
Proof.
  split.
  - apply (proj1 (proj2 PIDList_remove_edge_cases) PidList.two_lists_store
                 (PidList.mkList (Some 1%positive)) [1%positive; 3%positive; 2%positive]).
    + vm_compute. reflexivity.
    + discriminate.
    + rewrite !elem_of_cons, elem_of_nil.
      intros [?|[?|[?|[]]]]; discriminate.
  - apply (proj2 (proj2 PIDList_remove_edge_cases)). reflexivity.
Defined.

(** ** ZombieReaper *)

Section ReaperMore.
Import PidList Reaper.
Implicit Types (h : gmap addr PIDNode) (p q : option addr) (xs ys : list addr)
         (a n t : addr) (l : PIDList).

Local Ltac list_mem :=
  rewrite ?elem_of_app, ?elem_of_cons, ?elem_of_nil in *; intuition (subst; eauto).

Lemma map_filter_exited (exited : Z → bool) h (b : bool) xs :
  map (pid_at h) (filter (λ a, exited (pid_at h a) = b) xs)
  = filter (λ v : Z, exited v = b) (map (pid_at h) xs).
Proof.
  induction xs as [|x xs IH]; [reflexivity|]. cbn [map].
  rewrite !filter_cons. destruct (decide (exited (pid_at h x) = b)) as [Hp|Hp].
  - cbn [map]. now rewrite IH.
  - exact IH.
Qed.

Lemma pids_spec h l xs : is_list h (head l) xs → pids h l = Some (map (pid_at h) xs).
Proof. intros Hl. unfold pids. now rewrite (proj2 (nodes_spec _ _ _) Hl). Qed.

Lemma map_pid_at_same h h' xs :
  same_pids h h' → map (pid_at h') xs = map (pid_at h) xs.
Proof. intros Hsp. apply map_ext. intros a. now apply same_pids_pid_at. Qed.

(** The handler from a state where the two lists are disjoint chains, with
    what it does to the store. *)
Lemma ZombieWaiter_full (exited : Z → bool) (z : zstate) tr fr :
  is_list (zheap z) (head (children z)) tr →
  is_list (zheap z) (head (freeChildren z)) fr →
  (∀ a, a ∈ tr → a ∉ fr) →
  ∃ z', ZombieWaiter exited z = Some z' ∧
        is_list (zheap z') (head (children z'))
                (filter (λ a, exited (pid_at (zheap z) a) = false) tr) ∧
        is_list (zheap z') (head (freeChildren z'))
                (fr ++ filter (λ a, exited (pid_at (zheap z) a) = true) tr) ∧
        same_pids (zheap z) (zheap z').
Proof.
  intros Htr Hfr Hdisj. unfold ZombieWaiter, detach.
  set (z1 := {| zheap := zheap z; children := {| head := None |};
                freeChildren := freeChildren z |}).
  set (lc := {| head := head (children z) |}).
  destruct (wait_children_spec exited z1 lc tr Htr)
    as (z2 & lc' & wc' & Hrun & Hch & Hfl & Hl' & Hw' & Hframe & Hsp1).
  rewrite Hrun. cbn [mbind option_bind].
  destruct (reattach_spec z2 lc' wc' [] fr
              (filter (λ a, exited (pid_at (zheap z) a) = false) tr)
              (filter (λ a, exited (pid_at (zheap z) a) = true) tr))
    as (z' & Hre & Hl1 & Hl2 & _ & Hsp2); try assumption.
  - now rewrite Hch.
  - rewrite Hfl. eapply is_seg_frame; [|exact Hfr]. intros a Ha. apply Hframe.
    intros Hin. exact (Hdisj a Hin Ha).
  - intros a Ha. now apply not_elem_of_nil in Ha.
  - intros a Ha. rewrite !list_elem_of_filter.
    split; intros [_ Hin]; exact (Hdisj a Hin Ha).
  - intros a. rewrite !list_elem_of_filter. intros [E1 _] [E2 _]. congruence.
  - exists z'. split; [exact Hre|]. split; [exact Hl1|]. split; [exact Hl2|].
    eapply same_pids_trans; eassumption.
Qed.

(** A registration changes the pid of the node it uses and of no other. *)
Lemma register_other_pids (z z' : zstate) (childPid : Z) fr :
  is_list (zheap z) (head (freeChildren z)) fr →
  RegisterChild z childPid = Some z' →
  ∀ b, b ≠ node_for (zheap z) fr → pid <$> zheap z' !! b = pid <$> zheap z !! b.
Proof.
  destruct z as [h ch fl]. cbn [zheap children freeChildren].
  intros Hfr Hreg b Hb. unfold RegisterChild in Hreg. cbn [zheap children freeChildren] in Hreg.
  destruct fr as [|a fr].
  - cbn in Hfr. rewrite Hfr in Hreg. cbn [node_for] in Hb.
    unfold new_PIDNode in Hreg. cbn [mbind option_bind] in Hreg.
    unfold write_pid in Hreg. rewrite lookup_insert_eq in Hreg.
    cbn [mbind option_bind] in Hreg. rewrite insert_insert_eq in Hreg.
    match type of Hreg with
    | context [append ?h2 ?c ?nn] =>
        destruct (append h2 c nn) as [[h3 ch']|] eqn:Happ
    end; cbn [mbind option_bind] in Hreg; [|discriminate].
    injection Hreg as <-. cbn [zheap].
    rewrite (append_same_pids _ _ _ _ _ Happ b).
    now rewrite lookup_insert_ne by auto.
  - pose proof (is_seg_head _ _ _ _ _ Hfr) as Hhd. rewrite Hhd in Hreg.
    cbn [node_for] in Hb.
    destruct (pop_front_spec h fl a fr Hfr)
      as (h1 & fl1 & Hpop & _ & (nd1 & Ha1 & _) & Hfr1 & _).
    rewrite Hpop in Hreg. cbn [mbind option_bind] in Hreg.
    unfold write_pid in Hreg. rewrite Ha1 in Hreg. cbn [mbind option_bind] in Hreg.
    match type of Hreg with
    | context [append ?h2 ?c ?nn] =>
        destruct (append h2 c nn) as [[h3 ch']|] eqn:Happ
    end; cbn [mbind option_bind] in Hreg; [|discriminate].
    injection Hreg as <-. cbn [zheap].
    rewrite (append_same_pids _ _ _ _ _ Happ b).
    rewrite lookup_insert_ne by auto. now rewrite Hfr1.
Qed.

Lemma register_size (z : zstate) (childPid : Z) tr fr :
  is_list (zheap z) (head (children z)) tr →
  is_list (zheap z) (head (freeChildren z)) fr →
  (∀ a, a ∈ tr → a ∉ fr) →
  ∃ z', RegisterChild z childPid = Some z' ∧
        (fr ≠ [] → dom (zheap z') = dom (zheap z)) ∧
        (fr = [] → size (zheap z') = S (size (zheap z))).
Proof.
  intros Htr Hfr Hdisj.
  destruct (register_spec z childPid tr fr Htr Hfr Hdisj)
    as (z' & Hreg & _ & _ & _ & Hdom & _).
  exists z'. split; [exact Hreg|].
  destruct (node_for_cases (zheap z) fr) as [[E Hfresh]|[fr' E]].
  - split; [congruence|]. intros _.
    rewrite <- !(size_dom (D := gset addr)), Hdom.
    rewrite size_union by (apply disjoint_singleton_l; exact Hfresh).
    now rewrite size_singleton.
  - split; [|rewrite E; discriminate]. intros _. rewrite Hdom.
    assert (Hin : node_for (zheap z) fr ∈ dom (zheap z)).
    { apply elem_of_dom. eapply is_seg_allocated; [exact Hfr|]. rewrite E at 2. list_mem. }
    apply set_eq. intros b. rewrite elem_of_union, elem_of_singleton.
    split; [intros [->|?]; auto | auto].
Qed.

Lemma sys_step_size (s s' : sys) (act : action) :
  sys_inv s → sys_step s act = Some s' →
  (size (zheap (zs s')) ≤ size (zheap (zs s)) + registrations [act])%nat.
Proof.
  intros Hinv Hstep. destruct act as [childPid| |exited|].
  - destruct Hinv as (tr & fr & lo & wa & Htr & Hfr & _ & _ & D1 & _).
    destruct (register_size (zs s) childPid tr fr Htr Hfr) as (z' & Hreg & Hre & Hal).
    { intros a Ha. apply (D1 a Ha). }
    unfold sys_step in Hstep. rewrite Hreg in Hstep. cbn in Hstep.
    injection Hstep as <-. cbn [zs registrations].
    destruct fr as [|a fr].
    + rewrite Hal by reflexivity. lia.
    + rewrite <- !(size_dom (D := gset addr)), Hre by discriminate. lia.
  - destruct s as [z ph]. destruct ph; cbn in Hstep; try discriminate.
    injection Hstep as <-. cbn. lia.
  - destruct s as [z ph].
    destruct Hinv as (tr & fr & lo & wa & _ & _ & Hlo & _).
    destruct ph as [|lc|]; cbn [sys_step hp zs] in Hstep; try discriminate.
    cbn [zs hp held fst snd] in *.
    destruct (wait_children_spec exited z lc lo Hlo)
      as (z' & lc' & wc' & Hrun & _ & _ & _ & _ & _ & Hsp).
    rewrite Hrun in Hstep. cbn in Hstep. injection Hstep as <-. cbn [zs registrations].
    rewrite <- !(size_dom (D := gset addr)), (same_pids_dom _ _ Hsp). lia.
  - destruct s as [z ph].
    destruct Hinv as (tr & fr & lo & wa & Htr & Hfr & Hlo & Hwa & D1 & D2 & D3 & _).
    destruct ph as [| |lc wc]; cbn [sys_step hp zs] in Hstep; try discriminate.
    cbn [zs hp held fst snd] in *.
    destruct (reattach_spec z lc wc tr fr lo wa Htr Hfr Hlo Hwa D1 D2 D3)
      as (z' & Hrun & _ & _ & Hdom' & _).
    rewrite Hrun in Hstep. cbn in Hstep. injection Hstep as <-. cbn [zs registrations].
    rewrite <- !(size_dom (D := gset addr)), Hdom'. lia.
Qed.

Lemma registrations_cons act acts :
  registrations (act :: acts) = (registrations [act] + registrations acts)%nat.
Proof. destruct act; reflexivity. Qed.

Lemma sys_run_size (acts : list action) (s s' : sys) :
  sys_inv s → sys_run s acts = Some s' →
  (size (zheap (zs s')) ≤ size (zheap (zs s)) + registrations acts)%nat.
Proof.
  revert s. induction acts as [|act acts IH]; intros s Hinv Hrun.
  - cbn in Hrun. injection Hrun as <-. cbn. lia.
  - cbn [sys_run] in Hrun. destruct (sys_step s act) as [s1|] eqn:Hstep; [|discriminate].
    cbn [mbind option_bind] in Hrun.
    pose proof (sys_step_size _ _ _ Hinv Hstep) as H1.
    pose proof (IH s1 (sys_step_inv _ _ _ Hinv Hstep) Hrun) as H2.
    rewrite registrations_cons. lia.
Qed.

Lemma delete_chain_spec fr :
  ∀ fuel h p,
    is_list h p fr → (length fr ≤ fuel)%nat →
    ∃ h', delete_chain fuel h p = Some h' ∧
          ∀ a, h' !! a = if decide (a ∈ fr) then None else h !! a.
Proof.
  induction fr as [|b fr IH]; intros fuel h p Hl Hf.
  - cbn in Hl. subst. exists h. split; [now destruct fuel|].
    intros a. rewrite decide_False by apply not_elem_of_nil. reflexivity.
  - pose proof (is_list_NoDup _ _ _ Hl) as Hnd. apply NoDup_cons in Hnd as [Hb _].
    destruct Hl as (-> & nd & Hlk & Hr). destruct fuel as [|f]; [cbn in Hf; lia|].
    cbn [delete_chain]. rewrite Hlk. cbn [mbind option_bind].
    destruct (IH f (delete b h) (next nd)) as (h' & Hrun & Hlook).
    { eapply is_seg_frame; [|exact Hr]. intros a Ha.
      apply lookup_delete_ne. intros ->. exact (Hb Ha). }
    { cbn in Hf. lia. }
    exists h'. split; [exact Hrun|]. intros a. rewrite Hlook.
    destruct (decide (a ∈ fr)) as [Hin|Hout].
    + rewrite decide_True by list_mem. reflexivity.
    + destruct (decide (a = b)) as [->|Hne].
      * rewrite decide_True by list_mem. apply lookup_delete_eq.
      * rewrite decide_False by list_mem. now apply lookup_delete_ne.
Qed.

End ReaperMore.

(** X4. A run of the handler from a state in which no handler is between
    its blocks always has a result; it neither allocates nor frees a node
    and leaves every stored pid as it was; the tracked pids afterwards are
    the tracked pids before without those whose wait succeeded, in the same
    order, and those go to the end of the free list. *)
Theorem ZombieWaiter_pids_and_store
        (acts : list Reaper.action) (s : Reaper.sys) (exited : Z → bool) :
  Reaper.sys_run Reaper.sys_init acts = Some s →
  Reaper.hp s = Reaper.Idle →
  let z := Reaper.zs s in
  ∃ z' ps fs,
    PidList.pids (Reaper.zheap z) (Reaper.children z) = Some ps ∧
    PidList.pids (Reaper.zheap z) (Reaper.freeChildren z) = Some fs ∧
    Reaper.ZombieWaiter exited z = Some z' ∧
    dom (Reaper.zheap z') = dom (Reaper.zheap z) ∧
    PidList.same_pids (Reaper.zheap z) (Reaper.zheap z') ∧
    PidList.pids (Reaper.zheap z') (Reaper.children z')
    = Some (filter (λ p, exited p = false) ps) ∧
    PidList.pids (Reaper.zheap z') (Reaper.freeChildren z')
    = Some (fs ++ filter (λ p, exited p = true) ps).
Proof.
  intros Hrun Hidle z. subst z.
  destruct (sys_run_inv acts _ _ sys_inv_init Hrun)
    as (tr & fr & lo & wa & Htr & Hfr & _ & _ & D1 & _).
  destruct (ZombieWaiter_full exited (Reaper.zs s) tr fr Htr Hfr)
    as (z' & Hz & Htr' & Hfr' & Hsp).
  { intros a Ha. apply (D1 a Ha). }
  exists z', (map (PidList.pid_at (Reaper.zheap (Reaper.zs s))) tr),
         (map (PidList.pid_at (Reaper.zheap (Reaper.zs s))) fr).
  split; [now apply pids_spec|]. split; [now apply pids_spec|].
  split; [exact Hz|]. split; [now apply same_pids_dom|]. split; [exact Hsp|]. split.
  - rewrite (pids_spec _ _ _ Htr'), (map_pid_at_same _ _ _ Hsp). f_equal.
    apply map_filter_exited.
  - rewrite (pids_spec _ _ _ Hfr'), (map_pid_at_same _ _ _ Hsp), map_app. do 2 f_equal.
    apply map_filter_exited.
Qed.

Lemma ZombieWaiter_pids_and_store_witness :
  ∃ z', Reaper.ZombieWaiter (λ p, Z.eqb p 7) (Reaper.zs Reaper.demo_final) = Some z' ∧
        PidList.pids (Reaper.zheap z') (Reaper.children z') = Some [6%Z; 9%Z] ∧
        PidList.pids (Reaper.zheap z') (Reaper.freeChildren z') = Some [7%Z].
Proof.
  destruct (ZombieWaiter_pids_and_store Reaper.demo_actions Reaper.demo_final
                                        (λ p, Z.eqb p 7))
    as (z' & ps & fs & Hps & Hfs & Hz & _ & _ & Hc & Hf).
  - vm_compute. reflexivity.
  - reflexivity.
  - exists z'. split; [exact Hz|].
    vm_compute in Hps, Hfs. injection Hps as <-. injection Hfs as <-.
    split; [exact Hc | exact Hf].
Defined.

(** X5. In every state that registrations and handler blocks lead to, a
    registration has a result, puts the child's pid last on the tracked pid
    sequence and leaves the pids before it; it takes no new node while the
    free list has one and exactly one new node when the free list is empty;
    and the store never holds more nodes than there were registrations. *)
Theorem RegisterChild_pids_and_reuse
        (acts : list Reaper.action) (s : Reaper.sys) (childPid : Z) :
  Reaper.sys_run Reaper.sys_init acts = Some s →
  let z := Reaper.zs s in
  ∃ z' ps,
    PidList.pids (Reaper.zheap z) (Reaper.children z) = Some ps ∧
    Reaper.RegisterChild z childPid = Some z' ∧
    PidList.pids (Reaper.zheap z') (Reaper.children z') = Some (ps ++ [childPid]) ∧
    (PidList.head (Reaper.freeChildren z) ≠ None →
     dom (Reaper.zheap z') = dom (Reaper.zheap z)) ∧
    (PidList.head (Reaper.freeChildren z) = None →
     size (Reaper.zheap z') = S (size (Reaper.zheap z))) ∧
    (size (Reaper.zheap z) ≤ Reaper.registrations acts)%nat.
Proof.
  intros Hrun z. subst z.
  pose proof (sys_run_inv acts _ _ sys_inv_init Hrun) as Hinv.
  pose proof (sys_run_size acts _ _ sys_inv_init Hrun) as Hsize.
  destruct Hinv as (tr & fr & lo & wa & Htr & Hfr & _ & _ & D1 & _).
  assert (Hdisj : ∀ a, a ∈ tr → a ∉ fr) by (intros a Ha; apply (D1 a Ha)).
  destruct (register_spec (Reaper.zs s) childPid tr fr Htr Hfr Hdisj)
    as (z' & Hreg & Htr' & _ & _ & _ & Hpid).
  destruct (register_size (Reaper.zs s) childPid tr fr Htr Hfr Hdisj)
    as (z'' & Hreg' & Hre & Hal).
  rewrite Hreg in Hreg'. injection Hreg' as <-.
  exists z', (map (PidList.pid_at (Reaper.zheap (Reaper.zs s))) tr).
  split; [now apply pids_spec|]. split; [exact Hreg|]. split; [|split; [|split]].
  - rewrite (pids_spec _ _ _ Htr'), map_app. cbn [map]. rewrite Hpid. f_equal. f_equal.
    apply map_ext_in. intros a Ha. apply list_elem_of_In in Ha.
    unfold PidList.pid_at.
    pose proof (register_other_pids _ _ _ fr Hfr Hreg a) as Hsame.
    assert (Hne : a ≠ Reaper.node_for (Reaper.zheap (Reaper.zs s)) fr).
    { intros ->.
      destruct (node_for_cases (Reaper.zheap (Reaper.zs s)) fr) as [[_ Hfresh]|[fr' E]].
      - apply Hfresh, elem_of_dom. eapply is_seg_allocated; [exact Htr | exact Ha].
      - apply (Hdisj _ Ha). rewrite E at 2. apply elem_of_cons. now left. }
    specialize (Hsame Hne).
    destruct (Reaper.zheap z' !! a), (Reaper.zheap (Reaper.zs s) !! a);
      cbn in Hsame; congruence.
  - intros Hhd. apply Hre. intros ->. now apply Hhd.
  - intros Hhd. apply Hal. rewrite Hhd in Hfr. now apply is_list_null in Hfr.
  - cbn in Hsize. rewrite map_size_empty in Hsize. exact Hsize.
Qed.

Lemma RegisterChild_pids_and_reuse_witness :
  ∃ z', Reaper.RegisterChild (Reaper.zs Reaper.one_reaped_final) 77 = Some z' ∧
        PidList.pids (Reaper.zheap z') (Reaper.children z') = Some [6%Z; 77%Z] ∧
        dom (Reaper.zheap z') = dom (Reaper.zheap (Reaper.zs Reaper.one_reaped_final)).
Proof.
  destruct (RegisterChild_pids_and_reuse Reaper.one_reaped Reaper.one_reaped_final 77)
    as (z' & ps & Hps & Hreg & Hc & Hre & _).
  - vm_compute. reflexivity.
  - exists z'. split; [exact Hreg|].
    vm_compute in Hps. injection Hps as <-.
    split; [exact Hc | apply Hre; discriminate].
Defined.

(** X6. [Shutdown] from a state in which no handler is between its blocks:
    it deletes exactly the nodes of the free list, so the tracked list is
    as before and the store holds the tracked nodes only; it writes neither
    head pointer, so when the free list was not empty its head still holds
    the address of a deleted node and a registration afterwards, finding
    the head not [NULL], reads that node and has no defined result; when
    the free list was empty the state is unchanged. *)
Theorem Shutdown_frees_free_list (acts : list Reaper.action) (s : Reaper.sys) :
  Reaper.sys_run Reaper.sys_init acts = Some s →
  Reaper.hp s = Reaper.Idle →
  let z := Reaper.zs s in
  ∃ tr fr z',
    PidList.nodes (Reaper.zheap z) (Reaper.children z) = Some tr ∧
    PidList.nodes (Reaper.zheap z) (Reaper.freeChildren z) = Some fr ∧
    Reaper.Shutdown z = Some z' ∧
    PidList.nodes (Reaper.zheap z') (Reaper.children z') = Some tr ∧
    (∀ a, a ∈ dom (Reaper.zheap z') ↔ a ∈ tr) ∧
    Reaper.freeChildren z' = Reaper.freeChildren z ∧
    (fr ≠ [] → ∀ childPid, Reaper.RegisterChild z' childPid = None) ∧
    (fr = [] → z' = z).
Proof.
  intros Hrun Hidle z. subst z.
  destruct (sys_run_inv acts _ _ sys_inv_init Hrun)
    as (tr & fr & lo & wa & Htr & Hfr & Hlo & Hwa & D1 & D2 & D3 & Hdom).
  rewrite Hidle in Hlo, Hwa. cbn in Hlo, Hwa.
  apply is_list_null in Hlo as ->. apply is_list_null in Hwa as ->.
  destruct (Reaper.zs s) as [h ch fl] eqn:Ez. cbn [Reaper.zheap Reaper.children Reaper.freeChildren] in *.
  pose proof (is_list_length _ _ _ Hfr) as Hlen.
  destruct (delete_chain_spec fr (PidList.walk_fuel h) h (PidList.head fl) Hfr)
    as (h' & Hdel & Hlook).
  { unfold PidList.walk_fuel. lia. }
  exists tr, fr. eexists.
  split; [now apply nodes_spec|]. split; [now apply nodes_spec|].
  unfold Reaper.Shutdown. cbn [Reaper.zheap Reaper.children Reaper.freeChildren].
  rewrite Hdel. cbn [mbind option_bind]. split; [reflexivity|].
  cbn [Reaper.zheap Reaper.children Reaper.freeChildren].
  split; [|split; [|split; [reflexivity|split]]].
  - apply nodes_spec. eapply is_seg_frame; [|exact Htr]. intros a Ha.
    rewrite Hlook. rewrite decide_False; [reflexivity|]. apply (D1 a Ha).
  - intros a. rewrite elem_of_dom, Hlook. destruct (decide (a ∈ fr)) as [Hin|Hout].
    + split; [intros [? ?]; discriminate|]. intros Ha. now destruct (D1 a Ha) as (? & _).
    + rewrite <- elem_of_dom, Hdom, !elem_of_nil. tauto.
  - intros Hne childPid. destruct fr as [|a fr]; [congruence|].
    pose proof (is_seg_head _ _ _ _ _ Hfr) as Hhd.
    unfold Reaper.RegisterChild. cbn [Reaper.zheap Reaper.children Reaper.freeChildren].
    rewrite Hhd. unfold PidList.pop_front. rewrite Hhd. cbn [mbind option_bind].
    rewrite Hlook, decide_True by (apply elem_of_cons; now left). reflexivity.
  - intros ->. cbn in Hfr. rewrite Hfr in Hdel.
    assert (h' = h) as -> by (destruct (PidList.walk_fuel h); cbn in Hdel; congruence).
    reflexivity.
Qed.

Lemma Shutdown_frees_free_list_witness :
  ∃ z', Reaper.Shutdown (Reaper.zs Reaper.one_reaped_final) = Some z' ∧
        PidList.nodes (Reaper.zheap z') (Reaper.children z') = Some [2%positive] ∧
        Reaper.RegisterChild z' 77 = None.
Proof.
  destruct (Shutdown_frees_free_list Reaper.one_reaped Reaper.one_reaped_final)
    as (tr & fr & z' & Htr & Hfr & Hs & Hn & _ & _ & Hreg & _).
  - vm_compute. reflexivity.
  - reflexivity.
  - exists z'. split; [exact Hs|].
    vm_compute in Htr, Hfr. injection Htr as <-. injection Hfr as <-.
    split; [exact Hn | apply Hreg; discriminate].
Defined.

(** ** CommandLineTokenizer *)

Section TokenizerMore.
Import Tokenizer.

Lemma word_char_cases (ch : ascii) :
  is_word_char ch = true →
  Ascii.eqb ch space_char = false ∧ Ascii.eqb ch tab_char = false ∧
  Ascii.eqb ch dquote_char = false ∧ Ascii.eqb ch squote_char = false ∧
  Ascii.eqb ch nul = false.
Proof.
  unfold is_word_char, is_blank_char.
  destruct (Ascii.eqb ch space_char), (Ascii.eqb ch tab_char), (Ascii.eqb ch dquote_char),
    (Ascii.eqb ch squote_char), (Ascii.eqb ch nul); cbn; intros H; try discriminate; auto.
Qed.

Lemma blank_char_not_nul (ch : ascii) : is_blank_char ch = true → Ascii.eqb ch nul = false.
Proof.
  unfold is_blank_char. intros H. apply orb_true_iff in H as [H|H];
    apply Ascii.eqb_eq in H; subst; reflexivity.
Qed.

Lemma blank_no_nul (s : string) : blank s = true → has_char nul s = false.
Proof.
  induction s as [|ch s IH]; [reflexivity|]. cbn. intros H.
  apply andb_true_iff in H as [Hc Hs]. rewrite (blank_char_not_nul _ Hc). now apply IH.
Qed.

Lemma word_chars_no_nul (s : string) : str_forall is_word_char s = true → has_char nul s = false.
Proof.
  induction s as [|ch s IH]; [reflexivity|]. cbn. intros H.
  apply andb_true_iff in H as [Hc Hs].
  destruct (word_char_cases _ Hc) as (_ & _ & _ & _ & ->). now apply IH.
Qed.

(** Outside quotes a blank ends the argument that is being read, if there
    is one. *)
Lemma blank_step (ch : ascii) (rest : string) (argv : list string) (a : string) (h : bool) :
  is_blank_char ch = true →
  parse_loop (String ch rest) argv a h false false
  = parse_loop rest (if negb (str_empty a) || h then argv ++ [a] else argv) "" false false false.
Proof. intros H. unfold is_blank_char in H. cbn [parse_loop negb andb]. now rewrite H. Qed.

Lemma blank_run (s rest : string) (argv : list string) :
  blank s = true →
  parse_loop (s +:+ rest) argv "" false false false = parse_loop rest argv "" false false false.
Proof.
  induction s as [|ch s IH]; [reflexivity|]. cbn [blank str_forall]. intros H.
  apply andb_true_iff in H as [Hc Hs]. rewrite str_app_String, blank_step by exact Hc.
  cbn. now apply IH.
Qed.

Lemma word_run (s rest : string) (argv : list string) (a : string) (h : bool) :
  str_forall is_word_char s = true →
  parse_loop (s +:+ rest) argv a h false false = parse_loop rest argv (a +:+ s) h false false.
Proof.
  revert a. induction s as [|ch s IH]; intros a.
  - now rewrite str_app_nil_r.
  - cbn [str_forall]. intros H. apply andb_true_iff in H as [Hc Hs].
    destruct (word_char_cases _ Hc) as (E1 & E2 & E3 & E4 & _).
    rewrite str_app_String. cbn [parse_loop negb andb]. rewrite E1, E2, E3, E4. cbn [orb andb].
    rewrite IH by exact Hs. now rewrite <- str_app_cons.
Qed.

Lemma words_run (items : list (string * string)) (argv : list string) :
  words_ok items = true →
  parse_loop (words_text items) argv "" false false false = argv ++ map fst items.
Proof.
  revert argv. induction items as [|[w s] items IH]; intros argv Hok.
  - cbn. now rewrite app_nil_r.
  - cbn [words_ok fst snd] in Hok.
    apply andb_true_iff in Hok as [Hok Hrest]. apply andb_true_iff in Hok as [Hok Hsep].
    apply andb_true_iff in Hok as [Hw Hs]. unfold word in Hw.
    apply andb_true_iff in Hw as [Hne Hw].
    cbn [words_text fst snd map]. rewrite word_run by exact Hw. rewrite str_app_nil_l.
    destruct s as [|ch s].
    + destruct items as [|i items]; [|discriminate]. cbn [words_text].
      rewrite str_app_nil_l. cbn [parse_loop]. now rewrite Hne.
    + cbn [blank str_forall] in Hs. apply andb_true_iff in Hs as [Hc Hs].
      rewrite str_app_String, blank_step by exact Hc. rewrite Hne. cbn [orb].
      rewrite blank_run by exact Hs. rewrite IH by exact Hrest.
      now rewrite <- app_assoc.
Qed.

Lemma words_no_nul (items : list (string * string)) :
  words_ok items = true → has_char nul (words_text items) = false.
Proof.
  induction items as [|[w s] items IH]; [reflexivity|]. intros Hok.
  cbn [words_ok fst snd] in Hok.
  apply andb_true_iff in Hok as [Hok Hrest]. apply andb_true_iff in Hok as [Hok _].
  apply andb_true_iff in Hok as [Hw Hs]. unfold word in Hw.
  apply andb_true_iff in Hw as [_ Hw].
  cbn [words_text fst snd]. rewrite !has_char_app, (word_chars_no_nul _ Hw), (blank_no_nul _ Hs).
  now apply IH.
Qed.

Lemma dq_items_run (items : list dq_item) (rest : string) (argv : list string)
      (a : string) (h : bool) :
  forallb dq_item_ok items = true →
  parse_loop (dq_render items +:+ String dquote_char rest) argv a h true false
  = parse_loop rest argv (a +:+ dq_text items) h false false.
Proof.
  revert a. induction items as [|i items IH]; intros a Hok.
  - cbn. now rewrite str_app_nil_r.
  - cbn [forallb] in Hok. apply andb_true_iff in Hok as [Hi Hok].
    destruct i as [ch|ch]; cbn [dq_item_ok] in Hi; cbn [dq_render dq_text dq_item_char].
    + apply andb_true_iff in Hi as [Hi _]. apply andb_true_iff in Hi as [Hq Hb].
      apply negb_true_iff in Hq, Hb.
      rewrite str_app_String. cbn [parse_loop negb andb]. rewrite Hq, Hb.
      rewrite IH by exact Hok. now rewrite <- str_app_cons.
    + rewrite !str_app_String. cbn [parse_loop negb andb].
      replace (Ascii.eqb backslash_char dquote_char) with false by reflexivity.
      replace (Ascii.eqb backslash_char backslash_char) with true by reflexivity.
      rewrite IH by exact Hok. now rewrite <- str_app_cons.
Qed.

Lemma dq_render_no_nul (items : list dq_item) :
  forallb dq_item_ok items = true → has_char nul (dq_render items) = false.
Proof.
  induction items as [|i items IH]; [reflexivity|]. cbn [forallb]. intros Hok.
  apply andb_true_iff in Hok as [Hi Hok]. specialize (IH Hok).
  destruct i as [ch|ch]; cbn [dq_item_ok] in Hi; cbn [dq_render has_char].
  - apply andb_true_iff in Hi as [_ Hn]. apply negb_true_iff in Hn. now rewrite Hn.
  - apply negb_true_iff in Hi. rewrite Hi.
    replace (Ascii.eqb backslash_char nul) with false by reflexivity. exact IH.
Qed.

Lemma dq_quote_ok (s : string) :
  has_char nul s = false → forallb dq_item_ok (dq_quote s) = true ∧ dq_text (dq_quote s) = s.
Proof.
  induction s as [|ch s IH]; [now split|]. cbn [has_char]. intros H.
  apply orb_false_iff in H as [Hn Hs]. destruct (IH Hs) as [IH1 IH2].
  cbn [dq_quote forallb dq_text].
  destruct (Ascii.eqb ch dquote_char) eqn:Eq, (Ascii.eqb ch backslash_char) eqn:Eb;
    cbn [orb dq_item_ok dq_item_char]; rewrite ?Eq, ?Eb, ?Hn, IH1, IH2; split; reflexivity.
Qed.

Lemma blank_char_cases (ch : ascii) :
  is_blank_char ch = true →
  Ascii.eqb ch dquote_char = false ∧ Ascii.eqb ch squote_char = false ∧
  Ascii.eqb ch backslash_char = false.
Proof.
  unfold is_blank_char. intros H. apply orb_true_iff in H as [H|H];
    apply Ascii.eqb_eq in H; subst; repeat split.
Qed.

(** Blanks inside an open quote are copied: the text ends inside the
    quote. *)
Lemma blank_in_quote (bl : string) (argv : list string) (a : string) (h d s : bool) :
  blank bl = true → d || s = true → parse_loop bl argv a h d s = [].
Proof.
  revert a. induction bl as [|ch bl IH]; intros a Hb Hq.
  - cbn [parse_loop]. rewrite orb_comm, Hq. reflexivity.
  - cbn [blank str_forall] in Hb. apply andb_true_iff in Hb as [Hc Hb].
    destruct (blank_char_cases _ Hc) as (E1 & E2 & E3).
    cbn [parse_loop]. rewrite E1, E2, E3, !andb_false_r.
    destruct d, s; try discriminate; cbn [negb andb]; now apply IH.
Qed.

Lemma blank_at_end (bl : string) (argv : list string) (a : string) (h d s : bool) :
  blank bl = true → parse_loop bl argv a h d s = parse_loop "" argv a h d s.
Proof.
  intros Hb. destruct (d || s) eqn:Hq.
  - rewrite blank_in_quote by assumption. cbn [parse_loop]. now rewrite orb_comm, Hq.
  - apply orb_false_iff in Hq as [-> ->]. destruct bl as [|ch bl]; [reflexivity|].
    cbn [blank str_forall] in Hb. apply andb_true_iff in Hb as [Hc Hb].
    rewrite blank_step by exact Hc. rewrite <- (str_app_nil_r bl), blank_run by exact Hb.
    cbn [parse_loop str_empty negb orb]. now destruct (negb (str_empty a) || h).
Qed.

Lemma trailing_step (bl : string) (ch : ascii) (rest : string) :
  blank bl = true →
  trailing_ok bl rest →
  (∀ ch2 rest2, rest = String ch2 rest2 → trailing_ok bl rest2) →
  trailing_ok bl (String ch rest).
Proof.
  intros Hb IH IH2 argv a h d s. rewrite str_app_String.
  destruct d, s; cbn [parse_loop negb andb orb];
    repeat match goal with
           | |- (if ?b then _ else _) = (if ?b then _ else _) => destruct b
           end; try apply IH.
  destruct rest as [|ch2 rest2].
  - rewrite str_app_nil_l. destruct bl as [|c0 bl]; [reflexivity|].
    cbn [blank str_forall] in Hb. apply andb_true_iff in Hb as [_ Hb].
    now apply blank_in_quote.
  - rewrite str_app_String. exact (IH2 ch2 rest2 eq_refl _ _ _ _ _).
Qed.

Lemma trailing_all (bl c : string) : blank bl = true → trailing_ok bl c.
Proof.
  intros Hb.
  assert (H : trailing_ok bl c ∧ ∀ ch rest, c = String ch rest → trailing_ok bl rest).
  { induction c as [|ch rest [IH IH2]].
    - split; [|discriminate]. intros argv a h d s. rewrite str_app_nil_l.
      now apply blank_at_end.
    - split.
      + apply trailing_step; assumption.
      + intros ch' rest' [= -> ->]. exact IH. }
  apply H.
Qed.

Lemma c_str_app (s t : string) :
  has_char nul s = false → c_str (s +:+ t) = s +:+ c_str t.
Proof.
  induction s as [|ch s IH]; [reflexivity|]. cbn [has_char]. intros H.
  apply orb_false_iff in H as [Hc Hs]. rewrite !str_app_String. cbn [c_str].
  now rewrite Hc, IH.
Qed.

Lemma c_str_app_nul (s t : string) :
  has_char nul s = true → c_str (s +:+ t) = c_str s.
Proof.
  induction s as [|ch s IH]; [discriminate|]. cbn [has_char]. intros H.
  rewrite str_app_String. cbn [c_str]. destruct (Ascii.eqb ch nul); [reflexivity|].
  cbn [orb] in H. now rewrite IH.
Qed.

Lemma str_empty_app (s t : string) : str_empty (s +:+ t) = str_empty s && str_empty t.
Proof. now destruct s. Qed.

Lemma blank_only (appName bl : string) :
  blank bl = true → ParseCommandLine appName bl = [appName].
Proof.
  intros Hb. unfold ParseCommandLine. destruct (str_empty bl); [reflexivity|].
  rewrite c_str_id by now apply blank_no_nul.
  now rewrite blank_at_end.
Qed.

Lemma prefix_step (ch : ascii) (rest0 : string) :
  prefix_ok rest0 →
  (∀ ch2 rest2, rest0 = String ch2 rest2 → prefix_ok rest2) →
  prefix_ok (String ch rest0).
Proof.
  intros IH IH2 q a h Hq.
  destruct q; cbn [quote_scan q_dquot q_squot] in *.
  - destruct (is_blank_char ch) eqn:Hb.
    + destruct (blank_char_cases _ Hb) as (E1 & E2 & _). rewrite E1, E2 in Hq.
      destruct (IH QOut "" false Hq) as (toks & a' & h' & Hrun).
      exists ((if negb (str_empty a) || h then [a] else []) ++ toks), a', h'.
      intros rest argv. rewrite str_app_String, blank_step by exact Hb.
      cbn [q_dquot q_squot] in Hrun. rewrite Hrun.
      destruct (negb (str_empty a) || h); now rewrite <- ?app_assoc.
    + unfold is_blank_char in Hb. apply orb_false_iff in Hb as [B1 B2].
      destruct (Ascii.eqb ch dquote_char) eqn:E1.
      * destruct (IH QDouble a true Hq) as (toks & a' & h' & Hrun).
        exists toks, a', h'. intros rest argv. rewrite str_app_String.
        cbn [parse_loop negb andb orb]. rewrite B1, B2, E1. exact (Hrun rest argv).
      * destruct (Ascii.eqb ch squote_char) eqn:E2.
        -- destruct (IH QSingle a true Hq) as (toks & a' & h' & Hrun).
           exists toks, a', h'. intros rest argv. rewrite str_app_String.
           cbn [parse_loop negb andb orb]. rewrite B1, B2, E1, E2. exact (Hrun rest argv).
        -- destruct (IH QOut (push_back a ch) h Hq) as (toks & a' & h' & Hrun).
           exists toks, a', h'. intros rest argv. rewrite str_app_String.
           cbn [parse_loop negb andb orb]. rewrite B1, B2, E1, E2. exact (Hrun rest argv).
  - destruct (Ascii.eqb ch squote_char) eqn:E2.
    + destruct (IH QOut a h Hq) as (toks & a' & h' & Hrun).
      exists toks, a', h'. intros rest argv. rewrite str_app_String.
      cbn [parse_loop negb andb orb]. rewrite E2. exact (Hrun rest argv).
    + destruct (IH QSingle (push_back a ch) h Hq) as (toks & a' & h' & Hrun).
      exists toks, a', h'. intros rest argv. rewrite str_app_String.
      cbn [parse_loop negb andb orb]. rewrite E2. exact (Hrun rest argv).
  - destruct (Ascii.eqb ch dquote_char) eqn:E1.
    + destruct (IH QOut a h Hq) as (toks & a' & h' & Hrun).
      exists toks, a', h'. intros rest argv. rewrite str_app_String.
      cbn [parse_loop negb andb orb]. rewrite E1. exact (Hrun rest argv).
    + destruct (Ascii.eqb ch backslash_char) eqn:E3.
      * destruct rest0 as [|ch2 rest2]; [discriminate|].
        destruct (IH2 ch2 rest2 eq_refl QDouble (push_back a ch2) h Hq)
          as (toks & a' & h' & Hrun).
        exists toks, a', h'. intros rest argv. rewrite !str_app_String.
        cbn [parse_loop negb andb orb]. rewrite E1, E3. exact (Hrun rest argv).
      * destruct (IH QDouble (push_back a ch) h Hq) as (toks & a' & h' & Hrun).
        exists toks, a', h'. intros rest argv. rewrite str_app_String.
        cbn [parse_loop negb andb orb]. rewrite E1, E3. exact (Hrun rest argv).
Qed.

Lemma prefix_all (c : string) : prefix_ok c.
Proof.
  assert (H : prefix_ok c ∧ ∀ ch rest, c = String ch rest → prefix_ok rest).
  { induction c as [|ch rest [IH IH2]].
    - split; [|discriminate]. intros q a h Hq. cbn in Hq. injection Hq as ->.
      exists [], a, h. intros rest argv. now rewrite app_nil_r.
    - split.
      + apply prefix_step; assumption.
      + intros ch' rest' [= -> ->]. exact IH. }
  apply H.
Qed.

(** The arguments of a well-formed text, apart from the application
    name. *)
Lemma well_formed_args (appName c : string) :
  well_formed c →
  ∃ toks a' h',
    (∀ rest argv,
        parse_loop (c_str c +:+ rest) argv "" false false false
        = parse_loop rest (argv ++ toks) a' h' false false) ∧
    ParseCommandLine appName c
    = appName :: toks ++ (if negb (str_empty a') || h' then [a'] else []).
Proof.
  intros Hwf. destruct (prefix_all (c_str c) QOut "" false Hwf) as (toks & a' & h' & Hrun).
  cbn [q_dquot q_squot] in Hrun. exists toks, a', h'. split; [exact Hrun|].
  pose proof (Hrun "" [appName]) as H0. rewrite str_app_nil_r in H0.
  unfold ParseCommandLine. destruct (str_empty c) eqn:E.
  - apply str_empty_iff in E. subst c.
    cbn [c_str parse_loop str_empty negb orb] in H0. rewrite H0.
    destruct (negb (str_empty a') || h'); cbn [Datatypes.app];
      now rewrite <- ?app_assoc, ?app_nil_r.
  - rewrite H0. cbn [parse_loop orb].
    destruct (negb (str_empty a') || h'); cbn [Datatypes.app];
      now rewrite <- ?app_assoc, ?app_nil_r.
Qed.

End TokenizerMore.

(** X7. Without quotes the tokenizer splits at runs of spaces and tabs:
    for words of characters other than space, tab, the two quote characters
    and NUL (a backslash is such a character), each followed by a run of
    blanks that only after the last word may be empty, and any run of
    blanks in front, the result is the application name followed by the
    words. *)
Theorem ParseCommandLine_plain_words
        (appName lead : string) (items : list (string * string)) :
  Tokenizer.blank lead = true →
  Tokenizer.words_ok items = true →
  Tokenizer.ParseCommandLine appName (lead +:+ Tokenizer.words_text items)
  = appName :: map fst items.
Proof.
  intros Hlead Hok. unfold Tokenizer.ParseCommandLine.
  destruct (str_empty (lead +:+ Tokenizer.words_text items)) eqn:E.
  - apply str_empty_iff in E. destruct lead; [|discriminate]. rewrite str_app_nil_l in E.
    destruct items as [|[w s] items]; [reflexivity|].
    cbn [Tokenizer.words_ok fst snd] in Hok. cbn [Tokenizer.words_text fst snd] in E.
    destruct w; [discriminate|discriminate].
  - rewrite c_str_id.
    + rewrite blank_run by exact Hlead. now rewrite words_run by exact Hok.
    + now rewrite has_char_app, (blank_no_nul _ Hlead), (words_no_nul _ Hok).
Qed.

Lemma ParseCommandLine_plain_words_witness :
  Tokenizer.ParseCommandLine "app" (" " +:+ Tokenizer.tab +:+ "--foo  a\b" +:+ Tokenizer.tab)
  = ["app"; "--foo"; "a\b"].
Proof.
  apply (ParseCommandLine_plain_words "app" (" " +:+ Tokenizer.tab)
           [("--foo", "  "); ("a\b", Tokenizer.tab)]); reflexivity.
Defined.

(** X8. Inside double quotes a backslash makes the character after it part
    of the argument, whatever it is, and every other character but the
    double quote is copied: a segment of such items is one argument holding
    their characters.  So every text without NUL can be handed over as one
    argument, by putting it in double quotes with a backslash before each
    double quote and backslash. *)
Theorem ParseCommandLine_double_quote_escapes (appName : string) :
  (∀ items rest argv a haveArg,
      forallb Tokenizer.dq_item_ok items = true →
      Tokenizer.parse_loop
        (Tokenizer.dq_render items +:+ String dquote_char rest) argv a haveArg true false
      = Tokenizer.parse_loop rest argv (a +:+ Tokenizer.dq_text items) haveArg false false) ∧
  (∀ items,
      forallb Tokenizer.dq_item_ok items = true →
      Tokenizer.ParseCommandLine appName
        (Tokenizer.dq +:+ Tokenizer.dq_render items +:+ Tokenizer.dq)
      = [appName; Tokenizer.dq_text items]) ∧
  (∀ s,
      has_char nul s = false →
      Tokenizer.ParseCommandLine appName
        (Tokenizer.dq +:+ Tokenizer.dq_render (Tokenizer.dq_quote s) +:+ Tokenizer.dq)
      = [appName; s]).
Proof.
  assert (Hseg : ∀ items,
             forallb Tokenizer.dq_item_ok items = true →
             Tokenizer.ParseCommandLine appName
               (Tokenizer.dq +:+ Tokenizer.dq_render items +:+ Tokenizer.dq)
             = [appName; Tokenizer.dq_text items]).
  { intros items Hok. unfold Tokenizer.ParseCommandLine, Tokenizer.dq.
    rewrite str_app_String, str_app_nil_l. cbn [str_empty].
    rewrite c_str_id.
    - cbn [Tokenizer.parse_loop negb andb].
      replace (Ascii.eqb dquote_char space_char) with false by reflexivity.
      replace (Ascii.eqb dquote_char tab_char) with false by reflexivity.
      replace (Ascii.eqb dquote_char dquote_char) with true by reflexivity.
      cbn [orb andb]. rewrite dq_items_run by exact Hok. rewrite str_app_nil_l.
      cbn [Tokenizer.parse_loop]. rewrite orb_true_r. reflexivity.
    - cbn [has_char]. rewrite has_char_app, (dq_render_no_nul _ Hok). reflexivity. }
  split; [|split].
  - intros. now apply dq_items_run.
  - exact Hseg.
  - intros s Hs. destruct (dq_quote_ok s Hs) as [Hok Htext].
    rewrite Hseg by exact Hok. now rewrite Htext.
Qed.

Lemma ParseCommandLine_double_quote_escapes_witness :
  Tokenizer.ParseCommandLine "app"
    (Tokenizer.dq +:+ Tokenizer.dq_render (Tokenizer.dq_quote ("a " +:+ Tokenizer.dq +:+ "b\c"))
     +:+ Tokenizer.dq)
  = ["app"; "a " +:+ Tokenizer.dq +:+ "b\c"].
Proof.
  apply (ParseCommandLine_double_quote_escapes "app"). reflexivity.
Defined.

(** X9. Blanks around a command line never count: for every command line,
    well formed or not, with or without NUL, spaces and tabs in front of it
    and after it leave the result as it is. *)
Theorem ParseCommandLine_outer_blanks (appName cmdLine lead trail : string) :
  Tokenizer.blank lead = true → Tokenizer.blank trail = true →
  Tokenizer.ParseCommandLine appName (lead +:+ cmdLine +:+ trail)
  = Tokenizer.ParseCommandLine appName cmdLine.
Proof.
  intros Hl Ht.
  destruct (str_empty cmdLine) eqn:Ec.
  { apply str_empty_iff in Ec. subst cmdLine. rewrite str_app_nil_l.
    transitivity [appName]; [|reflexivity]. apply blank_only.
    unfold Tokenizer.blank in *. clear -Hl Ht.
    induction lead as [|ch lead IH]; [exact Ht|]. cbn [Tokenizer.str_forall] in Hl.
    apply andb_true_iff in Hl as [Hc Hl]. rewrite str_app_String.
    cbn [Tokenizer.str_forall]. now rewrite Hc, IH. }
  unfold Tokenizer.ParseCommandLine. rewrite Ec.
  rewrite !str_empty_app, Ec, andb_false_l, andb_false_r.
  rewrite c_str_app by now apply blank_no_nul.
  rewrite blank_run by exact Hl.
  destruct (has_char nul cmdLine) eqn:En.
  - now rewrite c_str_app_nul.
  - rewrite c_str_app by exact En.
    rewrite (c_str_id trail) by now apply blank_no_nul.
    rewrite (c_str_id cmdLine) by exact En.
    now apply trailing_all.
Qed.

Lemma ParseCommandLine_outer_blanks_witness :
  Tokenizer.ParseCommandLine "app" ("  " +:+ "'unterminated" +:+ " ")
  = Tokenizer.ParseCommandLine "app" "'unterminated".
Proof. apply (ParseCommandLine_outer_blanks "app" "'unterminated" "  " " "); reflexivity. Defined.

(** X10. Well-formed command lines compose: the arguments of one command
    line, a run of blanks and a second command line are the arguments of
    the first followed by those of the second. *)
Theorem ParseCommandLine_concat (appName c1 sep c2 : string) :
  Tokenizer.well_formed c1 → has_char nul c1 = false →
  Tokenizer.blank sep = true → sep ≠ "" →
  Tokenizer.well_formed c2 →
  Tokenizer.ParseCommandLine appName (c1 +:+ sep +:+ c2)
  = Tokenizer.ParseCommandLine appName c1 ++ tl (Tokenizer.ParseCommandLine appName c2).
Proof.
  intros Hw1 Hn1 Hsep Hne Hw2.
  destruct (well_formed_args appName c1 Hw1) as (toks1 & a1 & h1 & Hrun1 & ->).
  destruct (well_formed_args appName c2 Hw2) as (toks2 & a2 & h2 & Hrun2 & ->).
  rewrite (c_str_id c1) in Hrun1 by exact Hn1.
  unfold Tokenizer.ParseCommandLine.
  rewrite !str_empty_app. destruct sep as [|ch sep]; [congruence|].
  cbn [str_empty andb]. rewrite andb_false_r.
  rewrite c_str_app by exact Hn1. rewrite c_str_app by now apply blank_no_nul.
  rewrite Hrun1. cbn [Tokenizer.blank Tokenizer.str_forall] in Hsep.
  apply andb_true_iff in Hsep as [Hc Hsep].
  rewrite str_app_String, blank_step by exact Hc. rewrite blank_run by exact Hsep.
  pose proof (Hrun2 "") as H2. rewrite str_app_nil_r in H2. rewrite H2.
  cbn [Tokenizer.parse_loop orb tl].
  destruct (negb (str_empty a1) || h1), (negb (str_empty a2) || h2);
    cbn [Datatypes.app]; rewrite <- ?app_assoc, ?app_nil_r; reflexivity.
Qed.

Lemma ParseCommandLine_concat_witness :
  Tokenizer.ParseCommandLine "app" ("--foo 'a b'" +:+ " " +:+ "x\y z")
  = Tokenizer.ParseCommandLine "app" "--foo 'a b'"
    ++ tl (Tokenizer.ParseCommandLine "app" "x\y z").
Proof.
  apply (ParseCommandLine_concat "app" "--foo 'a b'" " " "x\y z");
    try reflexivity. discriminate.
Defined.

(** ** EnvironmentModificationEngine *)

Section EnvMore.
Import EnvEngine.

Lemma compare_lt_trans (a b c : string) :
  String.compare a b = Lt → String.compare b c = Lt → String.compare a c = Lt.
Proof.
  intros H1 H2. apply OrderedTypeEx.String_as_OT.cmp_lt.
  apply OrderedTypeEx.String_as_OT.cmp_lt in H1, H2.
  eapply OrderedTypeEx.String_as_OT.lt_trans; eassumption.
Qed.

Lemma compare_gt_lt (a b : string) : String.compare a b = Gt → String.compare b a = Lt.
Proof. intros H. rewrite String.compare_antisym, H. reflexivity. Qed.

Lemma compare_lt_gt (a b : string) : String.compare a b = Lt → String.compare b a = Gt.
Proof. intros H. rewrite String.compare_antisym, H. reflexivity. Qed.

Lemma compare_lt_neq (a b : string) : String.compare a b = Lt → String.eqb a b = false.
Proof. intros H. apply compare_neq_eqb. congruence. Qed.

Lemma env_find_set_ne (k k' v : string) (env : EnvMap) :
  k ≠ k' → env_find k (env_set k' v env) = env_find k env.
Proof.
  intros Hne. apply String.eqb_neq in Hne.
  induction env as [|[k1 v1] env IH]; cbn.
  - now rewrite Hne.
  - destruct (String.compare k' k1) eqn:E; cbn.
    + apply String.compare_eq_iff in E. subst k1. now rewrite Hne.
    + now rewrite Hne.
    + now rewrite IH.
Qed.


Lemma In_env_set (kv : string * string) (k v : string) (env : EnvMap) :
  In kv (env_set k v env) → kv = (k, v) ∨ In kv env.
Proof.
  induction env as [|[k1 v1] env IH]; cbn.
  - intros [<-|[]]. now left.
  - destruct (String.compare k k1); cbn; intuition.
Qed.

Lemma keys_sorted_head (kv : string * string) (r : EnvMap) :
  keys_sorted (kv :: r) = true → ∀ kv', In kv' r → String.compare kv.1 kv'.1 = Lt.
Proof.
  revert kv. induction r as [|kv1 r IH]; intros kv Hs kv' Hin; [destruct Hin|].
  cbn [keys_sorted] in Hs. apply andb_true_iff in Hs as [H1 H2].
  assert (Hlt : String.compare kv.1 kv1.1 = Lt) by (destruct (String.compare kv.1 kv1.1); congruence).
  destruct Hin as [<-|Hin]; [exact Hlt|].
  eapply compare_lt_trans; [exact Hlt|]. now apply (IH kv1).
Qed.

Lemma keys_sorted_tail (kv : string * string) (r : EnvMap) :
  keys_sorted (kv :: r) = true → keys_sorted r = true.
Proof. cbn [keys_sorted]. intros H. now apply andb_true_iff in H as [_ H]. Qed.

Lemma keys_sorted_cons (kv : string * string) (r : EnvMap) :
  (∀ kv', In kv' r → String.compare kv.1 kv'.1 = Lt) →
  keys_sorted r = true → keys_sorted (kv :: r) = true.
Proof.
  intros Hlt Hs. cbn [keys_sorted]. rewrite Hs, andb_true_r.
  destruct r as [|kv1 r]; [reflexivity|]. rewrite (Hlt kv1) by now left. reflexivity.
Qed.

Lemma env_set_sorted (k v : string) (env : EnvMap) :
  keys_sorted env = true → keys_sorted (env_set k v env) = true.
Proof.
  induction env as [|[k1 v1] env IH]; intros Hs; [reflexivity|].
  cbn [env_set]. destruct (String.compare k k1) eqn:E.
  - apply String.compare_eq_iff in E. subst k1.
    apply keys_sorted_cons; [|now apply keys_sorted_tail in Hs].
    intros kv' Hin. exact (keys_sorted_head _ _ Hs kv' Hin).
  - apply keys_sorted_cons; [|exact Hs]. intros kv' [<-|Hin]; [exact E|].
    eapply compare_lt_trans; [exact E|]. exact (keys_sorted_head _ _ Hs kv' Hin).
  - apply keys_sorted_cons; [|apply IH; now apply keys_sorted_tail in Hs].
    intros kv' Hin. apply In_env_set in Hin as [->|Hin].
    + now apply compare_gt_lt.
    + exact (keys_sorted_head _ _ Hs kv' Hin).
Qed.

Lemma env_set_entries (k v : string) (env : EnvMap) :
  entry_ok (k, v) = true → forallb entry_ok env = true →
  forallb entry_ok (env_set k v env) = true.
Proof.
  intros Hkv. induction env as [|[k1 v1] env IH]; cbn [env_set forallb].
  - intros _. now rewrite Hkv.
  - intros H. apply andb_true_iff in H as [H1 H2].
    destruct (String.compare k k1); cbn [forallb]; rewrite ?Hkv, ?H1, ?H2, ?IH; auto.
Qed.

Lemma env_set_wf (k v : string) (env : EnvMap) :
  entry_ok (k, v) = true → env_wf env = true → env_wf (env_set k v env) = true.
Proof.
  unfold env_wf. intros Hkv H. apply andb_true_iff in H as [H1 H2].
  now rewrite env_set_sorted, env_set_entries.
Qed.

(** [split_equals] cuts at the first [=]. *)
Lemma split_equals_spec (s n v : string) :
  split_equals s = Some (n, v) →
  s = n +:+ "=" +:+ v ∧ has_char "="%char n = false.
Proof.
  revert n. induction s as [|ch s IH]; intros n; [discriminate|]. cbn [split_equals].
  destruct (Ascii.eqb ch "="%char) eqn:E.
  - intros [= <- <-]. apply Ascii.eqb_eq in E. subst ch. now split.
  - destruct (split_equals s) as [[n' v']|]; [|discriminate].
    intros [= <- <-]. destruct (IH n' eq_refl) as [-> Hn].
    split; [reflexivity|]. cbn [has_char]. now rewrite E, Hn.
Qed.

Lemma split_equals_line (k v : string) :
  has_char "="%char k = false → split_equals (k +:+ "=" +:+ v) = Some (k, v).
Proof.
  induction k as [|ch k IH]; [reflexivity|]. cbn [has_char]. intros H.
  apply orb_false_iff in H as [Hc Hk]. rewrite str_app_String. cbn [split_equals].
  now rewrite Hc, IH.
Qed.

Lemma split_equals_entry_ok (e n v : string) :
  split_equals (c_str e) = Some (n, v) → entry_ok (n, v) = true.
Proof.
  intros H. destruct (split_equals_spec _ _ _ H) as [Heq Hn].
  pose proof (c_str_no_nul e) as Hnul. rewrite Heq, !has_char_app in Hnul.
  apply orb_false_iff in Hnul as [H1 H2]. apply orb_false_iff in H2 as [_ H2].
  unfold entry_ok. cbn [fst snd]. now rewrite Hn, H1, H2.
Qed.

Lemma from_wf (envstring : list string) (ret : EnvMap) :
  env_wf ret = true → env_wf (EnvStringToEnvMap_from envstring ret) = true.
Proof.
  revert ret. induction envstring as [|e r IH]; intros ret Hwf; [exact Hwf|].
  cbn [EnvStringToEnvMap_from].
  destruct (split_equals (c_str e)) as [[n v]|] eqn:E; [|now apply IH].
  apply IH, env_set_wf; [|exact Hwf]. eapply split_equals_entry_ok; exact E.
Qed.



Lemma env_set_last (k v : string) (acc : EnvMap) :
  (∀ kv, In kv acc → String.compare kv.1 k = Lt) → env_set k v acc = acc ++ [(k, v)].
Proof.
  induction acc as [|[k1 v1] acc IH]; intros H; [reflexivity|]. cbn [env_set].
  rewrite (compare_lt_gt k1 k) by (apply (H (k1, v1)); now left).
  cbn. f_equal. apply IH. intros kv Hin. apply H. now right.
Qed.

Lemma entry_line_c_str (kv : string * string) :
  entry_ok kv = true →
  c_str (kv.1 +:+ "=" +:+ kv.2) = kv.1 +:+ "=" +:+ kv.2 ∧ has_char "="%char kv.1 = false.
Proof.
  unfold entry_ok. intros H. apply andb_true_iff in H as [H H3].
  apply andb_true_iff in H as [H1 H2]. apply negb_true_iff in H1, H2, H3.
  split; [|exact H1]. apply c_str_id. rewrite !has_char_app, H2, H3. reflexivity.
Qed.

Lemma from_lines (env acc : EnvMap) :
  keys_sorted env = true → forallb entry_ok env = true → keys_below acc env →
  EnvStringToEnvMap_from (env_lines env) acc = acc ++ env.
Proof.
  revert acc. induction env as [|[k v] env IH]; intros acc Hs Hok Hbelow.
  - cbn. now rewrite app_nil_r.
  - cbn [forallb] in Hok. apply andb_true_iff in Hok as [Hkv Hok].
    destruct (entry_line_c_str _ Hkv) as [Hc Hk]. cbn [fst snd] in Hc, Hk.
    cbn [env_lines map EnvStringToEnvMap_from fst snd].
    rewrite Hc, split_equals_line by exact Hk.
    rewrite env_set_last.
    + rewrite IH; [now rewrite <- app_assoc | now apply keys_sorted_tail in Hs | exact Hok |].
      intros kv kv' Hin Hin'. apply in_app_or in Hin as [Hin|[<-|[]]].
      * apply (Hbelow kv kv' Hin). now right.
      * exact (keys_sorted_head _ _ Hs kv' Hin').
    + intros kv Hin. apply (Hbelow kv (k, v) Hin). now left.
Qed.

Lemma lines_round_trip (env : EnvMap) :
  env_wf env = true → EnvStringToEnvMap (env_lines env) = env.
Proof.
  unfold env_wf. intros H. apply andb_true_iff in H as [Hs Hok].
  unfold EnvStringToEnvMap. rewrite from_lines; [reflexivity|exact Hs|exact Hok|].
  intros kv kv' [].
Qed.

Lemma EnvStringToEnvMap_wf (envstring : list string) :
  env_wf (EnvStringToEnvMap envstring) = true.
Proof. apply from_wf. reflexivity. Qed.

(** A C string that has not met its NUL, up to the NUL. *)
Lemma split_envp_line (s rest l : string) :
  has_char nul s = false →
  split_envp (s +:+ String nul rest) (Some l)
  = r ← split_envp rest None; Some ((l +:+ s) :: r).
Proof.
  revert l. induction s as [|ch s IH]; intros l Hs.
  - rewrite str_app_nil_l, str_app_nil_r. cbn [split_envp].
    replace (Ascii.eqb nul nul) with true by reflexivity. reflexivity.
  - cbn [has_char] in Hs. apply orb_false_iff in Hs as [Hc Hs].
    rewrite str_app_String. cbn [split_envp]. rewrite Hc, IH by exact Hs.
    now rewrite <- str_app_cons.
Qed.

Lemma split_flatten (env : EnvMap) :
  forallb entry_ok env = true → split_envp (flatten_env env) None = Some (env_lines env).
Proof.
  induction env as [|[k v] env IH]; [reflexivity|]. cbn [forallb]. intros H.
  apply andb_true_iff in H as [Hkv Hok].
  cbn [flatten_env env_lines map fst snd].
  assert (Hnul : has_char nul (k +:+ "=" +:+ v) = false).
  { destruct (entry_line_c_str _ Hkv) as [Hc _]. cbn [fst snd] in Hc.
    rewrite <- Hc. apply c_str_no_nul. }
  rewrite <- !str_app_assoc. rewrite (str_app_assoc k "=" v).
  destruct (k +:+ "=" +:+ v) as [|ch line] eqn:E.
  { destruct k; discriminate. }
  cbn [has_char] in Hnul. apply orb_false_iff in Hnul as [Hc Hline].
  rewrite str_app_String. cbn [split_envp]. rewrite Hc.
  rewrite split_envp_line by exact Hline. rewrite (IH Hok). reflexivity.
Qed.

Lemma env_erase_In (k : string) (kv : string * string) (env : EnvMap) :
  In kv (env_erase k env) → In kv env.
Proof.
  induction env as [|[k1 v1] env IH]; [tauto|]. cbn [env_erase].
  destruct (String.eqb k k1); cbn; intuition.
Qed.

Lemma env_erase_wf (k : string) (env : EnvMap) :
  env_wf env = true → env_wf (env_erase k env) = true.
Proof.
  unfold env_wf. intros H. apply andb_true_iff in H as [Hs Hok].
  apply andb_true_iff. split.
  - clear Hok. induction env as [|[k1 v1] env IH]; [reflexivity|]. cbn [env_erase].
    destruct (String.eqb k k1); [now apply keys_sorted_tail in Hs|].
    apply keys_sorted_cons; [|apply IH; now apply keys_sorted_tail in Hs].
    intros kv' Hin. apply env_erase_In in Hin. exact (keys_sorted_head _ _ Hs kv' Hin).
  - clear Hs. induction env as [|[k1 v1] env IH]; [reflexivity|]. cbn [env_erase].
    cbn [forallb] in Hok. apply andb_true_iff in Hok as [H1 H2].
    destruct (String.eqb k k1); [exact H2|]. cbn [forallb]. now rewrite H1, IH.
Qed.

Lemma env_find_not_in (k : string) (env : EnvMap) :
  (∀ kv, In kv env → String.eqb k kv.1 = false) → env_find k env = None.
Proof.
  induction env as [|[k1 v1] env IH]; [reflexivity|]. intros H. cbn [env_find].
  pose proof (H (k1, v1) (or_introl eq_refl)) as H1. cbn [fst] in H1. rewrite H1. apply IH. intros kv Hin. apply H. now right.
Qed.

Lemma env_find_erase (k k' : string) (env : EnvMap) :
  keys_sorted env = true →
  env_find k (env_erase k' env) = if String.eqb k k' then None else env_find k env.
Proof.
  intros Hs. induction env as [|[k1 v1] env IH].
  - cbn. now destruct (String.eqb k k').
  - cbn [env_erase]. destruct (String.eqb k' k1) eqn:E1.
    + apply String.eqb_eq in E1. subst k1. cbn [env_find].
      destruct (String.eqb k k') eqn:E; [|reflexivity].
      apply String.eqb_eq in E. subst k'. apply env_find_not_in.
      intros kv Hin. apply compare_lt_neq. exact (keys_sorted_head _ _ Hs kv Hin).
    + cbn [env_find]. rewrite IH by now apply keys_sorted_tail in Hs.
      destruct (String.eqb k k1) eqn:E2; [|reflexivity].
      apply String.eqb_eq in E2. subst k1. now rewrite String.eqb_sym, E1.
Qed.

Lemma env_index_touch (k k' : string) (env : EnvMap) :
  env_index (env_touch k' env) k = env_index env k.
Proof.
  unfold env_touch. destruct (env_find k' env) eqn:E; [reflexivity|].
  unfold env_index. destruct (String.eqb k k') eqn:Ek.
  - apply String.eqb_eq in Ek. subst k'. now rewrite env_find_set, E.
  - rewrite env_find_set_ne by now apply String.eqb_neq. reflexivity.
Qed.

Lemma apply_to_process_fold (mods : list EnvironmentModification)
      (snapshot currentEnv penv : EnvMap) :
  (∀ k, env_index currentEnv k = env_index snapshot k) →
  (fold_left apply_to_process mods (currentEnv, penv)).2
  = fold_left (setenv_of snapshot) mods penv.
Proof.
  revert currentEnv penv. induction mods as [|m mods IH]; intros cur penv Hsame;
    [reflexivity|].
  cbn [fold_left apply_to_process]. rewrite IH.
  - unfold setenv_of at 2. now rewrite Hsame.
  - intros k. now rewrite env_index_touch.
Qed.

Lemma setenv_find (n v k : string) (penv : EnvMap) :
  env_find k (setenv n v penv)
  = if String.eqb k n && negb (str_empty n || has_char "="%char n) then Some v
    else env_find k penv.
Proof.
  unfold setenv. destruct (str_empty n || has_char "="%char n); cbn [negb].
  - now rewrite andb_false_r.
  - rewrite andb_true_r. destruct (String.eqb k n) eqn:E.
    + apply String.eqb_eq in E. subst. apply env_find_set.
    + apply env_find_set_ne. now apply String.eqb_neq.
Qed.

Lemma setenv_fold_untouched (snapshot : EnvMap) (mods : list EnvironmentModification)
      (penv : EnvMap) (k : string) :
  Forall (λ m, c_str (name m) ≠ k) mods →
  env_find k (fold_left (setenv_of snapshot) mods penv) = env_find k penv.
Proof.
  revert penv. induction mods as [|m mods IH]; intros penv H; [reflexivity|].
  apply Forall_cons in H as [Hm H]. cbn [fold_left]. rewrite IH by exact H.
  unfold setenv_of. rewrite setenv_find.
  replace (String.eqb k (c_str (name m))) with false; [reflexivity|].
  symmetry. apply String.eqb_neq. congruence.
Qed.

End EnvMore.


(** X12. Writing a map out as [name=value] lines, as
    [LaunchAndInjectIntoProcess] does, and reading the lines back gives
    the map again, for every map with keys in order and entries as C
    strings have them; so it does for every map [EnvStringToEnvMap]
    makes. *)
Theorem env_lines_round_trip :
  (∀ env, EnvEngine.env_wf env = true →
          EnvEngine.EnvStringToEnvMap (EnvEngine.env_lines env) = env) ∧
  (∀ envstring,
      EnvEngine.EnvStringToEnvMap
        (EnvEngine.env_lines (EnvEngine.EnvStringToEnvMap envstring))
      = EnvEngine.EnvStringToEnvMap envstring).
Proof.
  split; [exact lines_round_trip|].
  intros envstring. apply lines_round_trip, EnvStringToEnvMap_wf.
Qed.

Lemma env_lines_round_trip_witness :
  EnvEngine.EnvStringToEnvMap (EnvEngine.env_lines [("A", "1=2"); ("B", "")])
  = [("A", "1=2"); ("B", "")].
Proof. apply (proj1 env_lines_round_trip). reflexivity. Defined.

(** X13. [GetUnhookedEnvp] always has a result: the [name=value] lines of
    the variables of [envp] in key order, each variable once with the
    value of its last string, and without the layer variable.  Read back,
    the lines give every other variable the value it had. *)
Theorem GetUnhookedEnvp_drops_layer_variable (layer_var : string) (envp : list string) :
  ∃ out,
    EnvEngine.GetUnhookedEnvp layer_var envp = Some out ∧
    out = EnvEngine.env_lines
            (EnvEngine.env_erase (c_str layer_var) (EnvEngine.EnvStringToEnvMap envp)) ∧
    ∀ k, EnvEngine.env_find k (EnvEngine.EnvStringToEnvMap out)
         = if String.eqb k (c_str layer_var) then None
           else EnvEngine.env_find k (EnvEngine.EnvStringToEnvMap envp).
Proof.
  pose proof (EnvStringToEnvMap_wf envp) as Hwf.
  pose proof (env_erase_wf (c_str layer_var) _ Hwf) as Hwf'.
  eexists. split; [|split; [reflexivity|]].
  - unfold EnvEngine.GetUnhookedEnvp. apply split_flatten.
    unfold EnvEngine.env_wf in Hwf'. now apply andb_true_iff in Hwf' as [_ H].
  - intros k. rewrite lines_round_trip by exact Hwf'.
    apply env_find_erase. unfold EnvEngine.env_wf in Hwf.
    now apply andb_true_iff in Hwf as [H _].
Qed.

(** X14. [ApplyEnvironmentModifications] computes every new value from the
    map it made before its loop and never writes a new value back to that
    map: of several modifications of one variable only the last one shows
    in the process, applied to the value from before the call, and what the
    earlier ones added is lost.  A variable that no modification names
    keeps its value.  [Process::ApplyEnvironmentModification] leaves the
    registered list empty. *)
Theorem ApplyEnvironmentModifications_last_wins
        (currentEnvironment : list string)
        (before after : list EnvEngine.EnvironmentModification)
        (m : EnvEngine.EnvironmentModification) (penv : EnvEngine.EnvMap) :
  let n := c_str (EnvEngine.name m) in
  let snapshot := EnvEngine.EnvStringToEnvMap currentEnvironment in
  let penv' := EnvEngine.ApplyEnvironmentModifications
                 currentEnvironment (before ++ m :: after) penv in
  n ≠ "" → has_char "="%char n = false →
  Forall (λ m', c_str (EnvEngine.name m') ≠ n) after →
  EnvEngine.env_find n penv'
  = Some (c_str (EnvEngine.ApplySingleEnvMod m (EnvEngine.env_index snapshot n))) ∧
  (∀ k, Forall (λ m', c_str (EnvEngine.name m') ≠ k) (before ++ m :: after) →
        EnvEngine.env_find k penv' = EnvEngine.env_find k penv) ∧
  EnvEngine.ApplyEnvironmentModification currentEnvironment (before ++ m :: after, penv)
  = ([], penv').
Proof.
  intros n snapshot penv' Hn Heq Hafter. subst penv'.
  unfold EnvEngine.ApplyEnvironmentModification, EnvEngine.ApplyEnvironmentModifications.
  cbn [fst snd]. fold snapshot.
  rewrite (apply_to_process_fold _ snapshot) by reflexivity.
  split; [|split; [|reflexivity]].
  - rewrite fold_left_app. cbn [fold_left].
    rewrite setenv_fold_untouched by exact Hafter.
    unfold EnvEngine.setenv_of at 1. fold n. rewrite setenv_find, String.eqb_refl, Heq.
    destruct n; [congruence | reflexivity].
  - intros k Hk. now apply setenv_fold_untouched.
Qed.

Lemma ApplyEnvironmentModifications_last_wins_witness :
  EnvEngine.env_find "LD_LIBRARY_PATH"
    (EnvEngine.ApplyEnvironmentModifications ["LD_LIBRARY_PATH=/x"]
       [EnvEngine.mkEnvMod EnvEngine.EnvMod_Append EnvEngine.EnvSep_Platform
                           "LD_LIBRARY_PATH" "/a";
        EnvEngine.mkEnvMod EnvEngine.EnvMod_Append EnvEngine.EnvSep_Platform
                           "LD_LIBRARY_PATH" "/b"]
       [("LD_LIBRARY_PATH", "/x")])
  = Some "/x:/b".
Proof.
  apply (ApplyEnvironmentModifications_last_wins ["LD_LIBRARY_PATH=/x"]
           [EnvEngine.mkEnvMod EnvEngine.EnvMod_Append EnvEngine.EnvSep_Platform
                               "LD_LIBRARY_PATH" "/a"]
           []
           (EnvEngine.mkEnvMod EnvEngine.EnvMod_Append EnvEngine.EnvSep_Platform
                               "LD_LIBRARY_PATH" "/b")
           [("LD_LIBRARY_PATH", "/x")]).
  - discriminate.
  - reflexivity.
  - constructor.
Defined.

(** ** The environment of a hooked child *)

Section HooksMore.
Import EnvEngine Launcher Hooks.

(** Comparisons of two names that are both written out. *)
Local Ltac name_tests :=
  repeat match goal with
         | |- context [String.eqb ?a ?b] =>
             let r := eval vm_compute in (String.eqb a b) in
             lazymatch r with true => idtac | false => idtac end;
             change (String.eqb a b) with r
         end.

Lemma env_index_no_nul (env : EnvMap) (k : string) :
  forallb entry_ok env = true → has_char nul (env_index env k) = false.
Proof.
  unfold env_index. induction env as [|[k1 v1] env IH]; [reflexivity|].
  cbn [forallb env_find]. intros H. apply andb_true_iff in H as [H1 H2].
  destruct (String.eqb k k1); [|now apply IH].
  unfold entry_ok in H1. apply andb_true_iff in H1 as [_ H1]. now apply negb_true_iff in H1.
Qed.

Lemma env_wf_entries (env : EnvMap) : env_wf env = true → forallb entry_ok env = true.
Proof. unfold env_wf. intros H. now apply andb_true_iff in H as [_ H]. Qed.

Lemma env_index_apply (env : EnvMap) (m : EnvironmentModification) (k : string) :
  env_index (apply_in_place env m) k
  = if String.eqb k (c_str (name m)) then ApplySingleEnvMod m (env_index env k)
    else env_index env k.
Proof.
  unfold apply_in_place, env_modify. unfold env_index at 1.
  destruct (String.eqb k (c_str (name m))) eqn:E.
  - apply String.eqb_eq in E. subst k. now rewrite env_find_set.
  - rewrite env_find_set_ne by now apply String.eqb_neq. reflexivity.
Qed.

Lemma sep_text_no_nul (s : EnvSep) : has_char nul (sep_text s) = false.
Proof. now destruct s. Qed.

Lemma apply_no_nul (m : EnvironmentModification) (v : string) :
  match emod m with EnvMod_Prepend => false | _ => true end = true →
  has_char nul v = false → has_char nul (ApplySingleEnvMod m v) = false.
Proof.
  unfold ApplySingleEnvMod. intros Hm Hv. destruct (emod m); [| |discriminate].
  - apply c_str_no_nul.
  - rewrite has_char_app, c_str_no_nul, orb_false_r.
    destruct (negb (str_empty v)); [|exact Hv].
    now rewrite has_char_app, Hv, sep_text_no_nul.
Qed.

Lemma apply_in_place_wf (env : EnvMap) (m : EnvironmentModification) :
  mod_ok m = true → env_wf env = true → env_wf (apply_in_place env m) = true.
Proof.
  unfold mod_ok. intros Hm Hwf. apply andb_true_iff in Hm as [Hm Hn].
  unfold apply_in_place, env_modify. apply env_set_wf; [|exact Hwf].
  unfold entry_ok. cbn [fst snd]. rewrite Hn, c_str_no_nul. cbn [negb andb].
  apply negb_true_iff, apply_no_nul; [exact Hm|].
  apply env_index_no_nul, env_wf_entries, Hwf.
Qed.

Lemma env_touch_wf (k : string) (env : EnvMap) :
  has_char "="%char k = false → has_char nul k = false →
  env_wf env = true → env_wf (env_touch k env) = true.
Proof.
  intros H1 H2 Hwf. unfold env_touch. destruct (env_find k env); [exact Hwf|].
  apply env_set_wf; [|exact Hwf]. unfold entry_ok. cbn [fst snd]. now rewrite H1, H2.
Qed.

Lemma fix_up_spec (env : EnvMap) (m : EnvironmentModification) :
  (∀ k, env_index (fix_up env m).1 k = env_index env k) ∧
  name (fix_up env m).2 = name m ∧ emod (fix_up env m).2 = emod m ∧
  sep (fix_up env m).2 = sep m ∧
  (env_wf env = true → env_wf (fix_up env m).1 = true).
Proof.
  unfold fix_up.
  destruct (String.eqb (c_str (name m)) "RENDERDOC_ORIGLIBPATH");
    [|destruct (String.eqb (c_str (name m)) "RENDERDOC_ORIGPRELOAD")]; cbn [fst snd];
    repeat split; try (intros k; apply env_index_touch); auto;
    intros Hwf; now apply env_touch_wf.
Qed.

Lemma hooked_step_wf (env : EnvMap) (m : EnvironmentModification) :
  mod_ok m = true → env_wf env = true → env_wf (hooked_step env m) = true.
Proof.
  intros Hm Hwf. unfold hooked_step.
  destruct (fix_up_spec env m) as (_ & Hn & He & _ & Hw).
  destruct (fix_up env m) as [env1 m1]. cbn [fst snd] in *.
  apply apply_in_place_wf; [|now apply Hw]. unfold mod_ok. now rewrite He, Hn.
Qed.

Lemma hooked_fold_wf (mods : list EnvironmentModification) (env : EnvMap) :
  forallb mod_ok mods = true → env_wf env = true →
  env_wf (fold_left hooked_step mods env) = true.
Proof.
  revert env. induction mods as [|m mods IH]; intros env Hm Hwf; [exact Hwf|].
  cbn [forallb] in Hm. apply andb_true_iff in Hm as [H1 H2].
  cbn [fold_left]. apply IH; [exact H2|]. now apply hooked_step_wf.
Qed.

Lemma env_index_hooked_step (env : EnvMap) (m : EnvironmentModification) (k : string) :
  env_index (hooked_step env m) k
  = if String.eqb k (c_str (name m)) then ApplySingleEnvMod (fix_up env m).2 (env_index env k)
    else env_index env k.
Proof.
  unfold hooked_step. destruct (fix_up_spec env m) as (Hi & Hn & _).
  destruct (fix_up env m) as [env1 m1]. cbn [fst snd] in *.
  now rewrite env_index_apply, Hn, Hi.
Qed.

Lemma hooking_mods_ok (P : Platform) (opts : CaptureOptions) (capturefile : string) :
  forallb mod_ok (GetHookingEnvMods P [] opts capturefile) = true.
Proof. reflexivity. Qed.

(** The map [GetHookedEnvp] flattens, variable by variable. *)
Lemma hooked_map (P : Platform) (opts : CaptureOptions) (capturefile : string)
      (env0 : EnvMap) :
  let env' := fold_left hooked_step (GetHookingEnvMods P [] opts capturefile) env0 in
  let binpath := get_dirname P (GetExecutableFilename P) in
  env_index env' "RENDERDOC_CAPFILE" = c_str capturefile ∧
  env_index env' "RENDERDOC_CAPOPTS" = c_str (EncodeAsString opts) ∧
  env_index env' "RENDERDOC_DEBUG_LOG_FILE" = c_str (RDCGETLOGFILE P) ∧
  env_index env' PRELOAD_ENV_VAR
  = appended "librenderdoc.so" (env_index env0 PRELOAD_ENV_VAR) ∧
  env_index env' LIB_PATH_ENV_VAR
  = appended (get_dirname P (GetLibraryFilename P))
      (appended (binpath +:+ "/../lib")
         (appended binpath (env_index env0 LIB_PATH_ENV_VAR))) ∧
  env_index env' "RENDERDOC_ORIGLIBPATH"
  = appended (env_index env0 LIB_PATH_ENV_VAR) (env_index env0 "RENDERDOC_ORIGLIBPATH") ∧
  env_index env' "RENDERDOC_ORIGPRELOAD"
  = appended (env_index env0 PRELOAD_ENV_VAR) (env_index env0 "RENDERDOC_ORIGPRELOAD") ∧
  (∀ k, k ∉ hooking_names → env_index env' k = env_index env0 k).
Proof.
  intros env' binpath. subst env'. unfold GetHookingEnvMods. cbn [app fold_left].
  fold binpath.
  repeat split.
  1-7: repeat (rewrite env_index_hooked_step; unfold fix_up; cbn [name]; name_tests;
               cbn [fst snd]); reflexivity.
  intros k Hk. unfold hooking_names in Hk.
  rewrite !env_index_hooked_step. cbn [name].
  repeat match goal with
         | |- context [String.eqb k (c_str ?s)] =>
             replace (String.eqb k (c_str s)) with false;
             [|symmetry; apply String.eqb_neq; intros ->; apply Hk;
               apply list_elem_of_In; vm_compute; tauto]
         end.
  reflexivity.
Qed.

Lemma hooked_envp (P : Platform) (opts : CaptureOptions) (capturefile : string)
      (envp : list string) :
  let envmap := fold_left hooked_step (GetHookingEnvMods P [] opts capturefile)
                          (EnvStringToEnvMap envp) in
  GetHookedEnvp P opts capturefile envp = Some (env_lines envmap) ∧
  EnvStringToEnvMap (env_lines envmap) = envmap ∧ env_wf envmap = true.
Proof.
  intros envmap.
  assert (Hwf : env_wf envmap = true).
  { apply hooked_fold_wf; [apply hooking_mods_ok | apply EnvStringToEnvMap_wf]. }
  split; [|split; [now apply lines_round_trip | exact Hwf]].
  unfold GetHookedEnvp. fold envmap. apply split_flatten. now apply env_wf_entries.
Qed.

Lemma setenv_find_eval (n v k : string) (penv : EnvMap) (b : bool) :
  String.eqb k n && negb (str_empty n || has_char "="%char n) = b →
  env_find k (setenv n v penv) = if b then Some v else env_find k penv.
Proof. intros <-. apply setenv_find. Qed.

Lemma unsetenv_find (n k : string) (penv : EnvMap) :
  keys_sorted penv = true →
  env_find k (unsetenv n penv)
  = if String.eqb k n && negb (str_empty n || has_char "="%char n) then None
    else env_find k penv.
Proof.
  intros Hs. unfold unsetenv. destruct (str_empty n || has_char "="%char n); cbn [negb].
  - now rewrite andb_false_r.
  - rewrite andb_true_r. now apply env_find_erase.
Qed.

Lemma unsetenv_find_eval (n k : string) (penv : EnvMap) (b : bool) :
  keys_sorted penv = true →
  String.eqb k n && negb (str_empty n || has_char "="%char n) = b →
  env_find k (unsetenv n penv) = if b then None else env_find k penv.
Proof. intros Hs <-. now apply unsetenv_find. Qed.

Lemma setenv_sorted (n v : string) (penv : EnvMap) :
  keys_sorted penv = true → keys_sorted (setenv n v penv) = true.
Proof.
  intros Hs. unfold setenv. destruct (str_empty n || has_char "="%char n); [exact Hs|].
  now apply env_set_sorted.
Qed.

Lemma unsetenv_sorted (n : string) (penv : EnvMap) :
  keys_sorted penv = true → keys_sorted (unsetenv n penv) = true.
Proof.
  intros Hs. unfold unsetenv. destruct (str_empty n || has_char "="%char n); [exact Hs|].
  clear -Hs. induction penv as [|[k1 v1] env IH]; [reflexivity|]. cbn [env_erase].
  destruct (String.eqb n k1); [now apply keys_sorted_tail in Hs|].
  apply keys_sorted_cons; [|apply IH; now apply keys_sorted_tail in Hs].
  intros kv' Hin. apply env_erase_In in Hin. exact (keys_sorted_head _ _ Hs kv' Hin).
Qed.

Lemma appended_empty (p : string) : appended p "" = c_str p.
Proof. reflexivity. Qed.

Lemma appended_no_nul (p v : string) :
  has_char nul v = false → has_char nul (appended p v) = false.
Proof. intros Hv. now apply apply_no_nul. Qed.

(** What [ResetHookingEnvVars] leaves in the four variables it writes and
    in the others. *)
Lemma reset_spec (C : Platform) (penv : EnvMap) :
  keys_sorted penv = true →
  let penv' := ResetHookingEnvVars C penv in
  env_find LIB_PATH_ENV_VAR penv' = Some (c_str (GetEnvVariable C "RENDERDOC_ORIGLIBPATH")) ∧
  env_find PRELOAD_ENV_VAR penv' = Some (c_str (GetEnvVariable C "RENDERDOC_ORIGPRELOAD")) ∧
  env_find "RENDERDOC_ORIGLIBPATH" penv' = None ∧
  env_find "RENDERDOC_ORIGPRELOAD" penv' = None ∧
  (∀ k, k ∉ [LIB_PATH_ENV_VAR; PRELOAD_ENV_VAR; "RENDERDOC_ORIGLIBPATH";
             "RENDERDOC_ORIGPRELOAD"] →
        env_find k penv' = env_find k penv).
Proof.
  intros Hs penv'. subst penv'. unfold ResetHookingEnvVars.
  set (p1 := setenv LIB_PATH_ENV_VAR _ penv).
  set (p2 := setenv PRELOAD_ENV_VAR _ p1).
  set (p3 := unsetenv "RENDERDOC_ORIGLIBPATH" p2).
  assert (H1 : keys_sorted p1 = true) by now apply setenv_sorted.
  assert (H2 : keys_sorted p2 = true) by now apply setenv_sorted.
  assert (H3 : keys_sorted p3 = true) by now apply unsetenv_sorted.
  repeat split.
  - erewrite (unsetenv_find_eval _ _ p3) by (exact H3 || (vm_compute; reflexivity)).
    cbn iota. subst p3.
    erewrite (unsetenv_find_eval _ _ p2) by (exact H2 || (vm_compute; reflexivity)).
    cbn iota. subst p2.
    erewrite setenv_find_eval by (vm_compute; reflexivity). cbn iota. subst p1.
    erewrite setenv_find_eval by (vm_compute; reflexivity). reflexivity.
  - erewrite (unsetenv_find_eval _ _ p3) by (exact H3 || (vm_compute; reflexivity)).
    cbn iota. subst p3.
    erewrite (unsetenv_find_eval _ _ p2) by (exact H2 || (vm_compute; reflexivity)).
    cbn iota. subst p2.
    erewrite setenv_find_eval by (vm_compute; reflexivity). reflexivity.
  - erewrite (unsetenv_find_eval _ _ p3) by (exact H3 || (vm_compute; reflexivity)).
    cbn iota. subst p3.
    erewrite (unsetenv_find_eval _ _ p2) by (exact H2 || (vm_compute; reflexivity)).
    reflexivity.
  - erewrite (unsetenv_find_eval _ _ p3) by (exact H3 || (vm_compute; reflexivity)).
    reflexivity.
  - intros k Hk.
    assert (Hne : ∀ n, n ∈ [LIB_PATH_ENV_VAR; PRELOAD_ENV_VAR; "RENDERDOC_ORIGLIBPATH";
                            "RENDERDOC_ORIGPRELOAD"] →
                       String.eqb k n && negb (str_empty n || has_char "="%char n) = false).
    { intros n Hn. replace (String.eqb k n) with false; [reflexivity|].
      symmetry. apply String.eqb_neq. intros ->. exact (Hk Hn). }
    rewrite (unsetenv_find _ _ p3 H3), Hne
      by (apply list_elem_of_In; vm_compute; tauto).
    subst p3. rewrite (unsetenv_find _ _ p2 H2), Hne
      by (apply list_elem_of_In; vm_compute; tauto).
    subst p2. rewrite setenv_find, Hne by (apply list_elem_of_In; vm_compute; tauto).
    subst p1. rewrite setenv_find, Hne by (apply list_elem_of_In; vm_compute; tauto).
    reflexivity.
Qed.

Lemma env_index_of_find (env : EnvMap) (k v : string) :
  env_find k env = Some v → env_index env k = v.
Proof. unfold env_index. now intros ->. Qed.

Lemma c_str_c_str (s : string) : c_str (c_str s) = c_str s.
Proof. apply c_str_id, c_str_no_nul. Qed.

Lemma setenv_of_fold_find (snapshot : EnvMap) (mods : list EnvironmentModification)
      (m : EnvironmentModification) (after : list EnvironmentModification)
      (penv : EnvMap) (before : list EnvironmentModification) :
  mods = before ++ m :: after →
  str_empty (c_str (name m)) || has_char "="%char (c_str (name m)) = false →
  forallb (λ m', negb (String.eqb (c_str (name m')) (c_str (name m)))) after = true →
  env_find (c_str (name m)) (fold_left (setenv_of snapshot) mods penv)
  = Some (c_str (ApplySingleEnvMod m (env_index snapshot (c_str (name m))))).
Proof.
  intros -> Hn Hafter. rewrite fold_left_app. cbn [fold_left].
  rewrite setenv_fold_untouched.
  - unfold setenv_of at 1. now rewrite setenv_find, String.eqb_refl, Hn.
  - apply Forall_forall. intros m' Hin. rewrite forallb_forall in Hafter.
    apply list_elem_of_In in Hin.
    specialize (Hafter m' Hin). apply negb_true_iff in Hafter. now apply String.eqb_neq.
Qed.

Lemma inline_as_apply (ms : list EnvironmentModification) (env : EnvMap) :
  Forall (λ m, emod m ≠ EnvMod_Prepend) ms → inline_all env ms = apply_all env ms.
Proof.
  unfold inline_all, apply_all. revert env.
  induction ms as [|m ms IH]; intros env H; [reflexivity|].
  apply Forall_cons in H as [Hm H]. cbn [fold_left]. rewrite IH by exact H. f_equal.
  unfold inline_in_place, apply_in_place, env_modify.
  now rewrite inline_agrees by (left; exact Hm).
Qed.

Lemma hooking_mods_append (P : Platform) (mods : list EnvironmentModification)
      (opts : CaptureOptions) (capturefile : string) :
  GetHookingEnvMods P mods opts capturefile
  = mods ++ GetHookingEnvMods P [] opts capturefile.
Proof. reflexivity. Qed.

Lemma hooking_mods_no_prepend (P : Platform) (opts : CaptureOptions) (capturefile : string) :
  Forall (λ m, emod m ≠ EnvMod_Prepend) (GetHookingEnvMods P [] opts capturefile).
Proof.
  unfold GetHookingEnvMods. cbn [app].
  repeat (apply Forall_cons; split; [cbn; discriminate|]). apply Forall_nil. exact I.
Qed.

(** The map after the hooking modifications, applied one after the other
    to a map [env1]. *)
Lemma applied_map (P : Platform) (opts : CaptureOptions) (capturefile : string)
      (env1 : EnvMap) :
  let env' := apply_all env1 (GetHookingEnvMods P [] opts capturefile) in
  let binpath := get_dirname P (GetExecutableFilename P) in
  env_index env' "RENDERDOC_CAPFILE" = c_str capturefile ∧
  env_index env' "RENDERDOC_CAPOPTS" = c_str (EncodeAsString opts) ∧
  env_index env' "RENDERDOC_DEBUG_LOG_FILE" = c_str (RDCGETLOGFILE P) ∧
  env_index env' PRELOAD_ENV_VAR
  = appended "librenderdoc.so" (env_index env1 PRELOAD_ENV_VAR) ∧
  env_index env' LIB_PATH_ENV_VAR
  = appended (get_dirname P (GetLibraryFilename P))
      (appended (binpath +:+ "/../lib")
         (appended binpath (env_index env1 LIB_PATH_ENV_VAR))) ∧
  env_index env' "RENDERDOC_ORIGLIBPATH"
  = appended (GetEnvVariable P LIB_PATH_ENV_VAR) (env_index env1 "RENDERDOC_ORIGLIBPATH") ∧
  env_index env' "RENDERDOC_ORIGPRELOAD"
  = appended (GetEnvVariable P PRELOAD_ENV_VAR) (env_index env1 "RENDERDOC_ORIGPRELOAD") ∧
  (∀ k, k ∉ hooking_names → env_index env' k = env_index env1 k).
Proof.
  intros env' binpath. subst env'. unfold apply_all, GetHookingEnvMods.
  cbn [app fold_left]. fold binpath.
  repeat split.
  1-7: repeat (rewrite env_index_apply; cbn [name]; name_tests); reflexivity.
  intros k Hk. unfold hooking_names in Hk.
  rewrite !env_index_apply. cbn [name].
  repeat match goal with
         | |- context [String.eqb k (c_str ?s)] =>
             replace (String.eqb k (c_str s)) with false;
             [|symmetry; apply String.eqb_neq; intros ->; apply Hk;
               apply list_elem_of_In; vm_compute; tauto]
         end.
  reflexivity.
Qed.

End HooksMore.

(** X15. [GetHookedEnvp] always has a result.  Read back as a map, its
    lines hold the capture file, the capture options and the log file under
    their names; [LD_PRELOAD] with [librenderdoc.so] appended;
    [LD_LIBRARY_PATH] with the directory of the executable, its [../lib]
    and the directory of the library appended in that order (a build that
    defines neither [RENDERDOC_LIB_SUFFIX] nor [RENDERDOC_LIB_SUBFOLDER]).
    [RENDERDOC_ORIGLIBPATH] and [RENDERDOC_ORIGPRELOAD] are not set but
    appended to: each keeps what [envp] held under it and gets, behind a
    colon when that was not empty, the value [envp] gave to
    [LD_LIBRARY_PATH] and to [LD_PRELOAD]; that value is the one of
    [envp], not the one the caller's own environment holds.  Every other
    variable reads as in [envp]. *)
Theorem GetHookedEnvp_contents
        (P : Launcher.Platform) (opts : Launcher.CaptureOptions)
        (capturefile : string) (envp : list string) :
  ∃ out,
    Hooks.GetHookedEnvp P opts capturefile envp = Some out ∧
    let env0 := EnvEngine.EnvStringToEnvMap envp in
    let env' := EnvEngine.EnvStringToEnvMap out in
    let binpath := Launcher.get_dirname P (Launcher.GetExecutableFilename P) in
    EnvEngine.env_index env' "RENDERDOC_CAPFILE" = c_str capturefile ∧
    EnvEngine.env_index env' "RENDERDOC_CAPOPTS" = c_str (Launcher.EncodeAsString opts) ∧
    EnvEngine.env_index env' "RENDERDOC_DEBUG_LOG_FILE" = c_str (Launcher.RDCGETLOGFILE P) ∧
    EnvEngine.env_index env' "LD_PRELOAD"
    = Hooks.appended "librenderdoc.so" (EnvEngine.env_index env0 "LD_PRELOAD") ∧
    EnvEngine.env_index env' "LD_LIBRARY_PATH"
    = Hooks.appended (Launcher.get_dirname P (Launcher.GetLibraryFilename P))
        (Hooks.appended (binpath +:+ "/../lib")
           (Hooks.appended binpath (EnvEngine.env_index env0 "LD_LIBRARY_PATH"))) ∧
    EnvEngine.env_index env' "RENDERDOC_ORIGLIBPATH"
    = Hooks.appended (EnvEngine.env_index env0 "LD_LIBRARY_PATH")
                     (EnvEngine.env_index env0 "RENDERDOC_ORIGLIBPATH") ∧
    EnvEngine.env_index env' "RENDERDOC_ORIGPRELOAD"
    = Hooks.appended (EnvEngine.env_index env0 "LD_PRELOAD")
                     (EnvEngine.env_index env0 "RENDERDOC_ORIGPRELOAD") ∧
    (∀ k, k ∉ Hooks.hooking_names →
          EnvEngine.env_index env' k = EnvEngine.env_index env0 k).
Proof.
  destruct (hooked_envp P opts capturefile envp) as (Hout & Hback & _).
  eexists. split; [exact Hout|]. cbv zeta. rewrite Hback.
  exact (hooked_map P opts capturefile (EnvEngine.EnvStringToEnvMap envp)).
Qed.

(** X16. [PreForkConfigureHooks] hands the same modifications to
    [ApplyEnvironmentModifications], which applies each one to the value
    from before the call: of the three paths for [LD_LIBRARY_PATH] the
    process gets the last one only, the directory of the library, appended
    to the value it had.  The other variables of the process stay. *)
Theorem PreForkConfigureHooks_library_path
        (P : Launcher.Platform) (opts : Launcher.CaptureOptions)
        (capturefile : string) (penv : EnvEngine.EnvMap) :
  let snapshot := EnvEngine.EnvStringToEnvMap (Launcher.GetCurrentEnvironment P) in
  let penv' := Hooks.PreForkConfigureHooks P opts capturefile penv in
  EnvEngine.env_find "LD_LIBRARY_PATH" penv'
  = Some (c_str (Hooks.appended (Launcher.get_dirname P (Launcher.GetLibraryFilename P))
                                (EnvEngine.env_index snapshot "LD_LIBRARY_PATH"))) ∧
  EnvEngine.env_find "LD_PRELOAD" penv'
  = Some (c_str (Hooks.appended "librenderdoc.so"
                                (EnvEngine.env_index snapshot "LD_PRELOAD"))) ∧
  EnvEngine.env_find "RENDERDOC_CAPFILE" penv' = Some (c_str capturefile) ∧
  (∀ k, k ∉ Hooks.hooking_names → EnvEngine.env_find k penv' = EnvEngine.env_find k penv).
Proof.
  intros snapshot penv'. subst penv'.
  unfold Hooks.PreForkConfigureHooks, EnvEngine.ApplyEnvironmentModifications.
  fold snapshot. rewrite (apply_to_process_fold _ snapshot) by reflexivity.
  unfold Launcher.GetHookingEnvMods. cbn [app].
  split; [|split; [|split]].
  - match goal with
    | |- context [fold_left _ [?m1; ?m2; ?m3; ?m4; ?m5; ?m6; ?m7; ?m8; ?m9] _] =>
        exact (setenv_of_fold_find snapshot _ m5 [m6; m7; m8; m9] penv [m1; m2; m3; m4]
                 eq_refl eq_refl eq_refl)
    end.
  - match goal with
    | |- context [fold_left _ [?m1; ?m2; ?m3; ?m4; ?m5; ?m6; ?m7; ?m8; ?m9] _] =>
        exact (setenv_of_fold_find snapshot _ m6 [m7; m8; m9] penv [m1; m2; m3; m4; m5]
                 eq_refl eq_refl eq_refl)
    end.
  - match goal with
    | |- context [fold_left _ [?m1; ?m2; ?m3; ?m4; ?m5; ?m6; ?m7; ?m8; ?m9] _] =>
        etransitivity;
        [exact (setenv_of_fold_find snapshot _ m7 [m8; m9] penv [m1; m2; m3; m4; m5; m6]
                  eq_refl eq_refl eq_refl)|]
    end.
    unfold EnvEngine.ApplySingleEnvMod. cbn [EnvEngine.emod EnvEngine.value].
    now rewrite c_str_c_str.
  - intros k Hk. apply setenv_fold_untouched.
    repeat (apply Forall_cons; split;
            [cbn [EnvEngine.name]; intros <-; apply Hk; apply list_elem_of_In;
             vm_compute; tauto|]).
    apply Forall_nil. exact I.
Qed.

(** X17. A child that starts with the lines of [GetHookedEnvp] as its
    variables and runs [ResetHookingEnvVars] ends with [LD_LIBRARY_PATH]
    and [LD_PRELOAD] as [envp] had them, an absent variable now being
    present and empty, provided [envp] held nothing under
    [RENDERDOC_ORIGLIBPATH] and [RENDERDOC_ORIGPRELOAD]; what [envp] held
    there stays in front of the restored value otherwise.  The two
    [RENDERDOC_ORIG] variables are gone, and the capture variables stay.
    [GetEnvVariable] is taken to answer with the variables of the child. *)
Theorem ResetHookingEnvVars_restores
        (P C : Launcher.Platform) (opts : Launcher.CaptureOptions)
        (capturefile : string) (envp out : list string) :
  Hooks.GetHookedEnvp P opts capturefile envp = Some out →
  let env0 := EnvEngine.EnvStringToEnvMap envp in
  let penv := EnvEngine.EnvStringToEnvMap out in
  Launcher.GetEnvVariable C "RENDERDOC_ORIGLIBPATH"
  = EnvEngine.env_index penv "RENDERDOC_ORIGLIBPATH" →
  Launcher.GetEnvVariable C "RENDERDOC_ORIGPRELOAD"
  = EnvEngine.env_index penv "RENDERDOC_ORIGPRELOAD" →
  let penv' := Hooks.ResetHookingEnvVars C penv in
  EnvEngine.env_find "LD_LIBRARY_PATH" penv'
  = Some (Hooks.appended (EnvEngine.env_index env0 "LD_LIBRARY_PATH")
                         (EnvEngine.env_index env0 "RENDERDOC_ORIGLIBPATH")) ∧
  EnvEngine.env_find "LD_PRELOAD" penv'
  = Some (Hooks.appended (EnvEngine.env_index env0 "LD_PRELOAD")
                         (EnvEngine.env_index env0 "RENDERDOC_ORIGPRELOAD")) ∧
  (EnvEngine.env_index env0 "RENDERDOC_ORIGLIBPATH" = "" →
   EnvEngine.env_find "LD_LIBRARY_PATH" penv'
   = Some (EnvEngine.env_index env0 "LD_LIBRARY_PATH")) ∧
  (EnvEngine.env_index env0 "RENDERDOC_ORIGPRELOAD" = "" →
   EnvEngine.env_find "LD_PRELOAD" penv' = Some (EnvEngine.env_index env0 "LD_PRELOAD")) ∧
  EnvEngine.env_find "RENDERDOC_ORIGLIBPATH" penv' = None ∧
  EnvEngine.env_find "RENDERDOC_ORIGPRELOAD" penv' = None ∧
  EnvEngine.env_index penv' "RENDERDOC_CAPFILE" = c_str capturefile.
Proof.
  intros Hout env0 penv HgetL HgetP penv'. subst penv' penv env0.
  destruct (hooked_envp P opts capturefile envp) as (Hout' & Hback & Hwf).
  pose proof (hooked_map P opts capturefile (EnvEngine.EnvStringToEnvMap envp)) as Hmap.
  cbv zeta in Hmap.
  set (M := fold_left Hooks.hooked_step _ _) in Hout', Hback, Hwf, Hmap.
  assert (Eo : out = EnvEngine.env_lines M) by congruence. subst out.
  rewrite Hback in HgetL, HgetP |- *.
  destruct Hmap as (Hcap & _ & _ & _ & _ & HoL & HoP & _).
  assert (Hs : EnvEngine.keys_sorted M = true).
  { unfold EnvEngine.env_wf in Hwf. now apply andb_true_iff in Hwf as [H _]. }
  destruct (reset_spec C M Hs) as (RL & RP & RoL & RoP & Rother).
  set (penv' := Hooks.ResetHookingEnvVars C M) in *.
  assert (Hn0 : ∀ k, has_char nul
                       (EnvEngine.env_index (EnvEngine.EnvStringToEnvMap envp) k) = false).
  { intros k. apply env_index_no_nul, env_wf_entries, EnvStringToEnvMap_wf. }
  assert (EL : EnvEngine.env_find "LD_LIBRARY_PATH" penv'
               = Some (Hooks.appended
                         (EnvEngine.env_index (EnvEngine.EnvStringToEnvMap envp)
                                              "LD_LIBRARY_PATH")
                         (EnvEngine.env_index (EnvEngine.EnvStringToEnvMap envp)
                                              "RENDERDOC_ORIGLIBPATH"))).
  { etransitivity; [exact RL|]. rewrite HgetL, HoL. f_equal.
    apply c_str_id, appended_no_nul, Hn0. }
  assert (EP : EnvEngine.env_find "LD_PRELOAD" penv'
               = Some (Hooks.appended
                         (EnvEngine.env_index (EnvEngine.EnvStringToEnvMap envp)
                                              "LD_PRELOAD")
                         (EnvEngine.env_index (EnvEngine.EnvStringToEnvMap envp)
                                              "RENDERDOC_ORIGPRELOAD"))).
  { etransitivity; [exact RP|]. rewrite HgetP, HoP. f_equal.
    apply c_str_id, appended_no_nul, Hn0. }
  split; [exact EL|]. split; [exact EP|].
  split; [|split; [|split; [exact RoL|split; [exact RoP|]]]].
  - intros E. rewrite EL, E, appended_empty. f_equal. apply c_str_id, Hn0.
  - intros E. rewrite EP, E, appended_empty. f_equal. apply c_str_id, Hn0.
  - unfold EnvEngine.env_index at 1. rewrite Rother; [exact Hcap|].
    intros Hin. apply list_elem_of_In in Hin. vm_compute in Hin.
    intuition discriminate.
Qed.

Lemma ResetHookingEnvVars_restores_witness :
  EnvEngine.env_find "LD_LIBRARY_PATH"
    (Hooks.ResetHookingEnvVars Hooks.demo_child
       (EnvEngine.EnvStringToEnvMap
          (EnvEngine.env_lines
             (fold_left Hooks.hooked_step
                (Launcher.GetHookingEnvMods Launcher.demo_platform [] (Launcher.mkOpts "opts" 0)
                                            "/tmp/cap")
                (EnvEngine.EnvStringToEnvMap ["LD_LIBRARY_PATH=/x"])))))
  = Some "/x".
Proof.
  apply (ResetHookingEnvVars_restores Launcher.demo_platform Hooks.demo_child
           (Launcher.mkOpts "opts" 0) "/tmp/cap" ["LD_LIBRARY_PATH=/x"]).
  - vm_compute. reflexivity.
  - vm_compute. reflexivity.
  - vm_compute. reflexivity.
  - reflexivity.
Defined.

(** X18. The environment [LaunchAndInjectIntoProcess] composes.  Its loop
    treats the hooking modifications, which are [Append]s and [Set]s, as
    [ApplySingleEnvMod] does, so it is only through a [Prepend] among the
    registered or the given modifications that it can depart from it.
    Whatever those modifications are, the map it flattens holds the capture
    file, the capture options and the log file under their names,
    [LD_PRELOAD] ends in [librenderdoc.so], and [RENDERDOC_ORIGLIBPATH]
    gets the caller's own [LD_LIBRARY_PATH] appended. *)
Theorem LaunchAndInject_environment
        (P : Launcher.Platform) (mods : list EnvEngine.EnvironmentModification)
        (opts : Launcher.CaptureOptions) (capturefile : string) (env : EnvEngine.EnvMap) :
  let all := Launcher.GetHookingEnvMods P mods opts capturefile in
  let env1 := EnvEngine.inline_all env mods in
  let env' := EnvEngine.inline_all env all in
  env' = EnvEngine.apply_all env1 (Launcher.GetHookingEnvMods P [] opts capturefile) ∧
  (Forall (λ m, EnvEngine.emod m ≠ EnvEngine.EnvMod_Prepend) mods →
   env' = EnvEngine.apply_all env all) ∧
  EnvEngine.env_index env' "RENDERDOC_CAPFILE" = c_str capturefile ∧
  EnvEngine.env_index env' "RENDERDOC_CAPOPTS" = c_str (Launcher.EncodeAsString opts) ∧
  EnvEngine.env_index env' "RENDERDOC_DEBUG_LOG_FILE" = c_str (Launcher.RDCGETLOGFILE P) ∧
  EnvEngine.env_index env' "LD_PRELOAD"
  = Hooks.appended "librenderdoc.so" (EnvEngine.env_index env1 "LD_PRELOAD") ∧
  EnvEngine.env_index env' "RENDERDOC_ORIGLIBPATH"
  = Hooks.appended (Launcher.GetEnvVariable P "LD_LIBRARY_PATH")
                   (EnvEngine.env_index env1 "RENDERDOC_ORIGLIBPATH") ∧
  (∀ k, k ∉ Hooks.hooking_names →
        EnvEngine.env_index env' k = EnvEngine.env_index env1 k).
Proof.
  intros all env1 env'.
  assert (E : env' = EnvEngine.apply_all env1
                       (Launcher.GetHookingEnvMods P [] opts capturefile)).
  { subst env' all env1. rewrite hooking_mods_append. unfold EnvEngine.inline_all at 1.
    rewrite fold_left_app. fold (EnvEngine.inline_all env mods).
    fold (EnvEngine.inline_all (EnvEngine.inline_all env mods)
                               (Launcher.GetHookingEnvMods P [] opts capturefile)).
    apply inline_as_apply, hooking_mods_no_prepend. }
  split; [exact E|]. split.
  - intros Hmods. subst env' all. apply inline_as_apply.
    rewrite hooking_mods_append. apply Forall_app. split; [exact Hmods|].
    apply hooking_mods_no_prepend.
  - rewrite E. pose proof (applied_map P opts capturefile env1) as H. cbv zeta in H.
    destruct H as (H1 & H2 & H3 & H4 & _ & H6 & _ & H8).
    repeat split; assumption.
Qed.

Lemma LaunchAndInject_environment_witness :
  EnvEngine.inline_all [("LD_PRELOAD", "libfoo.so")]
    (Launcher.GetHookingEnvMods Launcher.demo_platform
       [EnvEngine.mkEnvMod EnvEngine.EnvMod_Set EnvEngine.EnvSep_NoSep "FOO" "1"]
       (Launcher.mkOpts "opts" 0) "/tmp/cap")
  = EnvEngine.apply_all [("LD_PRELOAD", "libfoo.so")]
      (Launcher.GetHookingEnvMods Launcher.demo_platform
         [EnvEngine.mkEnvMod EnvEngine.EnvMod_Set EnvEngine.EnvSep_NoSep "FOO" "1"]
         (Launcher.mkOpts "opts" 0) "/tmp/cap").
Proof.
  apply (LaunchAndInject_environment Launcher.demo_platform
           [EnvEngine.mkEnvMod EnvEngine.EnvMod_Set EnvEngine.EnvSep_NoSep "FOO" "1"]
           (Launcher.mkOpts "opts" 0) "/tmp/cap" [("LD_PRELOAD", "libfoo.so")]).
  repeat constructor. discriminate.
Defined.

(** ** [LaunchProcess], [LaunchScript], injection and [main] *)

Section LaunchMore.
Import Tokenizer EnvEngine Launcher Launch.
Variable P : Platform.

Lemma bind_call {R R' B} (m : M R' R') (k : R' → M R B) w :
  bind (call m) k w
  = match m w with
    | (w', Return r) => k r w'
    | (w', Next _) => (w', Undefined)
    | (w', Replaced) => (w', Replaced)
    | (w', Exited st) => (w', Exited st)
    | (w', Undefined) => (w', Undefined)
    end.
Proof. unfold bind, call. destruct (m w) as [w' []]; reflexivity. Qed.

Lemma redirect_not_child (e : event) : is_redirect_event e = true → is_child_event e = false.
Proof. now destruct e. Qed.

Lemma printf_not_child (evs : list event) :
  forallb is_printf evs = true → forallb (λ e, negb (is_child_event e)) evs = true.
Proof.
  rewrite !forallb_forall. intros H e He. specialize (H e He). now destruct e.
Qed.

Lemma redirect_tail_not_child :
  forallb (λ e, negb (is_child_event e)) redirect_tail = true.
Proof. reflexivity. Qed.

(** [RunProcess] as its callers see it: child pid 0 or no return, the
    lists of children as they were, and no event that needs a child. *)
Lemma RunProcess_no_child appName workDir cmdLine envp pauseAtMain so se w :
  ∃ evs,
    forallb (λ e, negb (is_child_event e)) evs = true ∧
    (RunProcess P appName workDir cmdLine envp pauseAtMain so se w
     = (log_events w evs, Return 0%Z) ∨
     RunProcess P appName workDir cmdLine envp pauseAtMain so se w
     = (log_events w evs, Replaced)).
Proof.
  destruct (RunProcess_cases P appName workDir cmdLine envp pauseAtMain so se w)
    as [(logs & Hl & E)|(prints & Hp & E)].
  - exists logs. split; [|now left].
    rewrite forallb_forall in Hl |- *. intros e He. specialize (Hl e He). now destruct e.
  - exists (prints ++ redirect_tail). split.
    + rewrite forallb_app, (printf_not_child _ Hp). reflexivity.
    + destruct (execve_succeeds P hmi argv_buf env_buf); [now right | now left].
Qed.


Lemma make_pipe_run {R B} (answer : option (Z * Z)) (unset : Z * Z) (what : string)
      (k : Z * Z → M R B) w :
  bind (make_pipe answer unset what) k w
  = k (match answer with Some fds => fds | None => unset end)
      (log_events w (match answer with Some _ => [] | None => [EvLog what []] end)).
Proof.
  unfold make_pipe. destruct answer.
  - now rewrite bind_pure, log_events_nil.
  - now rewrite bind_assoc, bind_emit, bind_pure.
Qed.

(** [LaunchProcess] once [app] is not empty. *)
Lemma LaunchProcess_cases (S : PipeSystem) app workingDir cmdLine internal result w :
  str_empty app = false →
  ∃ evs,
    forallb (λ e, negb (is_child_event e)) evs = true ∧
    (LaunchProcess P S app workingDir cmdLine internal result w
     = (log_events w evs, Replaced) ∨
     LaunchProcess P S app workingDir cmdLine internal result w
     = (log_events w (evs ++ match result with
                             | Some _ => [EvClose (stdout_fds S).1; EvClose (stderr_fds S).1]
                             | None => []
                             end),
        Return (0%Z, cleared result))).
Proof.
  intros Happ. unfold LaunchProcess. rewrite Happ. cbn [when]. rewrite bind_pure.
  destruct result as [r0|].
  - rewrite !bind_assoc, make_pipe_run, bind_assoc, make_pipe_run, bind_pure, bind_call.
    rewrite log_events_app. fold (stdout_fds S) (stderr_fds S). cbn [fmap option_fmap option_map fst snd].
    match goal with
    | |- context [RunProcess P ?a ?b ?c ?d ?e ?f ?g ?w1] =>
        destruct (RunProcess_no_child a b c d e f g w1) as (evs & Hevs & [-> | ->])
    end.
    + match goal with
      | |- context [log_events (log_events w ?pe) evs] => exists (pe ++ evs)
      end.
      split.
      { rewrite forallb_app, Hevs, andb_true_r.
        destruct (pipe_stdout S), (pipe_stderr S); reflexivity. }
      right. cbn [Z.eqb negb]. rewrite bind_assoc, bind_pure.
      unfold close. rewrite !bind_assoc, bind_emit, bind_assoc, bind_emit, bind_pure.
      unfold ret. rewrite !log_events_app, <- !app_assoc. reflexivity.
    + match goal with
      | |- context [log_events (log_events w ?pe) evs] => exists (pe ++ evs)
      end.
      split.
      { rewrite forallb_app, Hevs, andb_true_r.
        destruct (pipe_stdout S), (pipe_stderr S); reflexivity. }
      left. now rewrite log_events_app.
  - rewrite bind_pure, bind_call. cbn [fmap option_fmap option_map].
    match goal with
    | |- context [RunProcess P ?a ?b ?c ?d ?e ?f ?g ?w1] =>
        destruct (RunProcess_no_child a b c d e f g w1) as (evs & Hevs & [-> | ->])
    end.
    + exists evs. split; [exact Hevs|]. right. rewrite bind_pure, app_nil_r. reflexivity.
    + exists evs. split; [exact Hevs|]. now left.
Qed.









Lemma bind_exit {R A B} (st : Z) (k : A → M R B) w :
  bind (_exit st) k w = (w, Exited st).
Proof. reflexivity. Qed.

Lemma bind_fork {R B} (k : Z → M R B) w :
  bind (fork P) k w = k (fork_result P) (log_events w [EvFork (fork_result P)]).
Proof. unfold fork. now rewrite bind_assoc, bind_emit, bind_pure. Qed.

Lemma map_printf_is_printf {A} (f : A → string) (g : A → list parg) (l : list A) :
  forallb is_printf (map (λ x, EvPrintf (f x) (g x)) l) = true.
Proof. induction l as [|x l IH]; [reflexivity|exact IH]. Qed.

Lemma main_run (argv penv : list string) w :
  ∃ prints,
    forallb is_printf prints = true ∧
    Launch.main P argv penv w
    = let argv1 := c_str (nth 1 argv "") in
      let bye := EvPrintf ("shouldn't get here" +:+ nl) [] in
      let ex := EvExecve argv1 (map c_str (tl argv)) (map c_str penv) in
      let child :=
        [EvFork 0; EvPrintf "" [PStr "argv[1] = "; PStr argv1; PStr nl];
         EvChdir hard_workdir;
         EvPrintf "" [PStr "change workdir = "; PStr hard_workdir; PStr nl]; ex] in
      if (length argv <=? 1)%nat then (log_events w (prints ++ [bye]), Exited EXIT_SUCCESS)
      else if (fork_result P =? 0)%Z then
        if execve_succeeds P argv1 (map c_str (tl argv)) (map c_str penv) then
          (log_events w (prints ++ child), Replaced)
        else
          (log_events w (prints ++ child ++
                         [EvPrintf "" [PStr "failed to execve"; PStr nl];
                          EvStderr "execve"]),
           Exited EXIT_FAILURE)
      else
        (log_events w (prints ++
                       [EvFork (fork_result P);
                        EvPrintf "" [PStr "main create childPid = ";
                                     PInt (fork_result P); PStr nl];
                        bye]),
         Exited EXIT_SUCCESS).
Proof.
  unfold Launch.main, Launch.cout.
  unfold printf at 1. rewrite bind_emit.
  unfold printf at 1. rewrite bind_emit.
  rewrite bind_for_each_printf.
  unfold printf at 1. rewrite bind_emit.
  rewrite bind_for_each_printf.
  unfold printf at 1. rewrite bind_emit.
  rewrite !log_events_app.
  match goal with
  | |- context [bind _ _ (log_events w ?pr)] => exists pr
  end.
  split.
  { rewrite !forallb_app, !map_printf_is_printf. reflexivity. }
  cbv zeta.
  assert (Hargc : (1 <? Z.of_nat (length argv))%Z = negb (length argv <=? 1)%nat).
  { destruct (Nat.leb_spec (length argv) 1); [apply Z.ltb_ge; lia | apply Z.ltb_lt; lia]. }
  rewrite Hargc. destruct (length argv <=? 1)%nat; cbn [negb when].
  - rewrite bind_pure. unfold printf. rewrite bind_emit, log_events_app.
    reflexivity.
  - rewrite bind_assoc, bind_fork. destruct (fork_result P =? 0)%Z eqn:Hf.
    + apply Z.eqb_eq in Hf. rewrite Hf.
      unfold printf at 1. rewrite !bind_assoc, bind_emit.
      unfold chdir. rewrite bind_assoc, bind_emit.
      unfold printf at 1. rewrite bind_assoc, bind_emit.
      rewrite bind_assoc, bind_execve.
      destruct (execve_succeeds P _ _ _).
      * rewrite !log_events_app. reflexivity.
      * cbn [Z.eqb Pos.eqb]. unfold printf at 1.
        repeat (rewrite bind_assoc || rewrite bind_emit || rewrite bind_exit).
        rewrite !log_events_app. cbn [Datatypes.app]. reflexivity.
    + unfold printf. rewrite bind_emit, bind_emit, !log_events_app.
      reflexivity.
Qed.

Lemma bind_undefined {R A B} (k : A → M R B) w :
  bind (undefined (A := A)) k w = (w, Undefined).
Proof. reflexivity. Qed.

Lemma wrapper_main_run (argv env : list string) w :
  ∃ prints,
    forallb is_printf prints = true ∧
    Wrapper.main P argv env w
    = let bye := EvPrintf ("shouldn't get here" +:+ nl) [] in
      match argv with
      | [] => (log_events w prints, Undefined)
      | _ :: [] => (log_events w (prints ++ [bye]), Exited EXIT_SUCCESS)
      | _ :: argv1 :: _ =>
          let ex := EvExecve (c_str argv1) (map c_str argv) (map c_str env) in
          let say := EvPrintf "" [PStr "argv[1] = "; PStr (c_str argv1); PStr nl] in
          if execve_succeeds P (c_str argv1) (map c_str argv) (map c_str env) then
            (log_events w (prints ++ [say; ex]), Replaced)
          else
            (log_events w (prints ++
                           [say; ex; EvPrintf "" [PStr "failed to execve"; PStr nl];
                            EvStderr "execve"]),
             Exited EXIT_FAILURE)
      end.
Proof.
  unfold Wrapper.main, Launch.cout.
  unfold printf at 1. rewrite bind_emit.
  unfold printf at 1. rewrite bind_emit.
  rewrite bind_for_each_printf.
  unfold printf at 1. rewrite bind_emit.
  rewrite bind_for_each_printf.
  unfold printf at 1. rewrite bind_emit.
  rewrite !log_events_app.
  match goal with
  | |- context [bind _ _ (log_events w ?pr)] => exists pr
  end.
  split.
  { rewrite !forallb_app, !map_printf_is_printf. reflexivity. }
  cbv zeta. destruct argv as [|argv0 [|argv1 rest]].
  - rewrite bind_undefined. reflexivity.
  - rewrite bind_pure. unfold printf. rewrite bind_emit, log_events_app.
    reflexivity.
  - unfold printf at 1. rewrite !bind_assoc, bind_emit.
    rewrite bind_assoc, bind_execve.
    destruct (execve_succeeds P _ _ _).
    + rewrite !log_events_app. reflexivity.
    + cbn [Z.eqb Pos.eqb when]. unfold printf at 1.
      repeat (rewrite bind_assoc || rewrite bind_emit || rewrite bind_exit).
      rewrite !log_events_app. cbn [Datatypes.app]. reflexivity.
Qed.

End LaunchMore.


(** X20. [LaunchProcess] never has a child to read from: it returns 0 or,
    when the constant program has replaced the process, does not return.
    With a result to fill and a non-empty [app] it returns with both
    captured texts empty and the return code as the caller left it; the
    reads and the wait are never reached.  The only descriptors it closes
    are the two read ends, last of all, so the write ends of both pipes
    stay open.  It never forks and leaves the lists of children as they
    were. *)
Theorem LaunchProcess_never_reads_child
        (P : Launcher.Platform) (S : Launch.PipeSystem)
        (app workingDir cmdLine : string) (internal : bool)
        (result : option Launch.ProcessResult) (w : Launcher.world) :
  let r := Launch.LaunchProcess P S app workingDir cmdLine internal result w in
  (r.2 = Launcher.Replaced ∨
   r.2 = Launcher.Return (0%Z, if str_empty app then result else Launch.cleared result)) ∧
  Launcher.zombies r.1 = Launcher.zombies w ∧
  ∃ evs closes,
    Launcher.trace r.1 = Launcher.trace w ++ evs ++ closes ∧
    forallb (λ e, negb (Launch.is_child_event e)) evs = true ∧
    closes = match r.2, result with
             | Launcher.Return _, Some _ =>
                 if str_empty app then []
                 else [Launcher.EvClose (Launch.stdout_fds S).1;
                       Launcher.EvClose (Launch.stderr_fds S).1]
             | _, _ => []
             end.
Proof.
  intros r. subst r. destruct (str_empty app) eqn:Happ.
  - unfold Launch.LaunchProcess. rewrite Happ. cbn.
    split; [now right|]. split; [reflexivity|].
    eexists [_], []. split; [reflexivity|]. split; [reflexivity|]. now destruct result.
  - destruct (LaunchProcess_cases P S app workingDir cmdLine internal result w Happ)
      as (evs & Hevs & [-> | ->]); cbn [fst snd Launcher.zombies Launcher.trace
                                         Launcher.log_events].
    + split; [now left|]. split; [reflexivity|].
      exists evs, []. now rewrite app_nil_r.
    + split; [now right|]. split; [reflexivity|].
      eexists evs, _. split; [reflexivity|]. split; [exact Hevs|]. now destruct result.
Qed.



(** X22. The [main] of renderdoccmd never returns and never gets to the
    renderdoccmd commands.  After printing its arguments and environment:
    with no argument it prints one more line and exits with 0; with an
    argument it forks; the parent prints the child pid and the last line
    and exits with 0; the child changes to the constant directory and
    calls [execve] on [argv[1]] with the arguments from [argv[1]] on and
    the environment it was given, and exits with 1 when that fails. *)
Theorem main_forks_and_exits
        (P : Launcher.Platform) (argv penv : list string) (w : Launcher.world) :
  ∃ prints,
    forallb Launcher.is_printf prints = true ∧
    let r := Launch.main P argv penv w in
    let argv1 := c_str (nth 1 argv "") in
    let bye := Launcher.EvPrintf ("shouldn't get here" +:+ Launcher.nl) [] in
    let ex := Launcher.EvExecve argv1 (map c_str (tl argv)) (map c_str penv) in
    let child :=
      [Launcher.EvFork 0;
       Launcher.EvPrintf "" [Launcher.PStr "argv[1] = "; Launcher.PStr argv1;
                             Launcher.PStr Launcher.nl];
       Launcher.EvChdir Launcher.hard_workdir;
       Launcher.EvPrintf "" [Launcher.PStr "change workdir = ";
                             Launcher.PStr Launcher.hard_workdir;
                             Launcher.PStr Launcher.nl];
       ex] in
    if (length argv <=? 1)%nat then
      r = (Launcher.log_events w (prints ++ [bye]), Launcher.Exited Launch.EXIT_SUCCESS)
    else if (Launcher.fork_result P =? 0)%Z then
      if Launcher.execve_succeeds P argv1 (map c_str (tl argv)) (map c_str penv) then
        r = (Launcher.log_events w (prints ++ child), Launcher.Replaced)
      else
        r = (Launcher.log_events w
               (prints ++ child ++
                [Launcher.EvPrintf "" [Launcher.PStr "failed to execve";
                                       Launcher.PStr Launcher.nl];
                 Launcher.EvStderr "execve"]),
             Launcher.Exited Launch.EXIT_FAILURE)
    else
      r = (Launcher.log_events w
             (prints ++
              [Launcher.EvFork (Launcher.fork_result P);
               Launcher.EvPrintf "" [Launcher.PStr "main create childPid = ";
                                     Launcher.PInt (Launcher.fork_result P);
                                     Launcher.PStr Launcher.nl];
               bye]),
           Launcher.Exited Launch.EXIT_SUCCESS).
Proof.
  destruct (main_run P argv penv w) as (prints & Hp & E).
  exists prints. split; [exact Hp|]. cbv zeta in E |- *. rewrite E.
  destruct (length argv <=? 1)%nat; [reflexivity|].
  destruct (Launcher.fork_result P =? 0)%Z; [|reflexivity].
  now destruct (Launcher.execve_succeeds P _ _ _).
Qed.

(** X23. The exec wrapper never returns.  After printing its arguments and
    environment: with its name and no argument it prints one more line and
    exits with 0; with an argument it calls [execve] on [argv[1]] in its
    own process, without a fork or a change of directory, and hands over
    all of [argv], so the program replacing it finds the wrapper's name as
    its first argument and its own name as the second; it exits with 1
    when the call fails.  With an empty [argv] the test of [argv[1]] reads
    behind the terminator and the program has no defined result from there
    on. *)
Theorem wrapper_main_execs_in_place
        (P : Launcher.Platform) (argv env : list string) (w : Launcher.world) :
  ∃ prints,
    forallb Launcher.is_printf prints = true ∧
    let r := Wrapper.main P argv env w in
    let bye := Launcher.EvPrintf ("shouldn't get here" +:+ Launcher.nl) [] in
    match argv with
    | [] => r = (Launcher.log_events w prints, Launcher.Undefined)
    | _ :: [] => r = (Launcher.log_events w (prints ++ [bye]),
                      Launcher.Exited Launch.EXIT_SUCCESS)
    | _ :: argv1 :: _ =>
        let ex := Launcher.EvExecve (c_str argv1) (map c_str argv) (map c_str env) in
        let say := Launcher.EvPrintf "" [Launcher.PStr "argv[1] = ";
                                         Launcher.PStr (c_str argv1);
                                         Launcher.PStr Launcher.nl] in
        if Launcher.execve_succeeds P (c_str argv1) (map c_str argv) (map c_str env) then
          r = (Launcher.log_events w (prints ++ [say; ex]), Launcher.Replaced)
        else
          r = (Launcher.log_events w
                 (prints ++
                  [say; ex;
                   Launcher.EvPrintf "" [Launcher.PStr "failed to execve";
                                         Launcher.PStr Launcher.nl];
                   Launcher.EvStderr "execve"]),
               Launcher.Exited Launch.EXIT_FAILURE)
    end.
Proof.
  destruct (wrapper_main_run P argv env w) as (prints & Hp & E).
  exists prints. split; [exact Hp|]. cbv zeta in E |- *. rewrite E.
  destruct argv as [|argv0 [|argv1 rest]]; [reflexivity..|].
  now destruct (Launcher.execve_succeeds P _ _ _).
Qed.
